(** * The multiplayer game server: rooms, game state and round timers

    A shallow embedding of the server side of the party-game demo:
    - [GameState.js]  (class [GameState]: coins, blocks, projectiles),
    - [GameRoom.js]   (class [GameRoom]: roster, teams, start/end),
    - [server.js]     (room directory, socket handlers, round timers).

    Conventions of the embedding.
    - A JS [Map] is an association list in insertion order ([JsMap]):
      [forEach] and the [for .. of rooms.entries()] scan depend on it.
    - Scores, health and timestamps are integers ([Z]).  A coordinate is a
      finite double; a field holds its value, a rational ([Q]).  Where the
      program computes with coordinates (the motion of a projectile, the
      distance tests) the computation is done in binary64 ([Float64]),
      rounding and overflow included; a product with a random draw is
      exact.
    - [Math.random()] is a stream of draws in the half-open unit interval,
      threaded through every function that calls it ([Rand]).
    - [Date.now()] and the timer clock are in milliseconds.
    - A thrown [Error] is the [inl] branch of a sum. *)

From Stdlib Require Import ZArith QArith Qround Lia Bool SpecFloat Sorted.
From stdpp Require Import base list strings pretty gmap.

Local Open Scope Z_scope.

(** ** Insertion-ordered maps (the JS [Map]) *)

Module JsMap.
Section ordered_map.
Context {K V : Type} `{EqDecision K}.

Fixpoint get (k : K) (m : list (K * V)) : option V :=
  match m with
  | [] => None
  | (k', v) :: m' => if decide (k = k') then Some v else get k m'
  end.

Definition has (k : K) (m : list (K * V)) : bool :=
  match get k m with Some _ => true | None => false end.

(** [Map.prototype.set]: an existing key keeps its place in the order. *)
Fixpoint set (k : K) (v : V) (m : list (K * V)) : list (K * V) :=
  match m with
  | [] => [(k, v)]
  | (k', v') :: m' =>
      if decide (k = k') then (k, v) :: m' else (k', v') :: set k v m'
  end.

Fixpoint delete (k : K) (m : list (K * V)) : list (K * V) :=
  match m with
  | [] => []
  | (k', v') :: m' =>
      if decide (k = k') then delete k m' else (k', v') :: delete k m'
  end.

Definition size (m : list (K * V)) : Z := Z.of_nat (length m).

Definition keys (m : list (K * V)) : list K := m.*1.
Definition values (m : list (K * V)) : list V := m.*2.

(** [forEach] with a callback that mutates the value it is given. *)
Definition forEach (f : V -> V) (m : list (K * V)) : list (K * V) :=
  map (fun kv => (kv.1, f kv.2)) m.

End ordered_map.
End JsMap.

(** ** Numbers

    The numbers of the program are IEEE 754 doubles.  [Float64] is their
    arithmetic, rounding to nearest with ties to even, over the standard
    library's specification of floating-point numbers at precision 53. *)

Module Float64.

Definition prec : Z := 53.
Definition emax : Z := 1024.

(** The doubles, with the infinities and NaN. *)
Definition num : Type := spec_float.

Definition ofZ (n : Z) : num := binary_normalize prec emax n 0 false.

(** The exponent of a power of two. *)
Fixpoint log2_exact (d : positive) : option Z :=
  match d with
  | xH => Some 0
  | xO d' => match log2_exact d' with Some k => Some (k + 1) | None => None end
  | xI _ => None
  end.

(** The double nearest to a rational: the rational itself when it is a
    double, which has a power of two for denominator. *)
Definition ofQ (q : Q) : num :=
  match log2_exact (Qden q) with
  | Some k => binary_normalize prec emax (Qnum q) (- k) false
  | None => SFdiv prec emax (ofZ (Qnum q)) (ofZ (Zpos (Qden q)))
  end.

(** The value of a double.  An infinity is kept as [2 ^ 1024] with its
    sign, beyond every finite double: [ofQ] reads it back as the infinity,
    and it compares with the finite doubles as the infinity does. *)
Definition toQ (x : num) : Q :=
  match x with
  | S754_finite s m e =>
      let n := if s then Zneg m else Zpos m in
      if 0 <=? e then (n * 2 ^ e) # 1 else n # Z.to_pos (2 ^ (- e))
  | S754_infinity s => (if s then - 2 ^ emax else 2 ^ emax) # 1
  | _ => 0%Q
  end.

Definition add : num -> num -> num := SFadd prec emax.
Definition sub : num -> num -> num := SFsub prec emax.
Definition mul : num -> num -> num := SFmul prec emax.
Definition sqrt : num -> num := SFsqrt prec emax.
Definition lt : num -> num -> bool := SFltb.

(** [Math.pow(d, 2)]: the engines return the product [d * d]. *)
Definition pow2 (d : num) : num := mul d d.

End Float64.

(** ** [Math.random] *)

(** The generator is a fixed stream of draws and a cursor; every call to
    [Math.random()] returns the draw under the cursor and moves it on. *)
Record Rand := mkRand { draws : nat -> Q; cursor : nat }.

Definition random (r : Rand) : Q * Rand :=
  (draws r (cursor r), mkRand (draws r) (S (cursor r))).

(** [Math.random()] is specified to return a number in [0, 1). *)
Definition unit_draws (r : Rand) : Prop :=
  forall n, (0 <= draws r n)%Q /\ (draws r n < 1)%Q.

(** ** Data model of [GameState.js] *)

Inductive Team := red | blue.
Inductive Mode := race | build | battle.

Global Instance Team_eq_dec : EqDecision Team.
Proof. solve_decision. Defined.
Global Instance Mode_eq_dec : EqDecision Mode.
Proof. solve_decision. Defined.

Record PowerUp := mkPowerUp { pu_type : string; pu_endTime : Z }.

(** The player object built by [GameRoom.addPlayer]; [vx] and [vy] are
    absent until [initializePositions] or an input sets them. *)
Record Player := mkPlayer {
  pl_id : string;
  pl_username : string;
  pl_team : Team;
  pl_score : Z;
  pl_x : Q;
  pl_y : Q;
  pl_vx : option Q;
  pl_vy : option Q;
  pl_health : Z;
  pl_powerUps : list PowerUp
}.

Record Coin := mkCoin { c_id : Z; c_x : Q; c_y : Q; c_collected : bool }.

Record Block := mkBlock { b_x : Q; b_y : Q; b_type : string; b_owner : string }.

Record Projectile := mkProjectile {
  pr_id : Z;
  pr_owner : string;
  pr_team : Team;
  pr_x : Q;
  pr_y : Q;
  pr_angle : Q;
  pr_speed : Q;
  pr_damage : Z
}.

Record TeamScores := mkTeamScores { ts_red : Z; ts_blue : Z }.

Record GameState := mkGameState {
  players : list (string * Player);
  currentMode : Mode;
  teamScores : TeamScores;
  coins : list Coin;
  blocks : list Block;
  projectiles : list Projectile
}.

Definition set_players (f : list (string * Player) -> list (string * Player))
    (gs : GameState) : GameState :=
  mkGameState (f (players gs)) (currentMode gs) (teamScores gs) (coins gs)
    (blocks gs) (projectiles gs).
Definition set_currentMode (m : Mode) (gs : GameState) : GameState :=
  mkGameState (players gs) m (teamScores gs) (coins gs) (blocks gs)
    (projectiles gs).
Definition set_teamScores (t : TeamScores) (gs : GameState) : GameState :=
  mkGameState (players gs) (currentMode gs) t (coins gs) (blocks gs)
    (projectiles gs).
Definition set_coins (c : list Coin) (gs : GameState) : GameState :=
  mkGameState (players gs) (currentMode gs) (teamScores gs) c (blocks gs)
    (projectiles gs).
Definition set_blocks (b : list Block) (gs : GameState) : GameState :=
  mkGameState (players gs) (currentMode gs) (teamScores gs) (coins gs) b
    (projectiles gs).
Definition set_projectiles (p : list Projectile) (gs : GameState) : GameState :=
  mkGameState (players gs) (currentMode gs) (teamScores gs) (coins gs)
    (blocks gs) p.

Definition add_score (n : Z) (p : Player) : Player :=
  mkPlayer (pl_id p) (pl_username p) (pl_team p) (pl_score p + n) (pl_x p)
    (pl_y p) (pl_vx p) (pl_vy p) (pl_health p) (pl_powerUps p).
Definition set_health (h : Z) (p : Player) : Player :=
  mkPlayer (pl_id p) (pl_username p) (pl_team p) (pl_score p) (pl_x p)
    (pl_y p) (pl_vx p) (pl_vy p) h (pl_powerUps p).
Definition set_powerUps (l : list PowerUp) (p : Player) : Player :=
  mkPlayer (pl_id p) (pl_username p) (pl_team p) (pl_score p) (pl_x p)
    (pl_y p) (pl_vx p) (pl_vy p) (pl_health p) l.
Definition set_position (x y : Q) (vx vy : option Q) (p : Player) : Player :=
  mkPlayer (pl_id p) (pl_username p) (pl_team p) (pl_score p) x y vx vy
    (pl_health p) (pl_powerUps p).
Definition set_collected (c : Coin) : Coin :=
  mkCoin (c_id c) (c_x c) (c_y c) true.

(** [a < b] on two fields. *)
Definition Qltb (a b : Q) : bool :=
  match (a ?= b)%Q with Lt => true | _ => false end.

(** [Math.sqrt(Math.pow(ax - bx, 2) + Math.pow(ay - by, 2)) < 30], as the
    program evaluates it: every operation rounds. *)
Definition within30 (ax ay bx by' : Q) : bool :=
  let dx := Float64.sub (Float64.ofQ ax) (Float64.ofQ bx) in
  let dy := Float64.sub (Float64.ofQ ay) (Float64.ofQ by') in
  Float64.lt
    (Float64.sqrt (Float64.add (Float64.pow2 dx) (Float64.pow2 dy)))
    (Float64.ofQ (30 # 1)).

(** ** [GameState.js] *)

(** [initializePositions]: players are laid out on a grid, four per row, in
    the iteration order of the map. *)
Fixpoint initializePositions_from (index : Z) (ps : list (string * Player))
    : list (string * Player) :=
  match ps with
  | [] => []
  | (k, player) :: ps' =>
      (k, set_position (inject_Z (100 + (index mod 4) * 150))
            (inject_Z (100 + (index / 4) * 100)) (Some 0%Q) (Some 0%Q) player)
      :: initializePositions_from (index + 1) ps'
  end.

Definition initializePositions (ps : list (string * Player))
    : list (string * Player) :=
  initializePositions_from 0 ps.

(** [generateCoins]: twenty coins, ids 0..19, two draws each. *)
Fixpoint generateCoins_from (n : nat) (i : Z) (r : Rand) : list Coin * Rand :=
  match n with
  | O => ([], r)
  | S n' =>
      let '(rx, r1) := random r in
      let '(ry, r2) := random r1 in
      let '(cs, r3) := generateCoins_from n' (i + 1) r2 in
      (mkCoin i (rx * (800 # 1)) (ry * (600 # 1)) false :: cs, r3)
  end.

Definition generateCoins (r : Rand) : list Coin * Rand :=
  generateCoins_from 20 0 r.

(** [new GameState(players)] *)
Definition newGameState (ps : list (string * Player)) (r : Rand)
    : GameState * Rand :=
  let '(cs, r') := generateCoins r in
  (mkGameState (initializePositions ps) race (mkTeamScores 0 0) cs [] [], r').

(** The [input] object of a [playerInput] event: every field is optional. *)
Record Input := mkInput {
  in_x : option Q; in_y : option Q; in_vx : option Q; in_vy : option Q
}.

Definition applyInput (input : Input) (player : Player) : Player :=
  set_position
    (match in_x input with Some v => v | None => pl_x player end)
    (match in_y input with Some v => v | None => pl_y player end)
    (match in_vx input with Some v => Some v | None => pl_vx player end)
    (match in_vy input with Some v => Some v | None => pl_vy player end)
    player.

(** [checkCoinCollisions(player)]: one pass over the coins; the player object
    accumulates the rewards. *)
Fixpoint checkCoinCollisions (player : Player) (cs : list Coin)
    : Player * list Coin :=
  match cs with
  | [] => (player, [])
  | coin :: cs' =>
      if negb (c_collected coin) then
        if within30 (pl_x player) (pl_y player) (c_x coin) (c_y coin) then
          let '(player', cs'') := checkCoinCollisions (add_score 10 player) cs' in
          (player', set_collected coin :: cs'')
        else
          let '(player', cs'') := checkCoinCollisions player cs' in
          (player', coin :: cs'')
      else
        let '(player', cs'') := checkCoinCollisions player cs' in
        (player', coin :: cs'')
  end.

Definition updatePlayerInput (playerId : string) (input : Input)
    (gs : GameState) : GameState :=
  match JsMap.get playerId (players gs) with
  | None => gs
  | Some player =>
      let player1 := applyInput input player in
      if decide (currentMode gs = race) then
        let '(player2, cs) := checkCoinCollisions player1 (coins gs) in
        set_coins cs (set_players (JsMap.set playerId player2) gs)
      else set_players (JsMap.set playerId player1) gs
  end.

(** The [action] name and [data] payload of a [playerAction] event. *)
Inductive Action :=
| ActCollectCoin (coinId : Z)
| ActPlaceBlock (x y : Q) (type : string)
| ActShoot (angle x y : Q)
| ActUseBoost
| ActOther (name : string).

Inductive ActionResult :=
| CoinCollected (playerId : string) (coinId : Z) (score : Z)
| BlockPlaced (playerId : string) (x y : Q) (type : string)
| ProjectileCreated (playerId : string) (projectile : Projectile)
| BoostActivated (playerId : string) (powerUp : string).

(** [this.coins[coinId]]: only an index inside the array names a coin. *)
Definition coinAt (coinId : Z) (cs : list Coin) : option Coin :=
  if 0 <=? coinId then cs !! Z.to_nat coinId else None.

(** The methods below receive the player object that [handleAction] looked
    up; [key] is the map key it is stored under, so that the mutation of the
    object shows in [players]. *)
Definition collectCoin (key : string) (player : Player) (coinId : Z)
    (gs : GameState) : option ActionResult * GameState :=
  match coinAt coinId (coins gs) with
  | Some coin =>
      if negb (c_collected coin) then
        let player' := add_score 10 player in
        (Some (CoinCollected (pl_id player) coinId (pl_score player')),
         set_coins (<[Z.to_nat coinId := set_collected coin]> (coins gs))
           (set_players (JsMap.set key player') gs))
      else (None, gs)
  | None => (None, gs)
  end.

Definition placeBlock (key : string) (player : Player) (x y : Q)
    (type : string) (gs : GameState) : option ActionResult * GameState :=
  let block := mkBlock x y type (pl_id player) in
  (Some (BlockPlaced (pl_id player) x y type),
   set_blocks (blocks gs ++ [block])
     (set_players (JsMap.set key (add_score 5 player)) gs)).

Definition createProjectile (now : Z) (player : Player) (angle x y : Q)
    (gs : GameState) : option ActionResult * GameState :=
  let projectile :=
    mkProjectile now (pl_id player) (pl_team player) x y angle (10 # 1) 25 in
  (Some (ProjectileCreated (pl_id player) projectile),
   set_projectiles (projectiles gs ++ [projectile]) gs).

Definition activateBoost (now : Z) (key : string) (player : Player)
    (gs : GameState) : option ActionResult * GameState :=
  (Some (BoostActivated (pl_id player) "speed_boost"),
   set_players
     (JsMap.set key
        (set_powerUps
           (pl_powerUps player ++ [mkPowerUp "speed_boost" (now + 3000)])
           player)) gs).

Definition handleAction (now : Z) (playerId : string) (action : Action)
    (gs : GameState) : option ActionResult * GameState :=
  match JsMap.get playerId (players gs) with
  | None => (None, gs)
  | Some player =>
      match action with
      | ActCollectCoin coinId => collectCoin playerId player coinId gs
      | ActPlaceBlock x y type => placeBlock playerId player x y type gs
      | ActShoot angle x y => createProjectile now player angle x y gs
      | ActUseBoost => activateBoost now playerId player gs
      | ActOther _ => (None, gs)
      end
  end.

(** *** [this.coins[coinId]] for an id that is not a number

    [collectCoin] uses the id it is handed as a property key of the array
    [this.coins].  A number that is an index of the array names a coin
    ([coinAt]), and so does the string that spells that number.  Any other
    key names what an array has or inherits under that name: its [length],
    or one of the methods and objects every array inherits from
    [Array.prototype] and [Object.prototype] ([members]: those of
    ECMAScript 2023; an older engine lacks the latest of them).  The
    inherited ones are shared by all the arrays of the process; [Marked]
    lists those on which [collected] has been set. *)

Definition members : list string :=
  ["constructor"; "at"; "concat"; "copyWithin"; "entries"; "every"; "fill";
   "filter"; "find"; "findIndex"; "findLast"; "findLastIndex"; "flat";
   "flatMap"; "forEach"; "includes"; "indexOf"; "join"; "keys";
   "lastIndexOf"; "map"; "pop"; "push"; "reduce"; "reduceRight"; "reverse";
   "shift"; "slice"; "some"; "sort"; "splice"; "toLocaleString";
   "toReversed"; "toSorted"; "toSpliced"; "toString"; "unshift"; "values";
   "with"; "hasOwnProperty"; "isPrototypeOf"; "propertyIsEnumerable";
   "valueOf"; "__defineGetter__"; "__defineSetter__"; "__lookupGetter__";
   "__lookupSetter__"; "__proto__"].

Definition Marked : Type := list string.

(** What [this.coins[key]] evaluates to. *)
Inductive Slot :=
| SlotCoin (i : nat) (coin : Coin)
| SlotLength (n : nat)
| SlotMember (name : string)
| SlotTrue
| SlotUndefined.

(** The element whose index is spelt by [key], looking from index [i] on. *)
Fixpoint elementAt (key : string) (i : nat) (cs : list Coin)
    : option (nat * Coin) :=
  match cs with
  | [] => None
  | c :: cs' =>
      if decide (pretty (Z.of_nat i) = key) then Some (i, c)
      else elementAt key (S i) cs'
  end.

(** [Array.prototype] is the object found under [__proto__]: once it is
    marked, every array has [collected], with the value [true]. *)
Definition slotOf (key : string) (cs : list Coin) (marked : Marked) : Slot :=
  match elementAt key 0 cs with
  | Some (i, c) => SlotCoin i c
  | None =>
      if decide (key = "length") then SlotLength (length cs)
      else if decide (key ∈ members) then SlotMember key
      else if decide (key = "collected" /\ "__proto__" ∈ marked) then SlotTrue
      else SlotUndefined
  end.

Record KeyedEvent := mkKeyedEvent {
  ke_playerId : string; ke_coinId : string; ke_score : Z
}.

(** The method returns, or throws: the body of a class is strict code, where
    setting a property on a number or a boolean is a [TypeError]. *)
Inductive KeyedOutcome :=
| KeyedReturn (result : option KeyedEvent) (gs : GameState) (marked : Marked)
| KeyedThrow (message : string).

Definition collectCoinKeyed (key : string) (player : Player) (coinId : string)
    (gs : GameState) (marked : Marked) : KeyedOutcome :=
  match slotOf coinId (coins gs) marked with
  | SlotCoin i coin =>
      if negb (c_collected coin) then
        let player' := add_score 10 player in
        KeyedReturn
          (Some (mkKeyedEvent (pl_id player) coinId (pl_score player')))
          (set_coins (<[i := set_collected coin]> (coins gs))
             (set_players (JsMap.set key player') gs))
          marked
      else KeyedReturn None gs marked
  | SlotLength n =>
      if decide (n = 0%nat) then KeyedReturn None gs marked
      else KeyedThrow "Cannot create property 'collected' on number"
  | SlotMember name =>
      if decide (name ∈ marked) then KeyedReturn None gs marked
      else
        let player' := add_score 10 player in
        KeyedReturn
          (Some (mkKeyedEvent (pl_id player) coinId (pl_score player')))
          (set_players (JsMap.set key player') gs)
          (name :: marked)
  | SlotTrue => KeyedThrow "Cannot create property 'collected' on boolean"
  | SlotUndefined => KeyedReturn None gs marked
  end.

(** The key a number is looked up under begins with a digit or a minus
    sign. *)
Definition startsNumeric (key : string) : bool :=
  match key with
  | String c _ =>
      let n := Ascii.nat_of_ascii c in
      ((48 <=? n)%nat && (n <=? 57)%nat) || (n =? 45)%nat
  | EmptyString => false
  end.

(** The event as the keyed method returns it. *)
Definition keyedEvent (res : ActionResult) : option KeyedEvent :=
  match res with
  | CoinCollected playerId coinId score =>
      Some (mkKeyedEvent playerId (pretty coinId) score)
  | _ => None
  end.

Definition removePlayer (playerId : string) (gs : GameState) : GameState :=
  set_players (JsMap.delete playerId) gs.

(** [getState()]: the snapshot broadcast on every tick. *)
Record PublicPlayer := mkPublicPlayer {
  pp_id : string;
  pp_username : string;
  pp_x : Q;
  pp_y : Q;
  pp_score : Z;
  pp_health : Z;
  pp_team : Team
}.

Inductive Objects :=
| ObjCoins (cs : list Coin)
| ObjBlocks (bs : list Block)
| ObjProjectiles (ps : list Projectile).

Record Snapshot := mkSnapshot {
  sn_players : list PublicPlayer;
  sn_objects : Objects;
  sn_teamScores : TeamScores;
  sn_mode : Mode
}.

Definition publicPlayer (p : Player) : PublicPlayer :=
  mkPublicPlayer (pl_id p) (pl_username p) (pl_x p) (pl_y p) (pl_score p)
    (pl_health p) (pl_team p).

Definition getState (gs : GameState) : Snapshot :=
  mkSnapshot
    (map publicPlayer (JsMap.values (players gs)))
    (match currentMode gs with
     | race => ObjCoins (coins gs)
     | build => ObjBlocks (blocks gs)
     | battle => ObjProjectiles (projectiles gs)
     end)
    (teamScores gs)
    (currentMode gs).

Record ScoreEntry := mkScoreEntry {
  se_id : string; se_username : string; se_score : Z
}.

(** [Array.prototype.sort((a, b) => b.score - a.score)]: descending by score,
    stable. *)
Fixpoint insertByScore (e : ScoreEntry) (sorted : list ScoreEntry)
    : list ScoreEntry :=
  match sorted with
  | [] => [e]
  | e' :: rest =>
      if se_score e' <=? se_score e then e :: e' :: rest
      else e' :: insertByScore e rest
  end.

Definition sortByScore (l : list ScoreEntry) : list ScoreEntry :=
  foldr insertByScore [] l.

Definition getScores (gs : GameState) : list ScoreEntry :=
  sortByScore
    (map (fun p => mkScoreEntry (pl_id p) (pl_username p) (pl_score p))
       (JsMap.values (players gs))).

Record FinalScores := mkFinalScores {
  fs_winner : option ScoreEntry;
  fs_scores : list ScoreEntry;
  fs_teamScores : TeamScores
}.

Definition getFinalScores (gs : GameState) : FinalScores :=
  let scores := getScores gs in
  mkFinalScores (head scores) scores (teamScores gs).

(** [setMode(mode)]; race draws fresh coins. *)
Definition setMode (mode : Mode) (gs : GameState) (r : Rand)
    : GameState * Rand :=
  let gs1 := set_currentMode mode gs in
  match mode with
  | race => let '(cs, r') := generateCoins r in (set_coins cs gs1, r')
  | build => (set_blocks [] gs1, r)
  | battle =>
      (set_players (JsMap.forEach (set_health 100)) (set_projectiles [] gs1), r)
  end.

(** *** The simulation step [update] *)

Section Simulation.
(** [Math.cos] and [Math.sin]: the double each returns for an angle. *)
Variables cosf sinf : Q -> Q.

(** [c += f * speed] in doubles. *)
Definition moved (c f speed : Q) : Q :=
  Float64.toQ
    (Float64.add (Float64.ofQ c)
       (Float64.mul (Float64.ofQ f) (Float64.ofQ speed))).

Definition advance (proj : Projectile) : Projectile :=
  mkProjectile (pr_id proj) (pr_owner proj) (pr_team proj)
    (moved (pr_x proj) (cosf (pr_angle proj)) (pr_speed proj))
    (moved (pr_y proj) (sinf (pr_angle proj)) (pr_speed proj))
    (pr_angle proj) (pr_speed proj) (pr_damage proj).

(** The guard of the collision test: another player, of another team,
    closer than 30. *)
Definition isTarget (proj : Projectile) (player : Player) : bool :=
  negb (bool_decide (pl_id player = pr_owner proj))
  && negb (bool_decide (pl_team player = pr_team proj))
  && within30 (pl_x player) (pl_y player) (pr_x proj) (pr_y proj).

(** [this.teamScores[proj.team === 'red' ? 'red' : 'blue'] += 10] *)
Definition creditTeam (t : Team) (ts : TeamScores) : TeamScores :=
  match t with
  | red => mkTeamScores (ts_red ts + 10) (ts_blue ts)
  | blue => mkTeamScores (ts_red ts) (ts_blue ts + 10)
  end.

(** The body of the collision test for a player in range. *)
Definition strike (proj : Projectile) (player : Player) (ts : TeamScores)
    : Player * TeamScores :=
  let health := pl_health player - pr_damage proj in
  if health <=? 0 then (set_health 0 player, creditTeam (pr_team proj) ts)
  else (set_health health player, ts).

(** [this.players.forEach(player => ...)] for one projectile: the roster
    after the pass, the team scores, and the [hit] flag. *)
Fixpoint collide (proj : Projectile) (ps : list (string * Player))
    (ts : TeamScores) (hit : bool)
    : list (string * Player) * TeamScores * bool :=
  match ps with
  | [] => ([], ts, hit)
  | (k, player) :: ps' =>
      if isTarget proj player then
        let '(player', ts1) := strike proj player ts in
        let '(rest, ts2, hit') := collide proj ps' ts1 true in
        ((k, player') :: rest, ts2, hit')
      else
        let '(rest, ts2, hit') := collide proj ps' ts hit in
        ((k, player) :: rest, ts2, hit')
  end.

Definition inBounds (proj : Projectile) : bool :=
  Qltb 0 (pr_x proj) && Qltb (pr_x proj) (1000 # 1)
  && Qltb 0 (pr_y proj) && Qltb (pr_y proj) (800 # 1).

(** The callback of [this.projectiles.filter]: the projectile is moved, the
    players are tested, and the result tells whether it stays. *)
Definition projectileStep (proj : Projectile) (ps : list (string * Player))
    (ts : TeamScores)
    : option Projectile * list (string * Player) * TeamScores :=
  let proj' := advance proj in
  let '(ps', ts', hit) := collide proj' ps ts false in
  (if negb hit && inBounds proj' then Some proj' else None, ps', ts').

Fixpoint filterProjectiles (projs : list Projectile)
    (ps : list (string * Player)) (ts : TeamScores)
    : list Projectile * list (string * Player) * TeamScores :=
  match projs with
  | [] => ([], ps, ts)
  | proj :: rest =>
      let '(kept, ps1, ts1) := projectileStep proj ps ts in
      let '(keptRest, ps2, ts2) := filterProjectiles rest ps1 ts1 in
      (match kept with Some p => p :: keptRest | None => keptRest end,
       ps2, ts2)
  end.

Definition expirePowerUps (now : Z) (player : Player) : Player :=
  set_powerUps
    (filter (fun p => now < pu_endTime p) (pl_powerUps player)) player.

(** [update(deltaTime)]; [now] is the [Date.now()] read in its second half. *)
Definition update (now : Z) (gs : GameState) : GameState :=
  let '(projs, ps, ts) :=
    filterProjectiles (projectiles gs) (players gs) (teamScores gs) in
  mkGameState (JsMap.forEach (expirePowerUps now) ps) (currentMode gs) ts
    (coins gs) (blocks gs) projs.

End Simulation.

(** ** [GameRoom.js] *)

(** The player objects of [room.players] are shared with the [GameState]
    built from them ([new Map(players)] copies the entries, not the
    objects).  The model keeps one copy in each map: while a game runs the
    copy inside [gameState] is the live one, and [endGame] hands it back to
    the roster.  The fields read from the roster in between ([team], the
    keys and the size) are never written by [GameState]. *)
Record GameRoom := mkGameRoom {
  code : string;
  isPrivate : bool;
  roster : list (string * Player);   (* this.players *)
  gameState : option GameState;
  gameStarted : bool;
  currentRound : Z;
  maxPlayers : Z
}.

Definition newGameRoom (code : string) (isPrivate : bool) : GameRoom :=
  mkGameRoom code isPrivate [] None false 0 16.

Definition playerCount (room : GameRoom) : Z := JsMap.size (roster room).

Definition countTeam (t : Team) (ps : list (string * Player)) : Z :=
  Z.of_nat (length (filter (fun kp => pl_team kp.2 = t) ps)).

(** [assignTeam()]: counts the current members of each team. *)
Definition assignTeam (room : GameRoom) : Team :=
  if countTeam red (roster room) <=? countTeam blue (roster room)
  then red else blue.

Definition RoomFull : string := "Room is full".

(** [Math.floor] of a non-negative number, and its decimal print. *)
Definition guestName (d : Q) : string :=
  "Guest" +:+ pretty (Qfloor (d * (10000 # 1))).

(** [addPlayer(id, username)]; an empty [username] is falsy and gets a
    generated guest name, which costs one more draw. *)
Definition addPlayer (id username : string) (room : GameRoom) (r : Rand)
    : string + (Player * GameRoom * Rand) :=
  if maxPlayers room <=? JsMap.size (roster room) then inl RoomFull
  else
    let '(name, r1) :=
      if decide (username = "") then
        let '(d, r') := random r in (guestName d, r')
      else (username, r) in
    let team := assignTeam room in
    let '(dx, r2) := random r1 in
    let '(dy, r3) := random r2 in
    let player :=
      mkPlayer id name team 0 (dx * (800 # 1)) (dy * (600 # 1)) None None
        100 [] in
    inr (player,
         mkGameRoom (code room) (isPrivate room)
           (JsMap.set id player (roster room)) (gameState room)
           (gameStarted room) (currentRound room) (maxPlayers room),
         r3).

Definition room_removePlayer (id : string) (room : GameRoom) : GameRoom :=
  mkGameRoom (code room) (isPrivate room) (JsMap.delete id (roster room))
    (match gameState room with
     | Some gs => Some (removePlayer id gs)
     | None => None
     end)
    (gameStarted room) (currentRound room) (maxPlayers room).

(** [startGame()] of the room. *)
Definition room_startGame (room : GameRoom) (r : Rand) : GameRoom * Rand :=
  if gameStarted room then (room, r)
  else
    let '(gs, r') := newGameState (roster room) r in
    (mkGameRoom (code room) (isPrivate room) (roster room) (Some gs) true 1
       (maxPlayers room), r').

(** The roster entries after a game: each object as the game left it. *)
Definition handBack (gs : GameState) (ps : list (string * Player))
    : list (string * Player) :=
  map (fun kp =>
         match JsMap.get kp.1 (players gs) with
         | Some p => (kp.1, p)
         | None => kp
         end) ps.

Definition endGame (room : GameRoom) : GameRoom :=
  mkGameRoom (code room) (isPrivate room)
    (match gameState room with
     | Some gs => handBack gs (roster room)
     | None => roster room
     end)
    None false 0 (maxPlayers room).

Definition getPlayers (room : GameRoom) : list Player :=
  match gameState room with
  | Some gs => JsMap.values (handBack gs (roster room))
  | None => JsMap.values (roster room)
  end.

(** ** [server.js] *)

Definition chars : string := "ABCDEFGHIJKLMNOPQRSTUVWXYZ0123456789".

(** [String.prototype.charAt]: the empty string outside the range. *)
Definition charAt (s : string) (i : Z) : string :=
  if 0 <=? i then
    match String.get (Z.to_nat i) s with
    | Some c => String c EmptyString
    | None => ""
    end
  else "".

Fixpoint generateRoomCode_loop (n : nat) (code : string) (r : Rand)
    : string * Rand :=
  match n with
  | O => (code, r)
  | S n' =>
      let '(d, r') := random r in
      generateRoomCode_loop n'
        (code +:+ charAt chars
                    (Qfloor (d * inject_Z (Z.of_nat (String.length chars)))))
        r'
  end.

Definition generateRoomCode (r : Rand) : string * Rand :=
  generateRoomCode_loop 6 "" r.

(** [String.prototype.toUpperCase], on ASCII letters. *)
Definition upperAscii (c : Ascii.ascii) : Ascii.ascii :=
  let n := Ascii.nat_of_ascii c in
  if (97 <=? n)%nat && (n <=? 122)%nat then Ascii.ascii_of_nat (n - 32)
  else c.

Fixpoint toUpperCase (s : string) : string :=
  match s with
  | EmptyString => EmptyString
  | String c s' => String (upperAscii c) (toUpperCase s')
  end.

(** *** Outbound events *)

Inductive Event :=
| EvRoundStart (mode : Mode) (duration : Z)
| EvRoundEnd (scores : list ScoreEntry)
| EvGameEnd (final : FinalScores)
| EvGameStateUpdate (state : Snapshot)
| EvPlayerJoined (player : Player)
| EvPlayerLeft (id : string)
| EvActionResult (action : string) (result : ActionResult).

(** One [emit]: when it happened, the socket.io room it went to, and the
    socket left out ([socket.to(..)] skips the sender). *)
Record Emission := mkEmission {
  em_time : Z;
  em_room : string;
  em_except : option string;
  em_event : Event
}.

(** *** Timers *)

(** The closures handed to [setTimeout] and [setInterval], with the
    variables they capture; [room] is a reference to the room object. *)
Inductive Callback :=
| CbLobby (roomCode : string)
| CbTick (roomCode : string) (room : nat)
| CbRoundEnd (roomCode : string) (room : nat) (next : Mode) (duration : Z)
| CbRoundStart (roomCode : string) (mode : Mode) (duration : Z)
| CbGameEnd (roomCode : string) (room : nat) (gameLoop : nat).

Record Timer := mkTimer {
  t_id : nat;
  t_due : Z;
  t_period : option Z;   (* set for an interval *)
  t_cb : Callback
}.

(** *** The process state *)

(** [heap] holds every [GameRoom] object by reference: the directory maps a
    code to a reference, and the timer closures keep theirs after the code
    has left the directory. *)
Record Server := mkServer {
  heap : list GameRoom;
  rooms : list (string * nat);
  playerRooms : gmap string string;
  timers : list Timer;
  nextTimerId : nat;
  clock : Z;
  rng : Rand;
  outbox : list Emission;
  crashed : bool
}.

Definition initialServer (r : Rand) : Server :=
  mkServer [] [] ∅ [] 0 0 r [] false.

Definition set_heap (h : list GameRoom) (s : Server) : Server :=
  mkServer h (rooms s) (playerRooms s) (timers s) (nextTimerId s) (clock s)
    (rng s) (outbox s) (crashed s).
Definition set_rooms (m : list (string * nat)) (s : Server) : Server :=
  mkServer (heap s) m (playerRooms s) (timers s) (nextTimerId s) (clock s)
    (rng s) (outbox s) (crashed s).
Definition set_playerRooms (m : gmap string string) (s : Server) : Server :=
  mkServer (heap s) (rooms s) m (timers s) (nextTimerId s) (clock s)
    (rng s) (outbox s) (crashed s).
Definition set_timers (ts : list Timer) (s : Server) : Server :=
  mkServer (heap s) (rooms s) (playerRooms s) ts (nextTimerId s) (clock s)
    (rng s) (outbox s) (crashed s).
Definition set_clock (t : Z) (s : Server) : Server :=
  mkServer (heap s) (rooms s) (playerRooms s) (timers s) (nextTimerId s) t
    (rng s) (outbox s) (crashed s).
Definition set_rng (r : Rand) (s : Server) : Server :=
  mkServer (heap s) (rooms s) (playerRooms s) (timers s) (nextTimerId s)
    (clock s) r (outbox s) (crashed s).

(** An uncaught exception in a timer callback ends the process. *)
Definition crash (s : Server) : Server :=
  mkServer (heap s) (rooms s) (playerRooms s) (timers s) (nextTimerId s)
    (clock s) (rng s) (outbox s) true.

Definition emit (room : string) (except : option string) (e : Event)
    (s : Server) : Server :=
  mkServer (heap s) (rooms s) (playerRooms s) (timers s) (nextTimerId s)
    (clock s) (rng s) (outbox s ++ [mkEmission (clock s) room except e])
    (crashed s).

Definition addTimer (period : option Z) (cb : Callback) (delay : Z)
    (s : Server) : nat * Server :=
  (nextTimerId s,
   mkServer (heap s) (rooms s) (playerRooms s)
     (timers s ++ [mkTimer (nextTimerId s) (clock s + delay) period cb])
     (S (nextTimerId s)) (clock s) (rng s) (outbox s) (crashed s)).

Definition setTimeout (cb : Callback) (delay : Z) (s : Server) : nat * Server :=
  addTimer None cb delay s.

Definition setInterval (cb : Callback) (delay : Z) (s : Server) : nat * Server :=
  addTimer (Some delay) cb delay s.

Definition clearInterval (id : nat) (s : Server) : Server :=
  set_timers (filter (fun t => t_id t ≠ id) (timers s)) s.

(** [1000 / 30]: timer delays are whole milliseconds. *)
Definition tickPeriod : Z := 1000 / 30.

(** The [for (const [code, room] of rooms.entries())] scan. *)
Fixpoint firstAvailable (hp : list GameRoom) (rs : list (string * nat))
    : option string :=
  match rs with
  | [] => None
  | (code, ref) :: rs' =>
      match hp !! ref with
      | Some room =>
          if (playerCount room <? 16) && negb (isPrivate room)
             && negb (gameStarted room)
          then Some code else firstAvailable hp rs'
      | None => firstAvailable hp rs'
      end
  end.

Definition findAvailableRoom (s : Server) : string * Server :=
  match firstAvailable (heap s) (rooms s) with
  | Some code => (code, s)
  | None =>
      let '(code, r') := generateRoomCode (rng s) in
      let ref := length (heap s) in
      (code,
       set_rng r'
         (set_rooms (JsMap.set code ref (rooms s))
            (set_heap (heap s ++ [newGameRoom code false]) s)))
  end.

(** *** [startGame(roomCode)] and the timer callbacks *)

Definition startGame (roomCode : string) (s : Server) : Server :=
  match JsMap.get roomCode (rooms s) with
  | None => s
  | Some ref =>
      match heap s !! ref with
      | None => s
      | Some room =>
          if gameStarted room then s
          else
            let '(room', r') := room_startGame room (rng s) in
            let s1 := set_rng r' (set_heap (<[ref := room']> (heap s)) s) in
            let s2 := emit roomCode None (EvRoundStart race 120) s1 in
            let '(gameLoop, s3) :=
              setInterval (CbTick roomCode ref) tickPeriod s2 in
            let s4 :=
              (setTimeout (CbRoundEnd roomCode ref build 180) 120000 s3).2 in
            let s5 :=
              (setTimeout (CbRoundEnd roomCode ref battle 150) 303000 s4).2 in
            (setTimeout (CbGameEnd roomCode ref gameLoop) 456000 s5).2
      end
  end.

(** [room.gameState] through the captured reference. *)
Definition roomState (ref : nat) (s : Server) : option GameState :=
  match heap s !! ref with
  | Some room => gameState room
  | None => None
  end.

(** A callback whose timer has the id [self].  Reading a method of a null
    [gameState] throws. *)
Definition runCallback (self : nat) (cb : Callback) (s : Server) : Server :=
  match cb with
  | CbLobby roomCode => startGame roomCode s
  | CbTick roomCode ref =>
      if negb (JsMap.has roomCode (rooms s)) then clearInterval self s
      else
        match roomState ref s with
        | Some gs => emit roomCode None (EvGameStateUpdate (getState gs)) s
        | None => crash s
        end
  | CbRoundEnd roomCode ref next duration =>
      match roomState ref s with
      | Some gs =>
          (setTimeout (CbRoundStart roomCode next duration) 3000
             (emit roomCode None (EvRoundEnd (getScores gs)) s)).2
      | None => crash s
      end
  | CbRoundStart roomCode mode duration =>
      emit roomCode None (EvRoundStart mode duration) s
  | CbGameEnd roomCode ref gameLoop =>
      match heap s !! ref with
      | Some room =>
          match gameState room with
          | Some gs =>
              let s1 := emit roomCode None (EvGameEnd (getFinalScores gs)) s in
              let s2 := clearInterval gameLoop s1 in
              set_heap (<[ref := endGame room]> (heap s2)) s2
          | None => crash s
          end
      | None => crash s
      end
  end.

(** *** The timer queue *)

(** The pending timer that is due first; among equals, the oldest. *)
Fixpoint earliest (ts : list Timer) : option Timer :=
  match ts with
  | [] => None
  | t :: ts' =>
      match earliest ts' with
      | Some t' => if t_due t' <? t_due t then Some t' else Some t
      | None => Some t
      end
  end.

(** A timeout leaves the queue when it fires; an interval is due again one
    period after it fired. *)
Definition rearm (fired : Timer) (at_time : Z) (ts : list Timer) : list Timer :=
  match t_period fired with
  | Some period =>
      map (fun t =>
             if decide (t_id t = t_id fired)
             then mkTimer (t_id t) (at_time + period) (t_period t) (t_cb t)
             else t) ts
  | None => filter (fun t => t_id t ≠ t_id fired) ts
  end.

(** One turn of the event loop with no inbound event: the clock moves to the
    next pending timer and its callback runs. *)
Definition step (s : Server) : option Server :=
  if crashed s then None
  else
    match earliest (timers s) with
    | None => None
    | Some t =>
        let at_time := Z.max (clock s) (t_due t) in
        Some (runCallback (t_id t) (t_cb t)
                (set_timers (rearm t at_time (timers s)) (set_clock at_time s)))
    end.

Fixpoint run (n : nat) (s : Server) : Server :=
  match n with
  | O => s
  | S n' => match step s with Some s' => run n' s' | None => s end
  end.

(** *** Socket handlers *)

Inductive Ack :=
| AckJoined (roomCode playerId : string) (players : list Player)
| AckCreated (roomCode playerId : string)
| AckError (message : string).

(** The common tail of [quickMatch] and [joinRoom], from [room.addPlayer]
    on; [roomCode] is the code as the handler holds it. *)
Definition enterRoom (socketId roomCode username : string) (ref : nat)
    (room : GameRoom) (s : Server) : Ack * Server :=
  match addPlayer socketId username room (rng s) with
  | inl message => (AckError message, s)
  | inr (player, room', r') =>
      let s1 := set_rng r' (set_heap (<[ref := room']> (heap s)) s) in
      let s2 := set_playerRooms (<[socketId := roomCode]> (playerRooms s1)) s1 in
      let s3 := emit roomCode (Some socketId) (EvPlayerJoined player) s2 in
      let s4 :=
        if (2 <=? playerCount room') && negb (gameStarted room')
        then (setTimeout (CbLobby roomCode) 3000 s3).2 else s3 in
      (AckJoined roomCode socketId (getPlayers room'), s4)
  end.

Definition NoRoom : string := "Room not found".
Definition AlreadyStarted : string := "Game already started".
Definition NullRoom : string :=
  "Cannot read properties of undefined (reading 'addPlayer')".

Definition quickMatch (socketId username : string) (s : Server)
    : Ack * Server :=
  let '(roomCode, s1) := findAvailableRoom s in
  match JsMap.get roomCode (rooms s1) with
  | Some ref =>
      match heap s1 !! ref with
      | Some room => enterRoom socketId roomCode username ref room s1
      | None => (AckError NullRoom, s1)
      end
  | None => (AckError NullRoom, s1)
  end.

Definition createRoom (socketId username : string) (s : Server)
    : Ack * Server :=
  let '(roomCode, r1) := generateRoomCode (rng s) in
  let room := newGameRoom roomCode true in
  match addPlayer socketId username room r1 with
  | inl message => (AckError message, set_rng r1 s)
  | inr (player, room', r2) =>
      let ref := length (heap s) in
      let s1 := set_rng r2 (set_heap (heap s ++ [room']) s) in
      let s2 := set_rooms (JsMap.set roomCode ref (rooms s1)) s1 in
      let s3 := set_playerRooms (<[socketId := roomCode]> (playerRooms s2)) s2 in
      (AckCreated roomCode socketId, s3)
  end.

Definition joinRoom (socketId roomCode username : string) (s : Server)
    : Ack * Server :=
  match JsMap.get (toUpperCase roomCode) (rooms s) with
  | None => (AckError NoRoom, s)
  | Some ref =>
      match heap s !! ref with
      | None => (AckError NullRoom, s)
      | Some room =>
          if 16 <=? playerCount room then (AckError RoomFull, s)
          else if gameStarted room then (AckError AlreadyStarted, s)
          else enterRoom socketId roomCode username ref room s
      end
  end.

(** [if (roomCode)]: a code that is set and not empty. *)
Definition roomOf (socketId : string) (s : Server) : option string :=
  match playerRooms s !! socketId with
  | Some roomCode => if decide (roomCode = "") then None else Some roomCode
  | None => None
  end.

(** [if (room && room.gameState)] *)
Definition liveGame (roomCode : string) (s : Server)
    : option (nat * GameRoom * GameState) :=
  match JsMap.get roomCode (rooms s) with
  | Some ref =>
      match heap s !! ref with
      | Some room =>
          match gameState room with
          | Some gs => Some (ref, room, gs)
          | None => None
          end
      | None => None
      end
  | None => None
  end.

Definition with_gameState (gs : GameState) (room : GameRoom) : GameRoom :=
  mkGameRoom (code room) (isPrivate room) (roster room) (Some gs)
    (gameStarted room) (currentRound room) (maxPlayers room).

Definition playerInput (socketId : string) (input : Input) (s : Server)
    : Server :=
  match roomOf socketId s with
  | Some roomCode =>
      match liveGame roomCode s with
      | Some (ref, room, gs) =>
          set_heap
            (<[ref := with_gameState (updatePlayerInput socketId input gs) room]>
               (heap s)) s
      | None => s
      end
  | None => s
  end.

Definition actionName (a : Action) : string :=
  match a with
  | ActCollectCoin _ => "collectCoin"
  | ActPlaceBlock _ _ _ => "placeBlock"
  | ActShoot _ _ _ => "shoot"
  | ActUseBoost => "useBoost"
  | ActOther name => name
  end.

Definition playerAction (socketId : string) (action : Action) (s : Server)
    : Server :=
  match roomOf socketId s with
  | Some roomCode =>
      match liveGame roomCode s with
      | Some (ref, room, gs) =>
          let '(result, gs') := handleAction (clock s) socketId action gs in
          let s1 := set_heap (<[ref := with_gameState gs' room]> (heap s)) s in
          match result with
          | Some res =>
              emit roomCode None
                (EvActionResult (actionName action +:+ "Result") res) s1
          | None => s1
          end
      | None => s
      end
  | None => s
  end.

Definition disconnect (socketId : string) (s : Server) : Server :=
  match roomOf socketId s with
  | Some roomCode =>
      let s' :=
        match JsMap.get roomCode (rooms s) with
        | Some ref =>
            match heap s !! ref with
            | Some room =>
                let room' := room_removePlayer socketId room in
                let s1 := set_heap (<[ref := room']> (heap s)) s in
                let s2 := emit roomCode (Some socketId) (EvPlayerLeft socketId) s1 in
                if playerCount room' =? 0
                then set_rooms (JsMap.delete roomCode (rooms s2)) s2 else s2
            | None => s
            end
        | None => s
        end in
      set_playerRooms (delete socketId (playerRooms s')) s'
  | None => s
  end.

(** What the process can be handed between two timer turns. *)
Inductive Inbound :=
| InQuickMatch (socketId username : string)
| InCreateRoom (socketId username : string)
| InJoinRoom (socketId roomCode username : string)
| InPlayerInput (socketId : string) (input : Input)
| InPlayerAction (socketId : string) (action : Action)
| InDisconnect (socketId : string).

Definition handle (i : Inbound) (s : Server) : Server :=
  match i with
  | InQuickMatch socketId username => (quickMatch socketId username s).2
  | InCreateRoom socketId username => (createRoom socketId username s).2
  | InJoinRoom socketId roomCode username =>
      (joinRoom socketId roomCode username s).2
  | InPlayerInput socketId input => playerInput socketId input s
  | InPlayerAction socketId action => playerAction socketId action s
  | InDisconnect socketId => disconnect socketId s
  end.

(** A process that has died handles nothing. *)
Definition deliver (i : Inbound) (s : Server) : Server :=
  if crashed s then s else handle i s.

(** *** Reachable process states *)

(** Wall-clock time passing with nothing to run. *)
Definition elapse (t : Z) (s : Server) : Server :=
  set_clock (Z.max (clock s) t) s.

Inductive reachable : Server -> Prop :=
| reach_boot r : reachable (initialServer r)
| reach_deliver s i : reachable s -> reachable (deliver i s)
| reach_elapse s t : reachable s -> reachable (elapse t s)
| reach_step s s' : reachable s -> step s = Some s' -> reachable s'.

(** A series of [addPlayer] calls on one room; a call that throws leaves the
    room as it was. *)
Fixpoint joinAll (joins : list (string * string)) (room : GameRoom) (r : Rand)
    : GameRoom * Rand :=
  match joins with
  | [] => (room, r)
  | (id, username) :: rest =>
      match addPlayer id username room r with
      | inl _ => joinAll rest room r
      | inr (_, room', r') => joinAll rest room' r'
      end
  end.

(** ** Vocabulary of the statements *)

(** The [gameStateUpdate] emissions sent to one socket.io room. *)
Definition isUpdateFor (roomCode : string) (e : Emission) : bool :=
  match em_event e with
  | EvGameStateUpdate _ => bool_decide (em_room e = roomCode)
  | _ => false
  end.

Definition updatesFor (roomCode : string) (log : list Emission)
    : list Emission :=
  List.filter (isUpdateFor roomCode) log.

Definition isUpdate (e : Emission) : bool :=
  match em_event e with EvGameStateUpdate _ => true | _ => false end.

(** Everything but the state broadcasts: the round and roster events. *)
Definition milestones (log : list Emission) : list Emission :=
  List.filter (fun e => negb (isUpdate e)) log.

(** The coins a player standing at [(x, y)] picks up. *)
Definition reaches (x y : Q) (c : Coin) : bool :=
  negb (c_collected c) && within30 x y (c_x c) (c_y c).

(** [this.teamScores[t]] *)
Definition teamScore (t : Team) (ts : TeamScores) : Z :=
  match t with red => ts_red ts | blue => ts_blue ts end.

Definition opposite (t : Team) : Team :=
  match t with red => blue | blue => red end.

(** [n] points more for team [t]. *)
Definition creditBy (t : Team) (n : Z) (ts : TeamScores) : TeamScores :=
  match t with
  | red => mkTeamScores (ts_red ts + n) (ts_blue ts)
  | blue => mkTeamScores (ts_red ts) (ts_blue ts + n)
  end.

(** A roster entry after a projectile has passed: a target loses the damage,
    down to zero at most. *)
Definition damagedBy (proj : Projectile) (kp : string * Player)
    : string * Player :=
  (kp.1,
   if isTarget proj kp.2
   then set_health (Z.max 0 (pl_health kp.2 - pr_damage proj)) kp.2
   else kp.2).

(** A hit that leaves its target with no health. *)
Definition lethal (proj : Projectile) (kp : string * Player) : bool :=
  isTarget proj kp.2 && (pl_health kp.2 - pr_damage proj <=? 0).

(** A roster entry after a series of projectiles has passed, one after the
    other. *)
Definition afterAll (projs : list Projectile) (kp : string * Player)
    : string * Player :=
  foldl (fun kp proj => damagedBy proj kp) kp projs.

(** A projectile that is kept: nobody in range, and inside the field. *)
Definition stays (ps : list (string * Player)) (proj : Projectile) : bool :=
  negb (existsb (fun kp => isTarget proj kp.2) ps) && inBounds proj.

(** The team scores after a series of projectiles: each credits its team
    with 10 for every hit that leaves its target with no health. *)
Fixpoint credited (projs : list Projectile) (ps : list (string * Player))
    (ts : TeamScores) : TeamScores :=
  match projs with
  | [] => ts
  | proj :: rest =>
      credited rest (map (damagedBy proj) ps)
        (creditBy (pr_team proj)
           (10 * Z.of_nat (length (List.filter (lethal proj) ps))) ts)
  end.

(** A player of the team opposing [t] who had health left and has none once
    the projectiles have passed. *)
Definition eliminated (t : Team) (projs : list Projectile)
    (kp : string * Player) : bool :=
  bool_decide (pl_team kp.2 = opposite t)
  && (0 <? pl_health kp.2)
  && (pl_health (afterAll projs kp).2 =? 0).

(** No projectile of the series reaches a player who has no health left
    when it comes by. *)
Definition hitsStanding (projs : list Projectile)
    (ps : list (string * Player)) : Prop :=
  forall pre proj post kp,
    projs = pre ++ proj :: post -> kp ∈ ps -> isTarget proj kp.2 = true ->
    0 < pl_health (afterAll pre kp).2.

(** The state a room is kept in: the capacity it was built with, and no
    more players than that. *)
Definition withinCapacity (room : GameRoom) : Prop :=
  maxPlayers room = 16 /\ playerCount room <= 16.

Definition roomsWithinCapacity (s : Server) : Prop :=
  Forall withinCapacity (heap s).

(** Teams level, red ahead by one at most. *)
Definition balanced (room : GameRoom) : Prop :=
  0 <= countTeam red (roster room) - countTeam blue (roster room) <= 1.

(** The alphabet of room codes: [A-Z] and [0-9]. *)
Definition isCodeChar (c : Ascii.ascii) : bool :=
  let n := Ascii.nat_of_ascii c in
  ((65 <=? n)%nat && (n <=? 90)%nat) || ((48 <=? n)%nat && (n <=? 57)%nat).

Fixpoint allCodeChars (s : string) : bool :=
  match s with
  | EmptyString => true
  | String c s' => isCodeChar c && allCodeChars s'
  end.

(** Every simulation state in the process is in race mode. *)
Definition allInRace (s : Server) : Prop :=
  Forall (fun room =>
            match gameState room with
            | Some gs => currentMode gs = race
            | None => True
            end) (heap s).

(** What the process goes through while a room code stays out of the
    directory: timer turns, and inbound events that do not hand the code out
    again. *)
Inductive absentRun (c : string) : Server -> Server -> Prop :=
| absent_here s : absentRun c s s
| absent_step s s1 s2 :
    step s = Some s1 -> absentRun c s1 s2 -> absentRun c s s2
| absent_deliver s i s2 :
    JsMap.has c (rooms (deliver i s)) = false ->
    absentRun c (deliver i s) s2 -> absentRun c s s2.

(** The broadcast interval of a room as it sits in the queue, and what one
    of its ticks sends. *)
Definition tickTimer (roomCode : string) (ref : nat) (g : nat) (d : Z) : Timer :=
  mkTimer g d (Some tickPeriod) (CbTick roomCode ref).

Definition updateOf (roomCode : string) (gs : GameState) (t : Z) : Emission :=
  mkEmission t roomCode None (EvGameStateUpdate (getState gs)).

(** A pending lobby timeout that will find its room gone or already
    started, given the room objects [hp] and the directory [rm]: its
    [startGame] returns at once. *)
Definition inertLobby (hp : list GameRoom) (rm : list (string * nat))
    (t : Timer) : Prop :=
  t_period t = None
  /\ exists c, t_cb t = CbLobby c
       /\ forall r room,
            JsMap.get c rm = Some r -> hp !! r = Some room ->
            gameStarted room = true.

(** A stretch of the queue made of such timeouts only, with distinct ids
    below [g]. *)
Definition quietQueue (hp : list GameRoom) (rm : list (string * nat))
    (g : nat) (ts : list Timer) : Prop :=
  Forall (inertLobby hp rm) ts
  /\ NoDup (t_id <$> ts)
  /\ Forall (fun t => (t_id t < g)%nat) ts.

(** The queue a room may find when its game starts: lobby timeouts left by
    further joins into it, or by joins into rooms that have started or gone
    since, and nothing else. *)
Definition onlyLobbies (roomCode : string) (s : Server) : Prop :=
  Forall (fun t =>
            t_period t = None
            /\ exists c, t_cb t = CbLobby c
                 /\ (c = roomCode
                     \/ forall r room,
                          JsMap.get c (rooms s) = Some r ->
                          heap s !! r = Some room ->
                          gameStarted room = true))
         (timers s)
  /\ NoDup (t_id <$> timers s)
  /\ Forall (fun t => (t_id t < nextTimerId s)%nat) (timers s).

(** The timers that are due after the instant [m]. *)
Definition dueAfter (m : Z) (ts : list Timer) : list Timer :=
  filter (fun t => m < t_due t) ts.

(** *** The event loop and the timers of a game *)

(** No pending timer is overdue. *)
Definition punctual (s : Server) : Prop :=
  Forall (fun t => clock s <= t_due t) (timers s).

(** What the process goes through while timers run when they are due:
    timer turns, and inbound events that arrive no later than the next
    timer is due. *)
Inductive timelyRun : Server -> Server -> Prop :=
| timely_here s : timelyRun s s
| timely_step s s1 s2 :
    step s = Some s1 -> timelyRun s1 s2 -> timelyRun s s2
| timely_deliver s t i s2 :
    Forall (fun tm => t <= t_due tm) (timers s) ->
    timelyRun (deliver i (elapse t s)) s2 -> timelyRun s s2.

(** An event sent to a room at a given instant. *)
Definition sentAt (t : Z) (roomCode : string) (e : Event) (s : Server) : Prop :=
  mkEmission t roomCode None e ∈ outbox s.

(** The room object a timer's closure holds. *)
Definition timerRef (t : Timer) : option nat :=
  match t_cb t with
  | CbTick _ r | CbRoundEnd _ r _ _ | CbGameEnd _ r _ => Some r
  | CbLobby _ | CbRoundStart _ _ _ => None
  end.

(** A room whose game is on. *)
Definition running (room : GameRoom) : Prop :=
  gameStarted room = true /\ gameState room ≠ None.

(** Intervals are broadcast loops, everything else is a timeout. *)
Definition wellTimed (t : Timer) : Prop :=
  t_period t = match t_cb t with CbTick _ _ => Some tickPeriod | _ => None end.

(** The timers of one game: the end of the game [e] comes after the ends
    of its rounds and holds the id of its broadcast loop. *)
Definition governs (e t : Timer) : Prop :=
  exists c r g,
    t_cb e = CbGameEnd c r g /\ timerRef t = Some r
    /\ (t = e
        \/ (exists c' m d, t_cb t = CbRoundEnd c' r m d /\ t_due t < t_due e)
        \/ (exists c', t_cb t = CbTick c' r /\ t_id t = g)).

(** The shape the timer queue keeps. *)
Record orderly (s : Server) : Prop := mkOrderly {
  ord_alive : crashed s = false;
  ord_ids : NoDup (t_id <$> timers s);
  ord_next : Forall (fun t => (t_id t < nextTimerId s)%nat) (timers s);
  ord_timed : Forall wellTimed (timers s);
  ord_running : forall t r,
    t ∈ timers s -> timerRef t = Some r ->
    exists room, heap s !! r = Some room /\ running room;
  ord_governed : forall t r,
    t ∈ timers s -> timerRef t = Some r ->
    exists e, e ∈ timers s /\ governs e t;
  ord_one_end : forall e1 e2 c1 c2 r g1 g2,
    e1 ∈ timers s -> e2 ∈ timers s ->
    t_cb e1 = CbGameEnd c1 r g1 -> t_cb e2 = CbGameEnd c2 r g2 -> e1 = e2;
  ord_loop : forall e c r g,
    e ∈ timers s -> t_cb e = CbGameEnd c r g ->
    (g < nextTimerId s)%nat
    /\ forall t, t ∈ timers s -> t_id t = g -> exists c', t_cb t = CbTick c' r
}.

(** A timer of the new queue that was in the old one, but for the due time
    of a broadcast loop. *)
Definition carried (old : list Timer) (x : Timer) : Prop :=
  exists x0, x0 ∈ old /\ t_id x = t_id x0 /\ t_cb x = t_cb x0
             /\ t_period x = t_period x0
             /\ (t_due x = t_due x0 \/ exists c r, t_cb x0 = CbTick c r).

(** The four timers [startGame] sets. *)
Definition gameTimers (roomCode : string) (ref : nat) (g : nat) (t0 : Z)
    : list Timer :=
  [tickTimer roomCode ref g (t0 + tickPeriod);
   mkTimer (S g) (t0 + 120000) None (CbRoundEnd roomCode ref build 180);
   mkTimer (S (S g)) (t0 + 303000) None (CbRoundEnd roomCode ref battle 150);
   mkTimer (S (S (S g))) (t0 + 456000) None (CbGameEnd roomCode ref g)].

(** What a socket handler may do to the process: send events, leave a
    lobby timeout, and change rooms without starting or ending a game. *)
Record extends (s s' : Server) : Prop := mkExtends {
  ext_crashed : crashed s' = crashed s;
  ext_clock : clock s' = clock s;
  ext_outbox : exists more, outbox s' = outbox s ++ more;
  ext_timers : exists added,
    timers s' = timers s ++ added
    /\ t_id <$> added = seq (nextTimerId s) (length added)
    /\ nextTimerId s' = (nextTimerId s + length added)%nat
    /\ Forall (fun t => exists c, t = mkTimer (t_id t) (clock s + 3000) None
                                        (CbLobby c)) added;
  ext_heap : forall r room,
    heap s !! r = Some room ->
    exists room', heap s' !! r = Some room'
                  /\ gameStarted room' = gameStarted room
                  /\ (gameState room' = None <-> gameState room = None)
}.

(** The end of a round of the game of room object [r], set for [due]: the
    timeout is pending, or it has fired at [due] and the timeout it set for
    the next round is pending or has fired in its turn, three seconds
    later. *)
Definition nextRound (c : string) (r id : nat) (due : Z) (m : Mode) (d : Z)
    (s : Server) : Prop :=
  mkTimer id due None (CbRoundEnd c r m d) ∈ timers s
  \/ ((exists scores, sentAt due c (EvRoundEnd scores) s)
      /\ ((exists id', mkTimer id' (due + 3000) None (CbRoundStart c m d)
                       ∈ timers s)
          \/ sentAt (due + 3000) c (EvRoundStart m d) s)).

(** A game started at [t0] with the timers [g .. g + 3] is on course. *)
Record onCourse (c : string) (r g : nat) (t0 : Z) (s : Server) : Prop :=
  mkOnCourse {
    oc_start : sentAt t0 c (EvRoundStart race 120) s;
    oc_build : nextRound c r (S g) (t0 + 120000) build 180 s;
    oc_battle : nextRound c r (S (S g)) (t0 + 303000) battle 150 s;
    oc_end :
      mkTimer (S (S (S g))) (t0 + 456000) None (CbGameEnd c r g) ∈ timers s
      \/ (t0 + 456000 <= clock s
          /\ exists final, sentAt (t0 + 456000) c (EvGameEnd final) s)
  }.

(** What is left to do up to the instant [T]: every turn of the event loop
    up to [T] takes from it. *)
Definition cost (T : Z) (t : Timer) : Z :=
  if T <? t_due t then 0
  else match t_cb t with
       | CbLobby _ => 8 + (T - t_due t) / tickPeriod
       | CbTick _ _ => 1 + (T - t_due t) / tickPeriod
       | CbRoundEnd _ _ _ _ => 2
       | CbRoundStart _ _ _ => 1
       | CbGameEnd _ _ _ => 1
       end.

(** The backlog of a timer queue. *)
Fixpoint backlog (T : Z) (ts : list Timer) : Z :=
  match ts with
  | [] => 0
  | t :: ts' => cost T t + backlog T ts'
  end.

(** ** Sample states *)

(** A generator that keeps returning 0. *)
Definition zeroDraws : Rand := mkRand (fun _ => 0%Q) 0.

(** A player named after the id, with no score yet. *)
Definition demoPlayer (id : string) (t : Team) (x y : Q) (health : Z) : Player :=
  mkPlayer id id t 0 x y None None health [].

Definition demoCoins : list Coin :=
  [mkCoin 0 (10 # 1) (10 # 1) false; mkCoin 1 (20 # 1) (10 # 1) false;
   mkCoin 2 (500 # 1) (500 # 1) false].

Definition demoRace : GameState :=
  mkGameState [("a", demoPlayer "a" red (300 # 1) (300 # 1) 100)] race
    (mkTeamScores 0 0) demoCoins [] [].

Definition demoBuild : GameState :=
  mkGameState [("a", demoPlayer "a" red (300 # 1) (300 # 1) 100)] build
    (mkTeamScores 0 0) demoCoins [] [].

(** One coin on the x axis, 30 away from the origin. *)
Definition demoEdge : GameState :=
  mkGameState [("a", demoPlayer "a" red (300 # 1) (300 # 1) 100)] race
    (mkTeamScores 0 0) [mkCoin 0 (30 # 1) 0 false] [] [].

(** A red projectile about to pass two blue players. *)
Definition demoBattle : GameState :=
  mkGameState
    [("r1", demoPlayer "r1" red (100 # 1) (100 # 1) 100);
     ("b1", demoPlayer "b1" blue (110 # 1) (100 # 1) 100);
     ("b2", demoPlayer "b2" blue (110 # 1) (105 # 1) 100)]
    battle (mkTeamScores 0 0) demoCoins []
    [mkProjectile 1 "r1" red (100 # 1) (100 # 1) 0 (10 # 1) 25].

(** A red projectile about to pass a blue player on his last 25 points of
    health and another one at full health. *)
Definition demoLastStand : GameState :=
  mkGameState
    [("r1", demoPlayer "r1" red (100 # 1) (100 # 1) 100);
     ("b1", demoPlayer "b1" blue (110 # 1) (100 # 1) 25);
     ("b2", demoPlayer "b2" blue (110 # 1) (105 # 1) 100)]
    battle (mkTeamScores 0 0) demoCoins []
    [mkProjectile 1 "r1" red (100 # 1) (100 # 1) 0 (10 # 1) 25].

(** A blue player already at zero health within range of a red projectile. *)
Definition demoFallen : GameState :=
  mkGameState
    [("r1", demoPlayer "r1" red (100 # 1) (100 # 1) 100);
     ("b1", demoPlayer "b1" blue (110 # 1) (100 # 1) 0)]
    battle (mkTeamScores 10 0) demoCoins []
    [mkProjectile 2 "r1" red (100 # 1) (100 # 1) 0 (10 # 1) 25].

(** Sixteen joins under distinct ids. *)
Definition sixteen : list (string * string) :=
  map (fun n => (pretty (Z.of_nat n), "guest")) (seq 0 16).

(** Two players matched into a fresh public room, the lobby timeout
    pending; the same after the timeout has started the game; and after both
    players have gone. *)
Definition demoLobby : Server :=
  (quickMatch "b" "bob" (quickMatch "a" "ann" (initialServer zeroDraws)).2).2.

Definition demoStarted : Server := run 1 demoLobby.

Definition demoDeserted : Server :=
  disconnect "b" (disconnect "a" demoStarted).

(** The state in which the lobby timeout of [demoLobby] runs its callback:
    the clock is at its due time and it has left the queue. *)
Definition demoLobbyDue : Server :=
  set_timers [] (set_clock 3000 demoLobby).

(** Three players matched into one room within the lobby delay: the second
    and the third join each leave a lobby timeout. *)
Definition demoTrio : Server :=
  (quickMatch "c" "cat" demoLobby).2.

(** The state in which the first of the two lobby timeouts of [demoTrio]
    runs its callback: the clock is at its due time and it has left the
    queue. *)
Definition demoTrioDue : Server :=
  set_timers (drop 1 (timers demoTrio)) (set_clock 3000 demoTrio).

(** [demoTrio] once the first lobby timeout has started the game, a player
    has moved and another has left, all before the next timer is due. *)
Definition demoBusy : Server :=
  deliver (InDisconnect "c")
    (elapse 3000
       (deliver
          (InPlayerInput "a"
             (mkInput (Some (5 # 1)%Q) (Some (7 # 1)%Q) None None))
          (elapse 3000 (run 1 demoTrio)))).

(** ** Reduction and proof automation *)

Arguments generateRoomCode : simpl never.
Arguments generateCoins : simpl never.
Arguments newGameState : simpl never.
Arguments tickPeriod : simpl never.

(** Side conditions on a literal timer queue: due times and ids. *)
Ltac queue_ok :=
  repeat (apply Forall_cons; split; [cbn; lia|]); apply Forall_nil_2.

(** * Properties *)

(** ** Facts about ordered maps *)

Section JsMap_facts.
Context {K V : Type} `{EqDecision K}.
Implicit Types (k : K) (v : V) (m : list (K * V)).

Lemma get_set_eq k v m : JsMap.get k (JsMap.set k v m) = Some v.
Proof.
  induction m as [|[k' v'] m IH]; simpl.
  - by rewrite decide_True.
  - destruct (decide (k = k')) as [->|Hne]; simpl.
    + by rewrite decide_True.
    + by rewrite decide_False.
Qed.

Lemma get_set_ne k k' v m :
  k ≠ k' -> JsMap.get k' (JsMap.set k v m) = JsMap.get k' m.
Proof.
  intros Hne. induction m as [|[k0 v0] m IH]; simpl.
  - rewrite decide_False; [done | congruence].
  - destruct (decide (k = k0)) as [->|Hk]; simpl.
    + rewrite !decide_False; [done | congruence | congruence].
    + destruct (decide (k' = k0)); [done | apply IH].
Qed.

Lemma get_delete_eq k m : JsMap.get k (JsMap.delete k m) = None.
Proof.
  induction m as [|[k' v'] m IH]; simpl; [done|].
  destruct (decide (k = k')) as [->|Hne]; simpl; [done|].
  by rewrite decide_False.
Qed.

Lemma get_delete_ne k k' m :
  k ≠ k' -> JsMap.get k' (JsMap.delete k m) = JsMap.get k' m.
Proof.
  intros Hne. induction m as [|[k0 v0] m IH]; simpl; [done|].
  destruct (decide (k = k0)) as [->|Hk]; simpl.
  - rewrite decide_False; [done | congruence].
  - destruct (decide (k' = k0)); [done | apply IH].
Qed.

Lemma get_None_notin k m : JsMap.get k m = None -> k ∉ JsMap.keys m.
Proof.
  unfold JsMap.keys. induction m as [|[k' v'] m IH]; simpl.
  - intros _. apply not_elem_of_nil.
  - destruct (decide (k = k')) as [->|Hne]; [done|].
    intros Hg. apply not_elem_of_cons. split; [done | by apply IH].
Qed.

Lemma notin_get_None k m : k ∉ JsMap.keys m -> JsMap.get k m = None.
Proof.
  unfold JsMap.keys. induction m as [|[k' v'] m IH]; simpl; [done|].
  intros [Hne Hin]%not_elem_of_cons.
  rewrite decide_False; [by apply IH | done].
Qed.

(** A fresh key goes to the end; a present key is overwritten in place. *)
Lemma set_fresh k v m :
  JsMap.get k m = None -> JsMap.set k v m = m ++ [(k, v)].
Proof.
  induction m as [|[k' v'] m IH]; simpl; [done|].
  destruct (decide (k = k')); [done|]. intros Hg. by rewrite IH.
Qed.

Lemma length_set_present k v v0 m :
  JsMap.get k m = Some v0 -> length (JsMap.set k v m) = length m.
Proof.
  induction m as [|[k' v'] m IH]; simpl; [done|].
  destruct (decide (k = k')); simpl; [done|].
  intros Hg. by rewrite IH.
Qed.

Lemma length_set_le k v m : (length (JsMap.set k v m) <= S (length m))%nat.
Proof.
  induction m as [|[k' v'] m IH]; simpl; [lia|].
  destruct (decide (k = k')); simpl; lia.
Qed.

Lemma length_delete_le k m : (length (JsMap.delete k m) <= length m)%nat.
Proof.
  induction m as [|[k' v'] m IH]; simpl; [lia|].
  destruct (decide (k = k')); simpl; lia.
Qed.

Lemma get_forEach (f : V -> V) k m :
  JsMap.get k (JsMap.forEach f m) = f <$> JsMap.get k m.
Proof.
  unfold JsMap.forEach. induction m as [|[k' v'] m IH]; simpl; [done|].
  destruct (decide (k = k')); [done | apply IH].
Qed.

Lemma has_false_get k m : JsMap.has k m = false <-> JsMap.get k m = None.
Proof. unfold JsMap.has. destruct (JsMap.get k m); split; congruence. Qed.

End JsMap_facts.

(** ** Coins *)

Lemma coinAt_Some_nonneg i c cs : coinAt i cs = Some c -> 0 <= i.
Proof. unfold coinAt. destruct (Z.leb_spec 0 i); [done | discriminate]. Qed.

Lemma coinAt_insert_eq i c c' cs :
  coinAt i cs = Some c -> coinAt i (<[Z.to_nat i := c']> cs) = Some c'.
Proof.
  unfold coinAt. destruct (Z.leb_spec 0 i); [|discriminate].
  intros Hc. apply list_lookup_insert_eq. by eapply lookup_lt_Some.
Qed.

Lemma coinAt_insert_ne i j c' cs :
  0 <= i -> i ≠ j -> coinAt j (<[Z.to_nat i := c']> cs) = coinAt j cs.
Proof.
  intros Hi Hne. unfold coinAt. destruct (Z.leb_spec 0 j); [|done].
  apply list_lookup_insert_ne. lia.
Qed.

(** C5 (amended). For a coin id that is a number: a [collectCoin] action on
    a coin that exists and is not collected marks that coin (and no other)
    collected, adds exactly 10 to the score of the acting player (and
    touches no other player) and returns the collection event with the new
    score; on an id that is not an index of the coin list, or on a coin
    already collected, it returns nothing and the state is unchanged.  In
    every case a second [collectCoin] with the same id returns nothing and
    changes nothing, so the reward is paid once. *)
Theorem collectCoin_idempotent now playerId player coinId gs :
  JsMap.get playerId (players gs) = Some player ->
  let res := handleAction now playerId (ActCollectCoin coinId) gs in
  match coinAt coinId (coins gs) with
  | Some coin =>
      if c_collected coin then res = (None, gs)
      else
        res.1 = Some (CoinCollected (pl_id player) coinId (pl_score player + 10))
        /\ coinAt coinId (coins res.2) = Some (set_collected coin)
        /\ (forall j, j ≠ coinId -> coinAt j (coins res.2) = coinAt j (coins gs))
        /\ JsMap.get playerId (players res.2) = Some (add_score 10 player)
        /\ (forall q, q ≠ playerId ->
              JsMap.get q (players res.2) = JsMap.get q (players gs))
        /\ currentMode res.2 = currentMode gs
        /\ teamScores res.2 = teamScores gs
        /\ blocks res.2 = blocks gs
        /\ projectiles res.2 = projectiles gs
  | None => res = (None, gs)
  end
  /\ handleAction now playerId (ActCollectCoin coinId) res.2 = (None, res.2).
Proof.
  intros Hp res. subst res. unfold handleAction. rewrite Hp.
  unfold collectCoin.
  destruct (coinAt coinId (coins gs)) as [coin|] eqn:Hc.
  - destruct (c_collected coin) eqn:Hcol; simpl.
    + split; [done|]. by rewrite Hp, Hc, Hcol.
    + pose proof (coinAt_Some_nonneg _ _ _ Hc) as Hnn.
      repeat split; try done.
      * by apply coinAt_insert_eq with coin.
      * intros j Hj. apply coinAt_insert_ne; [done | congruence].
      * apply get_set_eq.
      * intros q Hq. apply get_set_ne. congruence.
      * rewrite get_set_eq.
        by rewrite (coinAt_insert_eq _ _ _ _ Hc).
  - simpl. split; [done|]. by rewrite Hp, Hc.
Qed.

Lemma collectCoin_idempotent_witness :
  (handleAction 0 "a" (ActCollectCoin 1) demoRace).1
    = Some (CoinCollected "a" 1 10)
  /\ handleAction 0 "a" (ActCollectCoin 1)
       (handleAction 0 "a" (ActCollectCoin 1) demoRace).2
     = (None, (handleAction 0 "a" (ActCollectCoin 1) demoRace).2).
Proof.
  pose proof (collectCoin_idempotent 0 "a"
                (demoPlayer "a" red (300 # 1) (300 # 1) 100) 1 demoRace
                eq_refl) as H.
  simpl in H. destruct H as [(Hres & _) Htwice]. split; [exact Hres|exact Htwice].
Defined.

Lemma elementAt_index key i cs j c :
  elementAt key i cs = Some (j, c) ->
  key = pretty (Z.of_nat j) /\ (i <= j)%nat /\ cs !! (j - i)%nat = Some c.
Proof.
  revert i. induction cs as [|a cs IH]; intros i; cbn [elementAt]; [done|].
  destruct (decide (pretty (Z.of_nat i) = key)) as [<-|Hne].
  - intros [= <- <-]. rewrite Nat.sub_diag. done.
  - intros (-> & Hle & Hc)%IH. split; [done|]. split; [lia|].
    replace (j - i)%nat with (S (j - S i)) by lia. done.
Qed.

(** The id that is a string of digits names the coin the number names. *)
Lemma slotOf_coin key cs marked i c :
  slotOf key cs marked = SlotCoin i c ->
  key = pretty (Z.of_nat i) /\ coinAt (Z.of_nat i) cs = Some c.
Proof.
  unfold slotOf. destruct (elementAt key 0 cs) as [[j c']|] eqn:He.
  - intros [= <- <-]. apply elementAt_index in He as (-> & _ & Hc).
    split; [done|]. unfold coinAt.
    destruct (Z.leb_spec 0 (Z.of_nat j)); [|lia].
    by rewrite Nat2Z.id, Nat.sub_0_r in *.
  - by repeat case_decide.
Qed.

Lemma pretty_N_go_digit x s :
  (0 < x)%N -> startsNumeric (pretty_N_go x s) = true.
Proof.
  revert s. induction (N.lt_wf_0 x) as [x _ IH]; intros s Hx.
  rewrite pretty_N_go_step by done.
  destruct (decide (x `div` 10 = 0)%N) as [->|Hne].
  - rewrite pretty_N_go_0. unfold pretty_N_char. by repeat case_match.
  - apply IH; [by apply N.div_lt|by apply N.neq_0_lt_0].
Qed.

Lemma startsNumeric_pretty (i : Z) : startsNumeric (pretty i) = true.
Proof.
  destruct i as [|p|p]; [done| |done].
  unfold pretty, pretty_Z, pretty, pretty_positive, pretty, pretty_N.
  rewrite decide_False by done. by apply pretty_N_go_digit.
Qed.

Lemma elementAt_number (j i : nat) cs :
  (i <= j)%nat ->
  elementAt (pretty (Z.of_nat j)) i cs = (fun c => (j, c)) <$> cs !! (j - i)%nat.
Proof.
  revert i. induction cs as [|a cs IH]; intros i Hle; cbn [elementAt]; [done|].
  destruct (decide (pretty (Z.of_nat i) = pretty (Z.of_nat j))) as [He|Hne].
  - apply (inj pretty) in He. assert (i = j) as -> by lia.
    by rewrite Nat.sub_diag.
  - assert (i ≠ j) as Hij by (by intros ->).
    rewrite IH by lia. replace (j - i)%nat with (S (j - S i)) by lia. done.
Qed.

Lemma elementAt_other key i cs :
  (forall n : nat, pretty (Z.of_nat n) ≠ key) -> elementAt key i cs = None.
Proof.
  intros Hk. revert i. induction cs as [|a cs IH]; intros i; cbn [elementAt];
    [done|].
  rewrite decide_False by apply Hk. apply IH.
Qed.

Lemma members_not_numeric :
  Forall (fun m => startsNumeric m = false) ("length" :: "collected" :: members).
Proof. apply (bool_decide_unpack _). vm_compute. exact I. Qed.

(** What a number finds: the coin at that index, or nothing. *)
Lemma slotOf_number (i : Z) cs marked :
  slotOf (pretty i) cs marked
  = match coinAt i cs with
    | Some c => SlotCoin (Z.to_nat i) c
    | None => SlotUndefined
    end.
Proof.
  pose proof (startsNumeric_pretty i) as Hnum.
  pose proof members_not_numeric as Hm. rewrite Forall_forall in Hm.
  assert (forall m, m ∈ "length" :: "collected" :: members -> pretty i ≠ m)
    as Hne.
  { intros m Hin He. specialize (Hm m Hin). congruence. }
  unfold slotOf, coinAt. destruct (Z.leb_spec 0 i) as [Hi|Hi].
  - replace i with (Z.of_nat (Z.to_nat i)) at 1 by lia.
    rewrite elementAt_number by lia. rewrite Nat.sub_0_r.
    destruct (cs !! Z.to_nat i) as [c|]; cbn; [done|].
    replace (Z.of_nat (Z.to_nat i)) with i by lia.
    rewrite decide_False by (apply Hne; set_solver).
    rewrite decide_False.
    2: { intros Hin. apply (Hne (pretty i)); [|done].
         by do 2 apply list_elem_of_further. }
    rewrite decide_False; [done|].
    intros [He _]. apply (Hne "collected"); [set_solver|done].
  - rewrite elementAt_other.
    2: { intros n He. apply (inj pretty) in He. lia. }
    rewrite decide_False by (apply Hne; set_solver).
    rewrite decide_False.
    2: { intros Hin. apply (Hne (pretty i)); [|done].
         by do 2 apply list_elem_of_further. }
    rewrite decide_False; [done|].
    intros [He _]. apply (Hne "collected"); [set_solver|done].
Qed.

(** X9. A coin id that is an integer is looked up under its decimal
    spelling, which names the coin at that index and nothing else (no
    property an array has or inherits is spelt like a number): on integer
    ids the method with property keys does exactly what [collectCoin] does
    on indices, and never throws. *)
Theorem collectCoinKeyed_number key player (i : Z) gs marked :
  collectCoinKeyed key player (pretty i) gs marked
  = KeyedReturn ((collectCoin key player i gs).1 ≫= keyedEvent)
      (collectCoin key player i gs).2 marked.
Proof.
  unfold collectCoinKeyed, collectCoin. rewrite slotOf_number.
  destruct (coinAt i (coins gs)) as [c|]; [|done].
  by destruct (c_collected c).
Qed.

(** C5, as stated, fails: the id is not checked to be a number.  No coin
    goes by the name [push]; as a key of the coin list it finds the method
    every array inherits, which passes for a coin that is not collected:
    the player is paid 10 and a collection event is returned.  (The mark is
    left on the method, for the whole process; asked for the [length], the
    method throws.) *)
Lemma collectCoin_pays_for_inherited_key :
  let player := demoPlayer "a" red (300 # 1) (300 # 1) 100 in
  JsMap.get "a" (players demoRace) = Some player
  /\ length (coins demoRace) = 3%nat
  /\ slotOf "push" (coins demoRace) [] = SlotMember "push"
  /\ collectCoinKeyed "a" player "push" demoRace []
     = KeyedReturn (Some (mkKeyedEvent "a" "push" 10))
         (set_players (JsMap.set "a" (add_score 10 player)) demoRace)
         ["push"]
  /\ collectCoinKeyed "a" player "length" demoRace []
     = KeyedThrow "Cannot create property 'collected' on number".
Proof. vm_compute. repeat split. Qed.

(** ** Blocks *)

(** What [placeBlock] does for every cell and every block type: the block is
    appended and the score goes up by 5. *)
Lemma placeBlock_always_appends now playerId player x y type gs :
  JsMap.get playerId (players gs) = Some player ->
  handleAction now playerId (ActPlaceBlock x y type) gs
  = (Some (BlockPlaced (pl_id player) x y type),
     set_blocks (blocks gs ++ [mkBlock x y type (pl_id player)])
       (set_players (JsMap.set playerId (add_score 5 player)) gs)).
Proof. intros Hp. unfold handleAction. by rewrite Hp. Qed.

(** C2. The code at the failing input: a trap placed on the free cell (5,5)
    pays 5 (the claim says 10), and a wall placed afterwards on the same,
    now occupied, cell is accepted: both blocks are in the list and the
    score has been paid twice. *)
Theorem placeBlock_flat_reward_no_rejection :
  let first := handleAction 0 "a" (ActPlaceBlock (5 # 1) (5 # 1) "trap") demoBuild in
  let second := handleAction 0 "a" (ActPlaceBlock (5 # 1) (5 # 1) "wall") first.2 in
  blocks demoBuild = []
  /\ pl_score <$> JsMap.get "a" (players demoBuild) = Some 0
  /\ pl_score <$> JsMap.get "a" (players first.2) = Some 5
  /\ second.1 = Some (BlockPlaced "a" (5 # 1) (5 # 1) "wall")
  /\ blocks second.2
     = [mkBlock (5 # 1) (5 # 1) "trap" "a"; mkBlock (5 # 1) (5 # 1) "wall" "a"]
  /\ pl_score <$> JsMap.get "a" (players second.2) = Some 10.
Proof. vm_compute. repeat split. Qed.

(** ** Coins picked up by moving *)

Lemma add_score_add a b p : add_score a (add_score b p) = add_score (b + a) p.
Proof. destruct p. unfold add_score. simpl. f_equal. lia. Qed.

Lemma add_score_0 p : add_score 0 p = p.
Proof. destruct p. unfold add_score. simpl. f_equal. lia. Qed.

Lemma pl_x_add_score n p : pl_x (add_score n p) = pl_x p.
Proof. done. Qed.

Lemma pl_y_add_score n p : pl_y (add_score n p) = pl_y p.
Proof. done. Qed.

Lemma checkCoinCollisions_spec player cs :
  checkCoinCollisions player cs
  = (add_score
       (10 * Z.of_nat (length (List.filter (reaches (pl_x player) (pl_y player)) cs)))
       player,
     map (fun c => if reaches (pl_x player) (pl_y player) c
                   then set_collected c else c) cs).
Proof.
  revert player. induction cs as [|c cs IH]; intros player;
    cbn [checkCoinCollisions List.filter map length].
  - by rewrite add_score_0.
  - assert (reaches (pl_x player) (pl_y player) c
            = negb (c_collected c)
              && within30 (pl_x player) (pl_y player) (c_x c) (c_y c)) as Hr
      by done.
    destruct (c_collected c); cbn [negb andb] in *.
    + rewrite Hr, IH. done.
    + destruct (within30 _ _ _ _); rewrite Hr, IH; [|done].
      rewrite pl_x_add_score, pl_y_add_score, add_score_add.
      cbn [length]. do 2 f_equal. lia.
Qed.

(** C10 (amended). In race mode a [playerInput] of a known player, besides
    moving the player, collects every coin that is not yet collected and
    that the distance test of the method, evaluated in double arithmetic,
    puts closer than 30 to the new position ([reaches]): each such coin (and
    no other) is marked collected and the player's score grows by 10 for
    each of them, several in one move if several are in reach; no
    [collectCoin] action is involved and other players are untouched. *)
Theorem playerInput_collects_nearby_coins playerId input player gs :
  currentMode gs = race ->
  JsMap.get playerId (players gs) = Some player ->
  let moved := applyInput input player in
  let near := reaches (pl_x moved) (pl_y moved) in
  let gs' := updatePlayerInput playerId input gs in
  coins gs' = map (fun c => if near c then set_collected c else c) (coins gs)
  /\ JsMap.get playerId (players gs')
     = Some (add_score (10 * Z.of_nat (length (List.filter near (coins gs)))) moved)
  /\ (forall q, q ≠ playerId ->
        JsMap.get q (players gs') = JsMap.get q (players gs)).
Proof.
  intros Hmode Hp moved near gs'. subst gs'. unfold updatePlayerInput.
  rewrite Hp, Hmode. rewrite decide_True by done.
  rewrite checkCoinCollisions_spec. fold moved. fold near. simpl.
  repeat split.
  - apply get_set_eq.
  - intros q Hq. apply get_set_ne. congruence.
Qed.

Lemma playerInput_collects_nearby_coins_witness :
  let gs' := updatePlayerInput "a" (mkInput (Some (15 # 1)) (Some (10 # 1)) None None)
               demoRace in
  map c_collected (coins gs') = [true; true; false]
  /\ pl_score <$> JsMap.get "a" (players gs') = Some 20.
Proof.
  pose proof (playerInput_collects_nearby_coins "a"
                (mkInput (Some (15 # 1)) (Some (10 # 1)) None None)
                (demoPlayer "a" red (300 # 1) (300 # 1) 100) demoRace
                eq_refl eq_refl) as (Hc & Hp & _).
  cbv zeta in *. split.
  - rewrite Hc. reflexivity.
  - rewrite Hp. reflexivity.
Defined.

(** C10, as stated, fails at the edge of the range: the distance is
    computed in doubles and every operation rounds.  A player who moves to
    x = 2^-60 on the x axis is closer than 30 to the coin at (30, 0); the
    difference of the two coordinates rounds to -30, the distance computed
    is 30, and the coin is not collected. *)
Lemma coin_closer_than_30_not_collected :
  let x := (1 # 2 ^ 60)%Q in
  let gs' :=
    updatePlayerInput "a" (mkInput (Some x) (Some 0%Q) None None) demoEdge in
  coins demoEdge = [mkCoin 0 (30 # 1) 0 false]
  /\ ((x - (30 # 1)) * (x - (30 # 1)) + (0 - 0) * (0 - 0)
      < (30 # 1) * (30 # 1))%Q
  /\ pl_x <$> JsMap.get "a" (players gs') = Some x
  /\ map c_collected (coins gs') = [false]
  /\ pl_score <$> JsMap.get "a" (players gs') = Some 0.
Proof. vm_compute. repeat split. Qed.

(** ** Projectiles *)

Lemma creditBy_0 t ts : creditBy t 0 ts = ts.
Proof. destruct t, ts; unfold creditBy; simpl; f_equal; lia. Qed.

Lemma creditBy_creditTeam t n ts :
  creditBy t n (creditTeam t ts) = creditBy t (10 + n) ts.
Proof. destruct t, ts; unfold creditBy, creditTeam; simpl; f_equal; lia. Qed.

Lemma teamScore_creditBy_same t n ts :
  teamScore t (creditBy t n ts) = teamScore t ts + n.
Proof. by destruct t. Qed.

Lemma teamScore_creditBy_other t n ts :
  teamScore (opposite t) (creditBy t n ts) = teamScore (opposite t) ts.
Proof. by destruct t. Qed.

Lemma strike_spec proj player ts :
  strike proj player ts
  = (set_health (Z.max 0 (pl_health player - pr_damage proj)) player,
     if pl_health player - pr_damage proj <=? 0
     then creditTeam (pr_team proj) ts else ts).
Proof.
  unfold strike.
  destruct (Z.leb_spec (pl_health player - pr_damage proj) 0).
  - by rewrite Z.max_l by lia.
  - by rewrite Z.max_r by lia.
Qed.

(** One pass of [forEach] over the roster, whatever is accumulated so far. *)
Lemma collide_spec proj ps ts hit :
  collide proj ps ts hit
  = (map (damagedBy proj) ps,
     creditBy (pr_team proj)
       (10 * Z.of_nat (length (List.filter (lethal proj) ps))) ts,
     hit || existsb (fun kp => isTarget proj kp.2) ps).
Proof.
  revert ts hit. induction ps as [|[k player] ps IH]; intros ts hit;
    cbn [collide map List.filter existsb length].
  - by rewrite creditBy_0, orb_false_r.
  - unfold damagedBy at 1, lethal at 1. cbn [fst snd].
    destruct (isTarget proj player) eqn:Ht; cbn [andb orb].
    + rewrite strike_spec, IH, orb_true_r.
      destruct (pl_health player - pr_damage proj <=? 0); cbn [length].
      * rewrite creditBy_creditTeam. do 3 f_equal. lia.
      * done.
    + by rewrite IH.
Qed.

Lemma isTarget_other_team proj player :
  isTarget proj player = true -> pr_team proj = opposite (pl_team player).
Proof.
  unfold isTarget. rewrite !andb_true_iff, !negb_true_iff.
  intros [[_ Ht] _]. apply bool_decide_eq_false in Ht.
  destruct (pr_team proj), (pl_team player); try done; by destruct Ht.
Qed.

Lemma existsb_isTarget proj (ps : list (string * Player)) kp :
  kp ∈ ps -> isTarget proj kp.2 = true ->
  existsb (fun kp => isTarget proj kp.2) ps = true.
Proof.
  intros Hin Ht. apply existsb_exists. exists kp. split; [|done].
  by apply list_elem_of_In.
Qed.

Lemma isTarget_damagedBy proj q kp :
  isTarget proj (damagedBy q kp).2 = isTarget proj kp.2.
Proof. unfold damagedBy. cbn [snd]. by destruct (isTarget q kp.2). Qed.

Lemma damagedBy_miss proj kp : isTarget proj kp.2 = false -> damagedBy proj kp = kp.
Proof. intros Ht. unfold damagedBy. rewrite Ht. by destruct kp. Qed.

Lemma afterAll_cons q rest kp :
  afterAll (q :: rest) kp = afterAll rest (damagedBy q kp).
Proof. done. Qed.

Lemma isTarget_afterAll proj projs kp :
  isTarget proj (afterAll projs kp).2 = isTarget proj kp.2.
Proof.
  revert kp. induction projs as [|q rest IH]; intros kp; [done|].
  by rewrite afterAll_cons, IH, isTarget_damagedBy.
Qed.

Lemma pl_team_damagedBy q kp : pl_team (damagedBy q kp).2 = pl_team kp.2.
Proof. unfold damagedBy. cbn [snd]. by destruct (isTarget q kp.2). Qed.

Lemma health_afterAll_nonneg projs kp :
  0 <= pl_health kp.2 -> 0 <= pl_health (afterAll projs kp).2.
Proof.
  revert kp. induction projs as [|q rest IH]; intros kp Hh; [done|].
  rewrite afterAll_cons. apply IH. unfold damagedBy. cbn [snd].
  destruct (isTarget q kp.2); [cbn; lia | done].
Qed.

Lemma hitsStanding_tail q rest ps :
  hitsStanding (q :: rest) ps -> hitsStanding rest (map (damagedBy q) ps).
Proof.
  intros H pre proj post kp1 Heq Hin Ht.
  apply list_elem_of_fmap in Hin as (kp & -> & Hin).
  rewrite isTarget_damagedBy in Ht. rewrite <- afterAll_cons.
  apply (H (q :: pre) proj post kp); [by rewrite Heq | done | done].
Qed.

(** A player with no health left whom no later projectile reaches stays as
    it is. *)
Lemma fallen_stays_fallen projs kp :
  pl_health kp.2 = 0 ->
  (forall pre proj post,
     projs = pre ++ proj :: post -> isTarget proj kp.2 = true ->
     0 < pl_health (afterAll pre kp).2) ->
  pl_health (afterAll projs kp).2 = 0.
Proof.
  revert kp. induction projs as [|q rest IH]; intros kp Hh H; [done|].
  destruct (isTarget q kp.2) eqn:Ht.
  - specialize (H [] q rest eq_refl Ht). cbn in H. lia.
  - rewrite afterAll_cons, (damagedBy_miss _ _ Ht). apply IH; [done|].
    intros pre proj post Heq Htp.
    pose proof (H (q :: pre) proj post) as Hq. rewrite Heq in Hq.
    specialize (Hq eq_refl Htp).
    by rewrite afterAll_cons, (damagedBy_miss _ _ Ht) in Hq.
Qed.

Lemma count_split {A} (b b1 b2 : A -> bool) (g : A -> A) (l : list A) :
  (forall a, a ∈ l ->
     Nat.b2n (b a) = (Nat.b2n (b1 a) + Nat.b2n (b2 (g a)))%nat) ->
  length (List.filter b l)
  = (length (List.filter b1 l) + length (List.filter b2 (map g l)))%nat.
Proof.
  induction l as [|a l IH]; intros H; [done|].
  cbn [List.filter map].
  pose proof (H a (list_elem_of_here _ _)) as Ha.
  assert (length (List.filter b l)
          = (length (List.filter b1 l) + length (List.filter b2 (map g l)))%nat)
    as IH' by (apply IH; intros a' Ha'; apply H; by apply list_elem_of_further).
  destruct (b a), (b1 a), (b2 (g a)); cbn [length Nat.b2n] in Ha |- *; lia.
Qed.

(** The elimination a projectile brings about, and those the projectiles
    after it do. *)
Lemma eliminated_cons t q rest kp :
  (forall pre proj post,
     q :: rest = pre ++ proj :: post -> isTarget proj kp.2 = true ->
     0 < pl_health (afterAll pre kp).2) ->
  Nat.b2n (eliminated t (q :: rest) kp)
  = (Nat.b2n (bool_decide (pr_team q = t) && lethal q kp)
     + Nat.b2n (eliminated t rest (damagedBy q kp)))%nat.
Proof.
  intros H. unfold eliminated. rewrite afterAll_cons, pl_team_damagedBy.
  unfold lethal. destruct (isTarget q kp.2) eqn:Ht; cbn [andb].
  - pose proof (H [] q rest eq_refl Ht) as Hpos. cbn in Hpos.
    pose proof (isTarget_other_team _ _ Ht) as Hteam.
    assert (bool_decide (pr_team q = t)
            = bool_decide (pl_team kp.2 = opposite t)) as ->.
    { apply bool_decide_ext. rewrite Hteam.
      destruct (pl_team kp.2), t; cbn; split; congruence. }
    replace (0 <? pl_health kp.2) with true by (symmetry; by apply Z.ltb_lt).
    destruct (Z.leb_spec (pl_health kp.2 - pr_damage q) 0) as [Hle|Hgt].
    + assert (pl_health (damagedBy q kp).2 = 0) as H0.
      { unfold damagedBy. rewrite Ht. cbn [snd pl_health set_health]. lia. }
      rewrite (fallen_stays_fallen rest (damagedBy q kp) H0).
      * rewrite H0. cbn. destruct (bool_decide _); cbn; lia.
      * intros pre proj post Heq Htp. rewrite isTarget_damagedBy in Htp.
        rewrite <- afterAll_cons. apply (H (q :: pre) proj post); [|done].
        by rewrite Heq.
    + assert (pl_health (damagedBy q kp).2 = pl_health kp.2 - pr_damage q) as H1.
      { unfold damagedBy. rewrite Ht. cbn [snd pl_health set_health]. lia. }
      rewrite H1.
      replace (0 <? pl_health kp.2 - pr_damage q) with true
        by (symmetry; by apply Z.ltb_lt).
      rewrite andb_false_r. done.
  - rewrite andb_false_r. by rewrite (damagedBy_miss _ _ Ht).
Qed.

Lemma teamScore_creditBy t q n ts :
  teamScore t (creditBy q n ts)
  = teamScore t ts + (if bool_decide (q = t) then n else 0).
Proof.
  destruct t, q, ts; cbn [teamScore creditBy ts_red ts_blue];
    case_bool_decide; try congruence; lia.
Qed.

(** The team scores once every projectile of a series has passed. *)
Lemma credited_eliminations t projs ps ts :
  hitsStanding projs ps ->
  teamScore t (credited projs ps ts)
  = teamScore t ts
    + 10 * Z.of_nat (length (List.filter (eliminated t projs) ps)).
Proof.
  revert ps ts. induction projs as [|q rest IH]; intros ps ts H.
  - cbn [credited].
    assert (List.filter (eliminated t []) ps = []) as ->; [|cbn; lia].
    clear H. induction ps as [|kp ps IHps]; [done|]. cbn [List.filter].
    rewrite IHps. unfold eliminated. cbn [afterAll foldl].
    destruct (Z.ltb_spec 0 (pl_health kp.2)), (Z.eqb_spec (pl_health kp.2) 0);
      rewrite ?andb_false_r; try done; lia.
  - cbn [credited]. rewrite (IH _ _ (hitsStanding_tail _ _ _ H)).
    rewrite teamScore_creditBy.
    rewrite (count_split (eliminated t (q :: rest))
               (fun kp => bool_decide (pr_team q = t) && lethal q kp)
               (eliminated t rest) (damagedBy q) ps).
    + rewrite Nat2Z.inj_add. destruct (bool_decide (pr_team q = t)).
      * change (fun kp : string * Player => true && lethal q kp)
          with (lethal q). lia.
      * change (fun kp : string * Player => false && lethal q kp)
          with (fun _ : string * Player => false).
        replace (List.filter (fun _ => false) ps) with (@nil (string * Player))
          by (clear; induction ps; [done|by cbn]).
        cbn [length]. lia.
    + intros kp Hin. apply eliminated_cons.
      intros pre proj post Heq Ht. by apply (H pre proj post kp).
Qed.

Section Simulation_facts.
Variables cosf sinf : Q -> Q.

Lemma filterProjectiles_spec projs ps ts :
  filterProjectiles cosf sinf projs ps ts
  = (List.filter (stays ps) (map (advance cosf sinf) projs),
     map (afterAll (map (advance cosf sinf) projs)) ps,
     credited (map (advance cosf sinf) projs) ps ts).
Proof.
  revert ps ts. induction projs as [|proj rest IH]; intros ps ts.
  - cbn. f_equal. f_equal. induction ps as [|kp ps IHps]; [done|].
    cbn [map]. by rewrite <- IHps.
  - cbn [filterProjectiles map List.filter credited]. unfold projectileStep.
    rewrite collide_spec, IH. cbn [orb].
    f_equal. f_equal.
    + assert (forall p, stays (map (damagedBy (advance cosf sinf proj)) ps) p
                        = stays ps p) as Hst.
      { intros p. unfold stays. f_equal. f_equal.
        induction ps as [|kp ps IHps]; [done|]. cbn [map existsb].
        by rewrite isTarget_damagedBy, IHps. }
      rewrite (filter_ext _ _ Hst).
      fold (stays ps (advance cosf sinf proj)).
      by destruct (stays ps (advance cosf sinf proj)).
    + rewrite map_map. done.
Qed.

(** C3 (amended). One simulation step, for every state: every projectile in
    flight is moved, in double arithmetic, and then passes the players one
    after the other, the projectiles in the order they were fired.
    - A projectile lowers the health of every player of the other team (its
      owner apart) whom the distance test of the method puts closer than 30,
      by its damage and never below zero: of every such player, not only of
      the first.  Nobody else is touched by it, and health never becomes
      negative.
    - A projectile is kept exactly when it reached nobody and is still
      inside the field.
    - When no projectile reaches a player who has no health left by then,
      each team's score grows by exactly 10 for each player of the other
      team whose health went from above zero to zero in this step.
    Projectiles made by [createProjectile] carry damage 25 and the team of
    the player who fired. *)
Theorem projectile_hits_every_target now gs :
  let projs := map (advance cosf sinf) (projectiles gs) in
  let gs' := update cosf sinf now gs in
  projectiles gs' = List.filter (stays (players gs)) projs
  /\ players gs'
     = JsMap.forEach (expirePowerUps now) (map (afterAll projs) (players gs))
  /\ (forall proj kp,
        if isTarget proj kp.2
        then damagedBy proj kp
             = (kp.1, set_health (Z.max 0 (pl_health kp.2 - pr_damage proj)) kp.2)
             /\ pr_team proj = opposite (pl_team kp.2)
        else damagedBy proj kp = kp)
  /\ (forall kp, kp ∈ players gs -> 0 <= pl_health kp.2 ->
        0 <= pl_health (afterAll projs kp).2)
  /\ (hitsStanding projs (players gs) ->
        forall t,
          teamScore t (teamScores gs')
          = teamScore t (teamScores gs)
            + 10 * Z.of_nat (length (List.filter (eliminated t projs)
                                       (players gs))))
  /\ (forall time player angle x y gs0,
        exists p, createProjectile time player angle x y gs0
                  = (Some (ProjectileCreated (pl_id player) p),
                     set_projectiles (projectiles gs0 ++ [p]) gs0)
                  /\ pr_damage p = 25 /\ pr_team p = pl_team player
                  /\ pr_owner p = pl_id player).
Proof.
  intros projs gs'. subst gs'. unfold update.
  rewrite filterProjectiles_spec. fold projs.
  cbn [projectiles players teamScores].
  split; [done|]. split; [done|]. split; [|split; [|split]].
  - intros proj kp. destruct (isTarget proj kp.2) eqn:Ht.
    + split; [|by apply isTarget_other_team]. unfold damagedBy. by rewrite Ht.
    + by apply damagedBy_miss.
  - intros kp _. apply health_afterAll_nonneg.
  - intros H t. by apply credited_eliminations.
  - intros time player angle x y gs0. eexists. split; [reflexivity|]. done.
Qed.

End Simulation_facts.

Lemma projectile_hits_every_target_witness :
  let gs' := update (fun _ => 1%Q) (fun _ => 0%Q) 0 demoLastStand in
  teamScore red (teamScores gs') = teamScore red (teamScores demoLastStand) + 10
  /\ teamScore blue (teamScores gs') = teamScore blue (teamScores demoLastStand)
  /\ pl_health <$> JsMap.get "b1" (players gs') = Some 0
  /\ pl_health <$> JsMap.get "b2" (players gs') = Some 75.
Proof.
  pose proof (projectile_hits_every_target (fun _ => 1%Q) (fun _ => 0%Q) 0
                demoLastStand) as (_ & Hps & _ & _ & Hscore & _).
  cbv zeta in *.
  assert (hitsStanding
            (map (advance (fun _ => 1%Q) (fun _ => 0%Q)) (projectiles demoLastStand))
            (players demoLastStand)) as Hst.
  { intros pre proj post kp Heq Hin _.
    destruct pre as [|a pre]; [|by destruct pre].
    vm_compute in Hin.
    repeat (apply elem_of_cons in Hin as [->|Hin]; [vm_compute; reflexivity|]).
    destruct (proj1 (elem_of_nil _) Hin). }
  split; [|split; [|split]].
  - rewrite (Hscore Hst red). vm_compute. reflexivity.
  - rewrite (Hscore Hst blue). vm_compute. reflexivity.
  - rewrite Hps. vm_compute. reflexivity.
  - rewrite Hps. vm_compute. reflexivity.
Defined.

(** C3, as stated, fails: a projectile that comes within 30 of two players
    of the other team damages both of them, not only the first one it
    meets.  (And a projectile that reaches a player who is already at zero
    health is paid for again: the score goes from 10 to 20 with nobody new
    eliminated.) *)
Lemma projectile_damages_second_target :
  let gs' := update (fun _ => 1%Q) (fun _ => 0%Q) 0 demoBattle in
  let gs'' := update (fun _ => 1%Q) (fun _ => 0%Q) 0 demoFallen in
  pl_health <$> JsMap.get "b1" (players demoBattle) = Some 100
  /\ pl_health <$> JsMap.get "b2" (players demoBattle) = Some 100
  /\ pl_health <$> JsMap.get "b1" (players gs') = Some 75
  /\ pl_health <$> JsMap.get "b2" (players gs') = Some 75
  /\ pl_health <$> JsMap.get "b2" (players gs')
     ≠ pl_health <$> JsMap.get "b2" (players demoBattle)
  /\ projectiles gs' = []
  /\ pl_health <$> JsMap.get "b1" (players demoFallen) = Some 0
  /\ teamScores demoFallen = mkTeamScores 10 0
  /\ teamScores gs'' = mkTeamScores 20 0.
Proof. vm_compute. repeat split; congruence. Qed.

(** ** The roster of a room *)

Lemma addPlayer_full id username room r :
  maxPlayers room <= playerCount room ->
  addPlayer id username room r = inl RoomFull.
Proof.
  intros Hfull. unfold addPlayer, playerCount in *.
  destruct (Z.leb_spec (maxPlayers room) (JsMap.size (roster room))); [done|lia].
Qed.

Lemma addPlayer_inr id username room r player room' r' :
  addPlayer id username room r = inr (player, room', r') ->
  playerCount room < maxPlayers room
  /\ pl_id player = id
  /\ pl_team player = assignTeam room
  /\ pl_score player = 0
  /\ pl_health player = 100
  /\ roster room' = JsMap.set id player (roster room)
  /\ maxPlayers room' = maxPlayers room
  /\ gameState room' = gameState room
  /\ gameStarted room' = gameStarted room
  /\ isPrivate room' = isPrivate room
  /\ code room' = code room.
Proof.
  unfold addPlayer, playerCount.
  destruct (Z.leb_spec (maxPlayers room) (JsMap.size (roster room))); [done|].
  destruct (decide (username = "")); cbn; intros [= <- <- <-]; cbn;
    repeat split; done.
Qed.

Lemma countTeam_app t ps qs :
  countTeam t (ps ++ qs) = countTeam t ps + countTeam t qs.
Proof. unfold countTeam. rewrite filter_app, length_app. lia. Qed.

Lemma countTeam_single t k p :
  countTeam t [(k, p)] = if decide (pl_team p = t) then 1 else 0.
Proof.
  unfold countTeam. rewrite filter_cons. cbn [snd].
  destruct (decide (pl_team p = t)); done.
Qed.

Lemma playerCount_nonneg room : 0 <= playerCount room.
Proof. unfold playerCount, JsMap.size. lia. Qed.

(** A join under a new id keeps the teams level, red first. *)
Lemma addPlayer_fresh_balanced id username room r player room' r' :
  addPlayer id username room r = inr (player, room', r') ->
  id ∉ JsMap.keys (roster room) ->
  balanced room ->
  balanced room'
  /\ JsMap.keys (roster room') = JsMap.keys (roster room) ++ [id]
  /\ playerCount room' = playerCount room + 1.
Proof.
  intros Hadd Hfresh Hbal.
  apply addPlayer_inr in Hadd as (_ & _ & Hteam & _ & _ & Hroster & _).
  apply notin_get_None in Hfresh.
  rewrite (set_fresh _ _ _ Hfresh) in Hroster.
  unfold balanced, playerCount, JsMap.size in *. rewrite Hroster.
  split; [|split].
  - rewrite !countTeam_app, !countTeam_single, Hteam. unfold assignTeam.
    destruct (Z.leb_spec (countTeam red (roster room)) (countTeam blue (roster room)));
      repeat case_decide; try done; lia.
  - unfold JsMap.keys. by rewrite fmap_app.
  - rewrite length_app. cbn. lia.
Qed.

Lemma joinAll_distinct joins room r :
  NoDup joins.*1 ->
  (forall id, id ∈ joins.*1 -> id ∉ JsMap.keys (roster room)) ->
  balanced room ->
  balanced (joinAll joins room r).1
  /\ (playerCount room + Z.of_nat (length joins) <= maxPlayers room ->
      playerCount (joinAll joins room r).1
      = playerCount room + Z.of_nat (length joins)
      /\ maxPlayers (joinAll joins room r).1 = maxPlayers room).
Proof.
  revert room r. induction joins as [|[id username] joins IH];
    intros room r Hnd Hfresh Hbal; cbn [joinAll].
  - split; [done|]. intros _. cbn. split; [lia|done].
  - cbn in Hnd. apply NoDup_cons in Hnd as [Hid Hnd].
    destruct (addPlayer id username room r) as [msg|[[player room'] r']] eqn:Hadd.
    + destruct (IH room r Hnd) as [Hb Hc]; [|done|].
      { intros i Hi. apply Hfresh. cbn. by apply list_elem_of_further. }
      split; [done|]. intros Hroom.
      unfold addPlayer in Hadd.
      destruct (Z.leb_spec (maxPlayers room) (JsMap.size (roster room)));
        [|by destruct (decide (username = ""))].
      unfold playerCount in Hroom. cbn [length] in Hroom. lia.
    + pose proof Hadd as Hinr. apply addPlayer_inr in Hinr as (_ & _ & _ & _ & _ & _ & Hmax & _).
      destruct (addPlayer_fresh_balanced _ _ _ _ _ _ _ Hadd) as (Hb' & Hk & Hc');
        [apply Hfresh; cbn; apply list_elem_of_here | done |].
      destruct (IH room' r' Hnd) as [Hb Hc]; [|done|].
      { intros i Hi. rewrite Hk. intros [Hin|Hin]%elem_of_app.
        - revert Hin. apply Hfresh. cbn. by apply list_elem_of_further.
        - apply list_elem_of_singleton in Hin as ->. done. }
      split; [done|]. intros Hroom. cbn [length] in Hroom.
      rewrite Hmax, Hc' in Hc. cbn [length].
      destruct Hc as [-> ->]; [lia|]. split; [lia|done].
Qed.

(** C7 (amended). Joins under pairwise distinct connection ids into a new
    room keep the teams balanced: after any number of them the team counts
    differ by at most one.  Every player that [addPlayer] admits gets the
    team computed from the roster as it is at that call: red when red has no
    more members than blue (ties included), blue otherwise. *)
Theorem team_balance_distinct_joins joins roomCode private r :
  NoDup joins.*1 ->
  let room := (joinAll joins (newGameRoom roomCode private) r).1 in
  Z.abs (countTeam red (roster room) - countTeam blue (roster room)) <= 1
  /\ (forall id username room0 r0 player room1 r1,
        addPlayer id username room0 r0 = inr (player, room1, r1) ->
        pl_team player
        = if countTeam red (roster room0) <=? countTeam blue (roster room0)
          then red else blue).
Proof.
  intros Hnd room. split.
  - destruct (joinAll_distinct joins (newGameRoom roomCode private) r Hnd)
      as [Hb _].
    + intros id _. cbn. apply not_elem_of_nil.
    + unfold balanced, countTeam. cbn [roster newGameRoom].
      rewrite !filter_nil. cbn [length]. lia.
    + fold room in Hb. unfold balanced in Hb. lia.
  - intros id username room0 r0 player room1 r1 Hadd.
    by apply addPlayer_inr in Hadd as (_ & _ & -> & _).
Qed.

Lemma team_balance_distinct_joins_witness :
  let room := (joinAll [("a", "ann"); ("b", "bob"); ("c", "cat")]
                 (newGameRoom "ROOM01" false) zeroDraws).1 in
  Z.abs (countTeam red (roster room) - countTeam blue (roster room)) <= 1.
Proof.
  refine (proj1 (team_balance_distinct_joins
                   [("a", "ann"); ("b", "bob"); ("c", "cat")]
                   "ROOM01" false zeroDraws _)).
  apply (bool_decide_unpack _). vm_compute. exact I.
Defined.

(** C7, as stated, fails: a second join under an id that is already in the
    room replaces that player and assigns the team anew, and the teams can
    end up two apart.  Through the handlers: with one red and one blue
    player in the lobby, a second [quickMatch] from the blue player's socket
    finds the same room and leaves two red players and no blue one. *)
Lemma rejoin_unbalances_teams :
  let room := (joinAll [("a", "ann"); ("b", "bob"); ("b", "bob")]
                 (newGameRoom "ROOM01" false) zeroDraws).1 in
  let s := (quickMatch "b" "bob" demoLobby).2 in
  countTeam red (roster room) = 2
  /\ countTeam blue (roster room) = 0
  /\ ~ Z.abs (countTeam red (roster room) - countTeam blue (roster room)) <= 1
  /\ (fun r => (countTeam red (roster r), countTeam blue (roster r)))
       <$> heap demoLobby !! 0%nat = Some (1, 1)
  /\ (fun r => (countTeam red (roster r), countTeam blue (roster r)))
       <$> heap s !! 0%nat = Some (2, 0).
Proof.
  vm_compute. split; [done|]. split; [done|]. split; [|done].
  intros H. apply H. reflexivity.
Qed.

(** ** Capacity *)

Lemma addPlayer_withinCapacity id username room r player room' r' :
  addPlayer id username room r = inr (player, room', r') ->
  withinCapacity room -> withinCapacity room'.
Proof.
  intros Hadd [Hmax Hcount].
  apply addPlayer_inr in Hadd as (Hlt & _ & _ & _ & _ & Hroster & Hmax' & _).
  unfold withinCapacity, playerCount, JsMap.size in *.
  rewrite Hmax', Hroster. split; [done|].
  pose proof (length_set_le id player (roster room)). lia.
Qed.

Lemma room_removePlayer_withinCapacity id room :
  withinCapacity room -> withinCapacity (room_removePlayer id room).
Proof.
  intros [Hmax Hcount]. unfold withinCapacity, playerCount, JsMap.size in *.
  cbn. split; [done|].
  pose proof (length_delete_le id (roster room)). lia.
Qed.

Lemma room_startGame_withinCapacity room r :
  withinCapacity room -> withinCapacity (room_startGame room r).1.
Proof.
  intros Hw. unfold room_startGame. destruct (gameStarted room); [done|].
  destruct (newGameState (roster room) r). exact Hw.
Qed.

Lemma length_handBack gs ps : length (handBack gs ps) = length ps.
Proof. unfold handBack. apply length_map. Qed.

Lemma endGame_withinCapacity room :
  withinCapacity room -> withinCapacity (endGame room).
Proof.
  intros [Hmax Hcount]. unfold withinCapacity, playerCount, JsMap.size in *.
  cbn. split; [done|]. destruct (gameState room); [|done].
  by rewrite length_handBack.
Qed.

Lemma with_gameState_withinCapacity gs room :
  withinCapacity room -> withinCapacity (with_gameState gs room).
Proof. done. Qed.

Lemma newGameRoom_withinCapacity roomCode private :
  withinCapacity (newGameRoom roomCode private).
Proof. split; [done|]. unfold playerCount, JsMap.size. cbn [roster newGameRoom length]. lia. Qed.

Lemma liveGame_Some roomCode s ref room gs :
  liveGame roomCode s = Some (ref, room, gs) ->
  JsMap.get roomCode (rooms s) = Some ref
  /\ heap s !! ref = Some room /\ gameState room = Some gs.
Proof.
  unfold liveGame. destruct (JsMap.get roomCode (rooms s)) as [ref'|]; [|done].
  destruct (heap s !! ref') as [room'|] eqn:Href; [|done].
  destruct (gameState room') as [gs'|] eqn:Hgs; [|done].
  intros [= <- <- <-]. done.
Qed.

(** *** Properties of every room object

    A property of rooms that the methods of [GameRoom] and the two ways the
    handlers write [room.gameState] preserve holds of every room object in
    every state the process can reach. *)
Section Room_invariant.
Variable P : GameRoom -> Prop.
Hypothesis P_new : forall roomCode private, P (newGameRoom roomCode private).
Hypothesis P_addPlayer : forall id username room r player room' r',
  addPlayer id username room r = inr (player, room', r') -> P room -> P room'.
Hypothesis P_removePlayer : forall id room, P room -> P (room_removePlayer id room).
Hypothesis P_startGame : forall room r, P room -> P (room_startGame room r).1.
Hypothesis P_endGame : forall room, P room -> P (endGame room).
Hypothesis P_input : forall id input room gs,
  gameState room = Some gs -> P room ->
  P (with_gameState (updatePlayerInput id input gs) room).
Hypothesis P_action : forall now id action room gs,
  gameState room = Some gs -> P room ->
  P (with_gameState (handleAction now id action gs).2 room).

Lemma findAvailableRoom_rooms s :
  Forall P (heap s) -> Forall P (heap (findAvailableRoom s).2).
Proof.
  unfold findAvailableRoom. intros Hs.
  destruct (firstAvailable (heap s) (rooms s)); [done|].
  destruct (generateRoomCode (rng s)) as [c r']. cbn.
  apply Forall_app. split; [done|]. apply Forall_singleton, P_new.
Qed.

Lemma enterRoom_rooms socketId roomCode username ref room s :
  heap s !! ref = Some room ->
  Forall P (heap s) ->
  Forall P (heap (enterRoom socketId roomCode username ref room s).2).
Proof.
  unfold enterRoom. intros Href Hs.
  destruct (addPlayer socketId username room (rng s))
    as [msg|[[player room'] r']] eqn:Hadd; [done|].
  assert (P room') as Hw.
  { eapply P_addPlayer; [exact Hadd|]. by eapply Forall_lookup_1. }
  destruct (_ && _); cbn; by apply Forall_insert.
Qed.

Lemma startGame_rooms roomCode s :
  Forall P (heap s) -> Forall P (heap (startGame roomCode s)).
Proof.
  unfold startGame. intros Hs.
  destruct (JsMap.get roomCode (rooms s)) as [ref|]; [|done].
  destruct (heap s !! ref) as [room|] eqn:Href; [|done].
  destruct (gameStarted room) eqn:Hst; [done|].
  pose proof (P_startGame room (rng s)) as Hw.
  destruct (room_startGame room (rng s)) as [room' r']. cbn.
  apply Forall_insert; [done|]. apply Hw. by eapply Forall_lookup_1.
Qed.

Lemma runCallback_rooms self cb s :
  Forall P (heap s) -> Forall P (heap (runCallback self cb s)).
Proof.
  intros Hs. destruct cb as [c|c ref|c ref m d|c m d|c ref g]; cbn.
  - by apply startGame_rooms.
  - destruct (negb _); [done|]. by destruct (roomState ref s).
  - by destruct (roomState ref s).
  - done.
  - destruct (heap s !! ref) as [room|] eqn:Href; [|done].
    destruct (gameState room); [|done]. cbn.
    apply Forall_insert; [done|]. apply P_endGame.
    by eapply Forall_lookup_1.
Qed.

Lemma step_rooms s s' :
  step s = Some s' -> Forall P (heap s) -> Forall P (heap s').
Proof.
  unfold step. destruct (crashed s); [done|].
  destruct (earliest (timers s)) as [t|]; [|done].
  intros [= <-] Hs. by apply runCallback_rooms.
Qed.

Lemma deliver_rooms i s :
  Forall P (heap s) -> Forall P (heap (deliver i s)).
Proof.
  intros Hs. unfold deliver. destruct (crashed s); [done|].
  destruct i as [sid u|sid u|sid c u|sid inp|sid act|sid]; cbn [handle].
  - unfold quickMatch.
    pose proof (findAvailableRoom_rooms s Hs) as Hs1.
    destruct (findAvailableRoom s) as [c s1]. cbn in Hs1.
    destruct (JsMap.get c (rooms s1)) as [ref|]; [|done].
    destruct (heap s1 !! ref) as [room|] eqn:Href; [|done].
    by apply enterRoom_rooms.
  - unfold createRoom. destruct (generateRoomCode (rng s)) as [c r1].
    destruct (addPlayer sid u (newGameRoom c true) r1)
      as [msg|[[player room'] r2]] eqn:Hadd; [exact Hs|].
    cbn. apply Forall_app. split; [done|].
    apply Forall_singleton. eapply P_addPlayer; [exact Hadd|]. apply P_new.
  - unfold joinRoom.
    destruct (JsMap.get (toUpperCase c) (rooms s)) as [ref|]; [|done].
    destruct (heap s !! ref) as [room|] eqn:Href; [|done].
    destruct (16 <=? playerCount room); [done|].
    destruct (gameStarted room); [done|]. by apply enterRoom_rooms.
  - unfold playerInput. destruct (roomOf sid s) as [c|]; [|done].
    destruct (liveGame c s) as [[[ref room] gs]|] eqn:Hlive; [|done].
    apply liveGame_Some in Hlive as (_ & Href & Hgs).
    cbn. apply Forall_insert; [done|].
    apply P_input; [done|]. by eapply Forall_lookup_1.
  - unfold playerAction. destruct (roomOf sid s) as [c|]; [|done].
    destruct (liveGame c s) as [[[ref room] gs]|] eqn:Hlive; [|done].
    apply liveGame_Some in Hlive as (_ & Href & Hgs).
    pose proof (P_action (clock s) sid act room gs Hgs) as Hw.
    destruct (handleAction (clock s) sid act gs) as [[res|] gs'];
      cbn; (apply Forall_insert; [done|]);
      apply Hw; by eapply Forall_lookup_1.
  - unfold disconnect. destruct (roomOf sid s) as [c|]; [|done].
    destruct (JsMap.get c (rooms s)) as [ref|]; [|done].
    destruct (heap s !! ref) as [room|] eqn:Href; [|done].
    destruct (_ =? 0); cbn; (apply Forall_insert; [done|]);
      apply P_removePlayer; by eapply Forall_lookup_1.
Qed.

Lemma reachable_rooms s : reachable s -> Forall P (heap s).
Proof.
  induction 1 as [r|s i _ IH|s t _ IH|s s' _ IH Hstep].
  - apply Forall_nil_2.
  - by apply deliver_rooms.
  - exact IH.
  - by eapply step_rooms.
Qed.

End Room_invariant.

Lemma reachable_capacity s : reachable s -> roomsWithinCapacity s.
Proof.
  apply reachable_rooms.
  - apply newGameRoom_withinCapacity.
  - apply addPlayer_withinCapacity.
  - apply room_removePlayer_withinCapacity.
  - apply room_startGame_withinCapacity.
  - apply endGame_withinCapacity.
  - intros. by apply with_gameState_withinCapacity.
  - intros. by apply with_gameState_withinCapacity.
Qed.

(** C6. No room ever holds more than 16 players: in every state the process
    can reach, every room object has capacity 16 and at most 16 players.
    [addPlayer] on a room at capacity throws the capacity error; through
    [joinRoom] the caller gets that error and the whole state, the roster
    included, is as before.  After sixteen joins under distinct ids into a
    new room the room is full and the seventeenth call fails. *)
Theorem room_capacity :
  (forall s, reachable s ->
     forall room, room ∈ heap s ->
       maxPlayers room = 16 /\ playerCount room <= 16)
  /\ (forall id username room r,
        maxPlayers room = 16 -> 16 <= playerCount room ->
        addPlayer id username room r = inl RoomFull)
  /\ (forall socketId roomCode username s ref room,
        JsMap.get (toUpperCase roomCode) (rooms s) = Some ref ->
        heap s !! ref = Some room ->
        16 <= playerCount room ->
        joinRoom socketId roomCode username s = (AckError RoomFull, s))
  /\ (forall joins roomCode private r id username,
        NoDup joins.*1 -> length joins = 16%nat ->
        let full := joinAll joins (newGameRoom roomCode private) r in
        playerCount full.1 = 16
        /\ addPlayer id username full.1 full.2 = inl RoomFull).
Proof.
  split; [|split; [|split]].
  - intros s Hs room Hin. apply reachable_capacity in Hs.
    unfold roomsWithinCapacity in Hs. rewrite Forall_forall in Hs.
    by apply Hs.
  - intros id username room r Hmax Hfull. apply addPlayer_full. lia.
  - intros sid c u s ref room Hget Href Hfull. unfold joinRoom.
    rewrite Hget, Href.
    by destruct (Z.leb_spec 16 (playerCount room)); [|lia].
  - intros joins c private r id username Hnd Hlen full.
    destruct (joinAll_distinct joins (newGameRoom c private) r Hnd)
      as [_ Hcount].
    + intros i _. cbn. apply not_elem_of_nil.
    + unfold balanced, countTeam. cbn [roster newGameRoom].
      rewrite !filter_nil. cbn [length]. lia.
    + change (playerCount (newGameRoom c private)) with 0 in Hcount.
      change (maxPlayers (newGameRoom c private)) with 16 in Hcount.
      rewrite Hlen in Hcount. destruct Hcount as [Hc Hm]; [lia|].
      fold full in Hc, Hm.
      split; [lia|]. apply addPlayer_full. lia.
Qed.

Lemma room_capacity_witness :
  let full := joinAll sixteen (newGameRoom "ROOM01" false) zeroDraws in
  playerCount full.1 = 16
  /\ addPlayer "late" "zed" full.1 full.2 = inl RoomFull.
Proof.
  refine (proj2 (proj2 (proj2 room_capacity)) sixteen "ROOM01" false
            zeroDraws "late" "zed" _ eq_refl).
  apply (bool_decide_unpack _). vm_compute. exact I.
Defined.

(** ** Room codes *)

Lemma floor_index d :
  (0 <= d)%Q -> (d < 1)%Q -> 0 <= Qfloor (d * inject_Z 36) < 36.
Proof.
  intros H0 H1. split.
  - change 0 with (Qfloor (inject_Z 0)). apply Qfloor_resp_le.
    change (inject_Z 0) with (0 * inject_Z 36)%Q.
    apply Qmult_le_compat_r; [exact H0 | done].
  - rewrite Zlt_Qlt. eapply Qle_lt_trans; [apply Qfloor_le|].
    change (inject_Z 36) with (1 * inject_Z 36)%Q at 2.
    apply Qmult_lt_compat_r; [done | exact H1].
Qed.

Lemma charAt_chars i :
  0 <= i < 36 ->
  exists c, charAt chars i = String c EmptyString /\ isCodeChar c = true.
Proof.
  intros Hi. unfold charAt. destruct (Z.leb_spec 0 i); [|lia].
  assert (Z.to_nat i < 36)%nat as Hn by lia.
  destruct (Z.to_nat i) as [|n]; [vm_compute; eauto|].
  do 35 (destruct n as [|n]; [vm_compute; eauto|]). lia.
Qed.

Lemma length_app_string (a b : string) :
  String.length (a +:+ b) = (String.length a + String.length b)%nat.
Proof.
  induction a as [|c a IH]; [done|].
  change (String c a +:+ b) with (String c (a +:+ b)). cbn. by rewrite IH.
Qed.

Lemma allCodeChars_app (a b : string) :
  allCodeChars (a +:+ b) = allCodeChars a && allCodeChars b.
Proof.
  induction a as [|c a IH]; [done|].
  change (String c a +:+ b) with (String c (a +:+ b)). cbn.
  by rewrite IH, andb_assoc.
Qed.

Lemma unit_draws_random r : unit_draws r -> unit_draws (random r).2.
Proof. done. Qed.

Lemma random_in_unit r :
  unit_draws r -> (0 <= (random r).1)%Q /\ ((random r).1 < 1)%Q.
Proof. intros Hr. apply Hr. Qed.

Lemma generateRoomCode_loop_spec n acc r :
  unit_draws r ->
  String.length (generateRoomCode_loop n acc r).1 = (String.length acc + n)%nat
  /\ allCodeChars (generateRoomCode_loop n acc r).1 = allCodeChars acc
  /\ unit_draws (generateRoomCode_loop n acc r).2.
Proof.
  revert acc r. induction n as [|n IH]; intros acc r Hr; cbn [generateRoomCode_loop].
  - cbn. split; [lia|done].
  - destruct (random_in_unit r Hr) as [H0 H1].
    destruct (random r) as [d r'] eqn:Hrand. cbn [fst snd] in *.
    assert (unit_draws r') as Hr' by (by injection Hrand as _ <-).
    destruct (charAt_chars (Qfloor (d * inject_Z 36))) as (c & Hc & Hok);
      [by apply floor_index|].
    change (Z.of_nat (String.length chars)) with 36. rewrite Hc.
    destruct (IH (acc +:+ String c EmptyString) r' Hr') as (Hl & Ha & Hu).
    rewrite Hl, Ha, length_app_string, allCodeChars_app. cbn.
    rewrite Hok. split; [lia|]. split; [|done].
    by rewrite !andb_true_r.
Qed.

Lemma addPlayer_newRoom id username roomCode private r :
  exists player r',
    addPlayer id username (newGameRoom roomCode private) r
    = inr (player,
           mkGameRoom roomCode private [(id, player)] None false 0 16, r')
    /\ pl_id player = id.
Proof.
  unfold addPlayer. cbn [maxPlayers roster newGameRoom JsMap.size length].
  change (16 <=? Z.of_nat 0) with false. cbn [JsMap.set].
  destruct (decide (username = "")); cbn; eauto.
Qed.

(** C4 (amended). Every room code that room creation produces is six
    characters long and made of [A-Z0-9] only.  The directory is not
    consulted when the code is drawn: [createRoom] and a [quickMatch] that
    finds no open room store the new room under the fresh code whatever the
    directory holds, and leave every other code as it was. *)
Theorem roomCode_format :
  (forall r, unit_draws r ->
     String.length (generateRoomCode r).1 = 6%nat
     /\ allCodeChars (generateRoomCode r).1 = true)
  /\ (forall socketId username s,
        let roomCode := (generateRoomCode (rng s)).1 in
        let res := createRoom socketId username s in
        res.1 = AckCreated roomCode socketId
        /\ JsMap.get roomCode (rooms res.2) = Some (length (heap s))
        /\ (exists room, heap res.2 !! length (heap s) = Some room
                         /\ code room = roomCode /\ isPrivate room = true
                         /\ JsMap.keys (roster room) = [socketId])
        /\ (forall c, c ≠ roomCode ->
              JsMap.get c (rooms res.2) = JsMap.get c (rooms s)))
  /\ (forall s,
        firstAvailable (heap s) (rooms s) = None ->
        let roomCode := (generateRoomCode (rng s)).1 in
        let res := findAvailableRoom s in
        res.1 = roomCode
        /\ JsMap.get roomCode (rooms res.2) = Some (length (heap s))
        /\ heap res.2 !! length (heap s) = Some (newGameRoom roomCode false)
        /\ (forall c, c ≠ roomCode ->
              JsMap.get c (rooms res.2) = JsMap.get c (rooms s))).
Proof.
  split; [|split].
  - intros r Hr. unfold generateRoomCode.
    destruct (generateRoomCode_loop_spec 6 "" r Hr) as (Hl & Ha & _).
    by rewrite Hl, Ha.
  - intros sid u s roomCode res. subst res roomCode. unfold createRoom.
    destruct (generateRoomCode (rng s)) as [c r1]. cbn [fst].
    destruct (addPlayer_newRoom sid u c true r1) as (player & r2 & -> & Hid).
    cbn [fst snd rooms heap set_rng set_heap set_rooms set_playerRooms].
    split; [done|]. split; [apply get_set_eq|]. split.
    + eexists. split; [apply list_lookup_middle; done|]. done.
    + intros c' Hc'. apply get_set_ne. congruence.
  - intros s Hnone roomCode res. subst res roomCode. unfold findAvailableRoom.
    rewrite Hnone. destruct (generateRoomCode (rng s)) as [c r1].
    cbn [fst snd rooms heap set_rng set_heap set_rooms].
    split; [done|]. split; [apply get_set_eq|]. split.
    + by apply list_lookup_middle.
    + intros c' Hc'. apply get_set_ne. congruence.
Qed.

Lemma roomCode_format_witness :
  String.length (generateRoomCode zeroDraws).1 = 6%nat
  /\ allCodeChars (generateRoomCode zeroDraws).1 = true.
Proof.
  refine (proj1 roomCode_format zeroDraws _).
  intros n. split; vm_compute; congruence.
Defined.

(** C4, as stated, fails: nothing compares a new code with the live ones.
    When the generator repeats its draws, [createRoom] hands out the code of
    a room that is still in the directory and the directory entry is
    overwritten. *)
Lemma createRoom_reuses_live_code :
  let s1 := (createRoom "s1" "ann" (initialServer zeroDraws)).2 in
  let res := createRoom "s2" "bob" s1 in
  JsMap.get "AAAAAA" (rooms s1) = Some 0%nat
  /\ res.1 = AckCreated "AAAAAA" "s2"
  /\ JsMap.has "AAAAAA" (rooms s1) = true
  /\ JsMap.get "AAAAAA" (rooms res.2) = Some 1%nat
  /\ JsMap.keys (rooms res.2) = ["AAAAAA"].
Proof. vm_compute. repeat split. Qed.

(** ** The timer queue *)

Lemma earliest_elem ts t : earliest ts = Some t -> t ∈ ts.
Proof.
  revert t. induction ts as [|a ts IH]; intros t; cbn [earliest]; [done|].
  destruct (earliest ts) as [t'|].
  - destruct (t_due t' <? t_due a); intros [= <-].
    + apply list_elem_of_further. by apply IH.
    + apply list_elem_of_here.
  - intros [= <-]. apply list_elem_of_here.
Qed.

Lemma earliest_None ts : earliest ts = None -> ts = [].
Proof.
  destruct ts as [|a ts]; [done|]. cbn [earliest].
  destruct (earliest ts) as [t'|]; [|done]. by destruct (t_due t' <? t_due a).
Qed.

(** The timer that fires next: nothing before it in the queue is due as
    early, nothing after it is due earlier. *)
Lemma earliest_middle pre t post :
  Forall (fun t' => t_due t < t_due t') pre ->
  Forall (fun t' => t_due t <= t_due t') post ->
  earliest (pre ++ t :: post) = Some t.
Proof.
  intros Hpre Hpost. induction Hpre as [|a pre Ha _ IH]; cbn [app earliest].
  - destruct (earliest post) as [t'|] eqn:He; [|done].
    apply earliest_elem in He. rewrite Forall_forall in Hpost.
    specialize (Hpost t' He).
    destruct (Z.ltb_spec (t_due t') (t_due t)); [lia|done].
  - rewrite IH. destruct (Z.ltb_spec (t_due t) (t_due a)); [done|lia].
Qed.

Lemma filter_other_ids (id : nat) ts :
  Forall (fun t => t_id t ≠ id) ts -> filter (fun t => t_id t ≠ id) ts = ts.
Proof.
  induction 1 as [|a ts Ha _ IH]; [done|].
  rewrite filter_cons_True by done. by rewrite IH.
Qed.

Lemma filter_middle (t : Timer) pre post :
  Forall (fun t' => t_id t' ≠ t_id t) pre ->
  Forall (fun t' => t_id t' ≠ t_id t) post ->
  filter (fun t' => t_id t' ≠ t_id t) (pre ++ t :: post) = pre ++ post.
Proof.
  intros Hpre Hpost. rewrite filter_app, filter_cons_False by (intros H; by apply H).
  by rewrite !filter_other_ids.
Qed.

Lemma run_add a b s : run (a + b) s = run b (run a s).
Proof.
  revert s. induction a as [|a IH]; intros s; cbn [run Nat.add]; [done|].
  destruct (step s) as [s'|] eqn:Hs; [apply IH|].
  destruct b as [|b]; [done|]. cbn [run]. by rewrite Hs.
Qed.

Lemma run_1 s s' : step s = Some s' -> run 1 s = s'.
Proof. intros Hs. cbn [run]. by rewrite Hs. Qed.

Lemma milestones_app l1 l2 : milestones (l1 ++ l2) = milestones l1 ++ milestones l2.
Proof. unfold milestones. apply List.filter_app. Qed.

Lemma updatesFor_app c l1 l2 :
  updatesFor c (l1 ++ l2) = updatesFor c l1 ++ updatesFor c l2.
Proof. unfold updatesFor. apply List.filter_app. Qed.

(** One turn that fires a timeout sitting anywhere in the queue. *)
Lemma step_timeout hp rm pr pre t post nid clk rg log :
  t_period t = None ->
  Forall (fun t' => t_due t < t_due t' /\ t_id t' ≠ t_id t) pre ->
  Forall (fun t' => t_due t <= t_due t' /\ t_id t' ≠ t_id t) post ->
  step (mkServer hp rm pr (pre ++ t :: post) nid clk rg log false)
  = Some (runCallback (t_id t) (t_cb t)
            (mkServer hp rm pr (pre ++ post) nid (Z.max clk (t_due t)) rg log
               false)).
Proof.
  intros Hp Hpre Hpost. apply Forall_and in Hpre as [Hpre1 Hpre2].
  apply Forall_and in Hpost as [Hpost1 Hpost2].
  unfold step. cbn [crashed timers clock].
  rewrite (earliest_middle _ _ _ Hpre1 Hpost1).
  unfold rearm. rewrite Hp, (filter_middle _ _ _ Hpre2 Hpost2). done.
Qed.

Lemma earliest_split ts t :
  earliest ts = Some t ->
  exists pre post,
    ts = pre ++ t :: post
    /\ Forall (fun t' => t_due t < t_due t') pre
    /\ Forall (fun t' => t_due t <= t_due t') post.
Proof.
  revert t. induction ts as [|a ts IH]; intros t; cbn [earliest]; [done|].
  destruct (earliest ts) as [t'|] eqn:He.
  - destruct (IH t' eq_refl) as (pre & post & Hts & Hpre & Hpost).
    destruct (Z.ltb_spec (t_due t') (t_due a)); intros [= <-].
    + exists (a :: pre), post. rewrite Hts. split; [done|]. split; [|done].
      by apply Forall_cons.
    + exists [], ts. split; [done|]. split; [apply Forall_nil_2|].
      rewrite Hts. apply Forall_app. split.
      * eapply Forall_impl; [exact Hpre|]. cbn. intros. lia.
      * apply Forall_cons. split; [lia|].
        eapply Forall_impl; [exact Hpost|]. cbn. intros. lia.
  - intros [= <-]. apply earliest_None in He as ->.
    exists [], []. split; [done|]. split; apply Forall_nil_2.
Qed.

Lemma map_other_ids (id : nat) (f : Timer -> Timer) ts :
  Forall (fun t => t_id t ≠ id) ts ->
  map (fun t => if decide (t_id t = id) then f t else t) ts = ts.
Proof.
  induction 1 as [|a ts Ha _ IH]; [done|]. cbn [map].
  rewrite decide_False by done. by rewrite IH.
Qed.

Lemma rearm_interval_middle t period at_time pre post :
  t_period t = Some period ->
  Forall (fun t' => t_id t' ≠ t_id t) pre ->
  Forall (fun t' => t_id t' ≠ t_id t) post ->
  rearm t at_time (pre ++ t :: post)
  = pre ++ mkTimer (t_id t) (at_time + period) (Some period) (t_cb t) :: post.
Proof.
  intros Hp Hpre Hpost. unfold rearm. rewrite Hp, map_app. cbn [map].
  rewrite decide_True by done.
  rewrite (map_other_ids (t_id t)
             (fun t' => mkTimer (t_id t') (at_time + period) (t_period t') (t_cb t')))
    by done.
  rewrite (map_other_ids (t_id t)
             (fun t' => mkTimer (t_id t') (at_time + period) (t_period t') (t_cb t')))
    by done.
  by rewrite Hp.
Qed.

(** One turn that fires an interval sitting anywhere in the queue. *)
Lemma step_interval_middle hp rm pr pre t period post nid clk rg log :
  t_period t = Some period ->
  Forall (fun t' => t_due t < t_due t' /\ t_id t' ≠ t_id t) pre ->
  Forall (fun t' => t_due t <= t_due t' /\ t_id t' ≠ t_id t) post ->
  step (mkServer hp rm pr (pre ++ t :: post) nid clk rg log false)
  = Some (runCallback (t_id t) (t_cb t)
            (mkServer hp rm pr
               (pre ++ mkTimer (t_id t) (Z.max clk (t_due t) + period)
                         (Some period) (t_cb t) :: post)
               nid (Z.max clk (t_due t)) rg log false)).
Proof.
  intros Hp Hpre Hpost. apply Forall_and in Hpre as [Hpre1 Hpre2].
  apply Forall_and in Hpost as [Hpost1 Hpost2].
  unfold step. cbn [crashed timers clock].
  rewrite (earliest_middle _ _ _ Hpre1 Hpost1).
  by rewrite (rearm_interval_middle _ _ _ _ _ Hp Hpre2 Hpost2).
Qed.

(** ** Rooms that have left the directory *)

Lemma updatesFor_snoc_other c log e :
  isUpdateFor c e = false -> updatesFor c (log ++ [e]) = updatesFor c log.
Proof.
  intros He. rewrite updatesFor_app. unfold updatesFor at 2. cbn [List.filter].
  rewrite He. apply app_nil_r.
Qed.

Lemma startGame_absent c roomCode s :
  rooms (startGame roomCode s) = rooms s
  /\ updatesFor c (outbox (startGame roomCode s)) = updatesFor c (outbox s).
Proof.
  unfold startGame.
  destruct (JsMap.get roomCode (rooms s)) as [ref|]; [|done].
  destruct (heap s !! ref) as [room|]; [|done].
  destruct (gameStarted room); [done|].
  destruct (room_startGame room (rng s)) as [room' r']. cbn.
  split; [done|]. by apply updatesFor_snoc_other.
Qed.

Lemma runCallback_absent c self cb s :
  JsMap.has c (rooms s) = false ->
  rooms (runCallback self cb s) = rooms s
  /\ updatesFor c (outbox (runCallback self cb s)) = updatesFor c (outbox s).
Proof.
  intros Habs. destruct cb as [rc|rc ref|rc ref m d|rc m d|rc ref g];
    cbn [runCallback].
  - apply startGame_absent.
  - destruct (JsMap.has rc (rooms s)) eqn:Hrc; cbn [negb]; [|done].
    destruct (roomState ref s) as [gs|]; [|done]. cbn. split; [done|].
    apply updatesFor_snoc_other. unfold isUpdateFor. cbn.
    apply bool_decide_eq_false. intros ->. congruence.
  - destruct (roomState ref s) as [gs|]; [|done]. cbn. split; [done|].
    by apply updatesFor_snoc_other.
  - cbn. split; [done|]. by apply updatesFor_snoc_other.
  - destruct (heap s !! ref) as [room|]; [|done].
    destruct (gameState room) as [gs|]; [|done]. cbn. split; [done|].
    by apply updatesFor_snoc_other.
Qed.

Lemma step_absent c s s' :
  step s = Some s' ->
  JsMap.has c (rooms s) = false ->
  JsMap.has c (rooms s') = false
  /\ updatesFor c (outbox s') = updatesFor c (outbox s).
Proof.
  unfold step. destruct (crashed s); [done|].
  destruct (earliest (timers s)) as [t|]; [|done].
  intros [= <-] Habs.
  destruct (runCallback_absent c (t_id t) (t_cb t)
              (set_timers (rearm t (Z.max (clock s) (t_due t)) (timers s))
                 (set_clock (Z.max (clock s) (t_due t)) s)) Habs) as [Hr Hu].
  by rewrite Hr, Hu.
Qed.

Lemma run_absent c n s :
  JsMap.has c (rooms s) = false ->
  JsMap.has c (rooms (run n s)) = false
  /\ updatesFor c (outbox (run n s)) = updatesFor c (outbox s).
Proof.
  revert s. induction n as [|n IH]; intros s Habs; cbn [run]; [done|].
  destruct (step s) as [s'|] eqn:Hs; [|done].
  destruct (step_absent c s s' Hs Habs) as [Habs' Hu].
  destruct (IH s' Habs') as [Hr Hu']. by rewrite Hr, Hu', Hu.
Qed.

Lemma enterRoom_updates c socketId roomCode username ref room s :
  updatesFor c (outbox (enterRoom socketId roomCode username ref room s).2)
  = updatesFor c (outbox s).
Proof.
  unfold enterRoom.
  destruct (addPlayer socketId username room (rng s))
    as [msg|[[player room'] r']]; [done|].
  destruct (_ && _); cbn; by apply updatesFor_snoc_other.
Qed.

(** The handlers never send a snapshot. *)
Lemma deliver_updates c i s :
  updatesFor c (outbox (deliver i s)) = updatesFor c (outbox s).
Proof.
  unfold deliver. destruct (crashed s); [done|].
  destruct i as [sid u|sid u|sid rc u|sid inp|sid act|sid]; cbn [handle].
  - unfold quickMatch.
    assert (outbox (findAvailableRoom s).2 = outbox s) as Hf.
    { unfold findAvailableRoom.
      destruct (firstAvailable (heap s) (rooms s)); [done|].
      by destruct (generateRoomCode (rng s)). }
    destruct (findAvailableRoom s) as [rc s1]. cbn in Hf.
    destruct (JsMap.get rc (rooms s1)) as [ref|]; [|by rewrite <- Hf].
    destruct (heap s1 !! ref) as [room|]; [|by rewrite <- Hf].
    by rewrite enterRoom_updates, Hf.
  - unfold createRoom. destruct (generateRoomCode (rng s)) as [rc r1].
    by destruct (addPlayer sid u (newGameRoom rc true) r1)
      as [msg|[[player room'] r2]].
  - unfold joinRoom.
    destruct (JsMap.get (toUpperCase rc) (rooms s)) as [ref|]; [|done].
    destruct (heap s !! ref) as [room|]; [|done].
    destruct (16 <=? playerCount room); [done|].
    destruct (gameStarted room); [done|]. apply enterRoom_updates.
  - unfold playerInput. destruct (roomOf sid s) as [rc|]; [|done].
    by destruct (liveGame rc s) as [[[ref room] gs]|].
  - unfold playerAction. destruct (roomOf sid s) as [rc|]; [|done].
    destruct (liveGame rc s) as [[[ref room] gs]|]; [|done].
    destruct (handleAction (clock s) sid act gs) as [[res|] gs']; [|done].
    cbn. by apply updatesFor_snoc_other.
  - unfold disconnect. destruct (roomOf sid s) as [rc|]; [|done].
    destruct (JsMap.get rc (rooms s)) as [ref|]; [|done].
    destruct (heap s !! ref) as [room|]; [|done].
    destruct (_ =? 0); cbn; by apply updatesFor_snoc_other.
Qed.

Lemma absentRun_updates c s s' :
  absentRun c s s' ->
  JsMap.has c (rooms s) = false ->
  JsMap.has c (rooms s') = false
  /\ updatesFor c (outbox s') = updatesFor c (outbox s).
Proof.
  induction 1 as [s|s s1 s2 Hstep _ IH|s i s2 Habs' _ IH]; intros Habs.
  - done.
  - destruct (step_absent c s s1 Hstep Habs) as [Habs1 Hu].
    destruct (IH Habs1) as [Hr Hu']. by rewrite Hu', Hu.
  - destruct (IH Habs') as [Hr Hu']. by rewrite Hu', deliver_updates.
Qed.

Lemma run_absentRun c n s : absentRun c s (run n s).
Proof.
  revert s. induction n as [|n IH]; intros s; cbn [run]; [constructor|].
  destruct (step s) as [s'|] eqn:Hs; [|constructor].
  eapply absent_step; [exact Hs | apply IH].
Qed.

(** C9 (amended). When the disconnect handler removes the last player of a
    room, the room leaves the directory.  No timer is cancelled by that: the
    queue is exactly as before.  From then on, however long the timers run,
    the code stays out of the directory and not one further
    [gameStateUpdate] goes to that room; when the room's broadcast interval
    comes up next it finds the code gone, removes itself from the queue and
    emits nothing.  The same holds when inbound events come in between, as
    long as none of them hands the code out again. *)
Theorem last_player_removal socketId roomCode ref room s :
  roomOf socketId s = Some roomCode ->
  JsMap.get roomCode (rooms s) = Some ref ->
  heap s !! ref = Some room ->
  playerCount (room_removePlayer socketId room) = 0 ->
  let s' := disconnect socketId s in
  JsMap.has roomCode (rooms s') = false
  /\ timers s' = timers s
  /\ (forall n,
        JsMap.has roomCode (rooms (run n s')) = false
        /\ updatesFor roomCode (outbox (run n s'))
           = updatesFor roomCode (outbox s'))
  /\ (forall s'', absentRun roomCode s' s'' ->
        updatesFor roomCode (outbox s'') = updatesFor roomCode (outbox s'))
  /\ (forall hp rm pr g d period r post nid clk rg log,
        JsMap.has roomCode rm = false ->
        Forall (fun t => d <= t_due t /\ t_id t ≠ g) post ->
        step (mkServer hp rm pr
                (mkTimer g d (Some period) (CbTick roomCode r) :: post)
                nid clk rg log false)
        = Some (mkServer hp rm pr post nid (Z.max clk d) rg log false)).
Proof.
  intros Hroom Hget Href Hlast s'.
  assert (JsMap.has roomCode (rooms s') = false /\ timers s' = timers s)
    as [Habs Htimers].
  { subst s'. unfold disconnect. rewrite Hroom, Hget, Href, Hlast.
    cbn. split; [|done]. apply has_false_get, get_delete_eq. }
  split; [done|]. split; [done|]. split; [|split].
  - intros n. by apply run_absent.
  - intros s'' Hrun. by apply (absentRun_updates roomCode s' s'').
  - intros hp rm pr g d period r post nid clk rg log Hrm Hpost.
    pose proof (step_interval_middle hp rm pr []
                  (mkTimer g d (Some period) (CbTick roomCode r)) period post
                  nid clk rg log eq_refl (Forall_nil_2 _) Hpost) as Hstep.
    cbn [app] in Hstep. rewrite Hstep.
    cbn [runCallback t_cb t_id t_due rooms]. rewrite Hrm. cbn [negb].
    unfold clearInterval. cbn [timers set_timers].
    rewrite filter_cons_False by (cbn; intros H; by apply H).
    rewrite filter_other_ids; [done|].
    eapply Forall_impl; [exact Hpost|]. by intros t [_ Ht].
Qed.

Lemma last_player_removal_witness :
  JsMap.has "AAAAAA" (rooms (disconnect "b" (disconnect "a" demoStarted))) = false
  /\ forall n,
       updatesFor "AAAAAA" (outbox (run n (disconnect "b" (disconnect "a" demoStarted))))
       = updatesFor "AAAAAA" (outbox (disconnect "b" (disconnect "a" demoStarted))).
Proof.
  destruct (last_player_removal "b" "AAAAAA" 0%nat
              (default (newGameRoom "" false) (heap (disconnect "a" demoStarted) !! 0%nat))
              (disconnect "a" demoStarted))
    as (Habs & _ & Hrun & _ & _); try (vm_compute; reflexivity).
  split; [exact Habs|]. intros n. apply Hrun.
Defined.

(** C9, as stated, fails: the last removal cancels nothing.  After both
    players of a running game have gone the four timers of the room are
    still queued, and the end of the race round is announced to the room at
    its appointed time. *)
Lemma timers_survive_last_removal :
  JsMap.has "AAAAAA" (rooms demoStarted) = true
  /\ JsMap.has "AAAAAA" (rooms demoDeserted) = false
  /\ timers demoDeserted = timers demoStarted
  /\ length (timers demoDeserted) = 4%nat
  /\ last (outbox (run 2 demoDeserted))
     = Some (mkEmission 123000 "AAAAAA" None (EvRoundEnd [])).
Proof. vm_compute. repeat split. Qed.

(** ** The round timeline *)

Lemma tickPeriod_pos : 0 < tickPeriod.
Proof. by vm_compute. Qed.

Lemma milestones_snoc_update log t c snap :
  milestones (log ++ [mkEmission t c None (EvGameStateUpdate snap)])
  = milestones log.
Proof. rewrite milestones_app. cbn. apply app_nil_r. Qed.

Lemma dueAfter_all m ts :
  Forall (fun t => m < t_due t) ts -> dueAfter m ts = ts.
Proof.
  unfold dueAfter. induction 1 as [|a ts Ha _ IH]; [done|].
  rewrite filter_cons_True by done. by rewrite IH.
Qed.

Lemma dueAfter_elem m ts t : t ∈ dueAfter m ts <-> m < t_due t /\ t ∈ ts.
Proof. unfold dueAfter. apply (list_elem_of_filter (fun t => m < t_due t)). Qed.

Lemma dueAfter_later m1 m2 ts :
  m1 <= m2 -> dueAfter m2 (dueAfter m1 ts) = dueAfter m2 ts.
Proof.
  intros Hm. unfold dueAfter. induction ts as [|a ts IH]; [done|].
  destruct (decide (m1 < t_due a)).
  - rewrite (filter_cons_True (fun t => m1 < t_due t)) by done.
    destruct (decide (m2 < t_due a)).
    + rewrite !(filter_cons_True (fun t => m2 < t_due t)) by done. by rewrite IH.
    + rewrite !(filter_cons_False (fun t => m2 < t_due t)) by done. exact IH.
  - rewrite (filter_cons_False (fun t => m1 < t_due t)) by done.
    rewrite (filter_cons_False (fun t => m2 < t_due t)) by lia. exact IH.
Qed.

Lemma Forall_dueAfter (P : Timer -> Prop) m ts :
  Forall P ts -> Forall P (dueAfter m ts).
Proof.
  rewrite !Forall_forall. intros H t [_ Ht]%dueAfter_elem. by apply H.
Qed.

Lemma Forall_dueAfter_due m ts : Forall (fun t => m < t_due t) (dueAfter m ts).
Proof. rewrite Forall_forall. by intros t [Ht _]%dueAfter_elem. Qed.

Lemma NoDup_ids_dueAfter m ts :
  NoDup (t_id <$> ts) -> NoDup (t_id <$> dueAfter m ts).
Proof.
  unfold dueAfter. induction ts as [|a ts IH]; [done|].
  rewrite fmap_cons, NoDup_cons. intros [Ha Hts].
  destruct (decide (m < t_due a)).
  - rewrite filter_cons_True, fmap_cons, NoDup_cons by done.
    split; [|by apply IH].
    intros (t & Hid & [_ Ht]%list_elem_of_filter)%list_elem_of_fmap.
    apply Ha. rewrite Hid. by apply list_elem_of_fmap_2.
  - rewrite filter_cons_False by done. by apply IH.
Qed.

Lemma quietQueue_dueAfter hp rm g m ts :
  quietQueue hp rm g ts -> quietQueue hp rm g (dueAfter m ts).
Proof.
  intros (Hi & Hn & Hg). split; [|split].
  - by apply Forall_dueAfter.
  - by apply NoDup_ids_dueAfter.
  - by apply Forall_dueAfter.
Qed.

Lemma quietQueue_remove hp rm g pre t post :
  quietQueue hp rm g (pre ++ t :: post) ->
  quietQueue hp rm g (pre ++ post)
  /\ inertLobby hp rm t /\ (t_id t < g)%nat
  /\ Forall (fun t' => t_id t' ≠ t_id t) pre
  /\ Forall (fun t' => t_id t' ≠ t_id t) post.
Proof.
  intros (Hi & Hn & Hg).
  apply Forall_app in Hi as [Hi1 [Hit Hi2]%Forall_cons].
  apply Forall_app in Hg as [Hg1 [Hgt Hg2]%Forall_cons].
  rewrite fmap_app, fmap_cons in Hn.
  apply NoDup_app in Hn as (Hn1 & Hn12 & [Hn2t Hn2]%NoDup_cons).
  split; [split; [|split]|split; [done|split; [done|split]]].
  - by apply Forall_app.
  - rewrite fmap_app. apply NoDup_app. split; [done|]. split; [|done].
    intros x Hx Hx'. apply (Hn12 x Hx). by apply list_elem_of_further.
  - by apply Forall_app.
  - rewrite Forall_forall. intros t' Ht' Heq.
    apply (Hn12 (t_id t')); [by apply list_elem_of_fmap_2|].
    rewrite Heq. apply list_elem_of_here.
  - rewrite Forall_forall. intros t' Ht' Heq. apply Hn2t.
    rewrite <- Heq. by apply list_elem_of_fmap_2.
Qed.

Section Timeline.
Context (hp : list GameRoom) (rm : list (string * nat))
  (pr : gmap string string) (rg : Rand).
Context (roomCode : string) (ref : nat) (room : GameRoom) (gs : GameState).
Hypothesis Hget : JsMap.get roomCode rm = Some ref.
Hypothesis Href : hp !! ref = Some room.
Hypothesis Hgs : gameState room = Some gs.

(** A lobby timeout that has nothing left to do just leaves the queue. *)
Lemma step_lobby pre t post nid clk log :
  inertLobby hp rm t ->
  Forall (fun t' => t_due t < t_due t' /\ t_id t' ≠ t_id t) pre ->
  Forall (fun t' => t_due t <= t_due t' /\ t_id t' ≠ t_id t) post ->
  step (mkServer hp rm pr (pre ++ t :: post) nid clk rg log false)
  = Some (mkServer hp rm pr (pre ++ post) nid (Z.max clk (t_due t)) rg log
            false).
Proof.
  intros (Hp & c & Hcb & Hin) Hpre Hpost. rewrite step_timeout by done.
  rewrite Hcb. cbn [runCallback]. unfold startGame. cbn [rooms heap].
  destruct (JsMap.get c rm) as [r|] eqn:Hc; [|done].
  destruct (hp !! r) as [room'|] eqn:Hr; [|done].
  by rewrite (Hin r room' eq_refl Hr).
Qed.

(** A broadcast tick: the snapshot of the room goes out and the interval is
    due again one period later. *)
Lemma step_tick pre g d post nid clk log :
  clk <= d ->
  Forall (fun t => d < t_due t /\ t_id t ≠ g) pre ->
  Forall (fun t => d <= t_due t /\ t_id t ≠ g) post ->
  step (mkServer hp rm pr (pre ++ tickTimer roomCode ref g d :: post) nid clk
          rg log false)
  = Some (mkServer hp rm pr
            (pre ++ tickTimer roomCode ref g (d + tickPeriod) :: post) nid d rg
            (log ++ [updateOf roomCode gs d]) false).
Proof.
  intros Hclk Hpre Hpost. unfold tickTimer, updateOf.
  rewrite (step_interval_middle _ _ _ _ _ tickPeriod) by done.
  cbn [runCallback t_cb t_id t_due t_period rooms].
  unfold JsMap.has. rewrite Hget. cbn [negb].
  unfold roomState. cbn [heap]. rewrite Href, Hgs.
  rewrite Z.max_r by lia. done.
Qed.

(** Everything that happens up to a given instant [m] when the rest of the
    queue is not due before [m]: the ticks of the room's interval, and the
    idle lobby timeouts in front of it. *)
Lemma run_ticks_until m g post nid :
  Forall (fun t => m <= t_due t /\ (g < t_id t)%nat) post ->
  forall fuel noise d clk log,
    quietQueue hp rm g noise ->
    (length noise + Z.to_nat (m + 1 - d) <= fuel)%nat ->
    clk <= d ->
    exists k d' clk' log',
      run k (mkServer hp rm pr (noise ++ tickTimer roomCode ref g d :: post)
               nid clk rg log false)
      = mkServer hp rm pr
          (dueAfter m noise ++ tickTimer roomCode ref g d' :: post)
          nid clk' rg log' false
      /\ m < d' /\ d' <= Z.max d (m + tickPeriod)
      /\ clk' <= d' /\ (clk <= m -> clk' <= m)
      /\ milestones log' = milestones log.
Proof.
  intros Hpost. pose proof tickPeriod_pos as Hp.
  assert (forall noise d clk log,
            m < d -> Forall (fun t => m < t_due t) noise -> clk <= d ->
            exists k d' clk' log',
              run k (mkServer hp rm pr
                       (noise ++ tickTimer roomCode ref g d :: post)
                       nid clk rg log false)
              = mkServer hp rm pr
                  (dueAfter m noise ++ tickTimer roomCode ref g d' :: post)
                  nid clk' rg log' false
              /\ m < d' /\ d' <= Z.max d (m + tickPeriod)
              /\ clk' <= d' /\ (clk <= m -> clk' <= m)
              /\ milestones log' = milestones log) as Hstop.
  { intros noise d clk log Hd Hnoise Hclk. exists 0%nat, d, clk, log.
    cbn [run]. rewrite dueAfter_all by done. repeat split; [lia|lia|lia|done]. }
  induction fuel as [|fuel IH]; intros noise d clk log Hq Hfuel Hclk.
  { destruct noise; [|cbn in Hfuel; lia]. apply Hstop; [lia|done|done]. }
  assert (Forall (fun t => d < t_due t) noise -> d <= m ->
          exists k d' clk' log',
            run k (mkServer hp rm pr
                     (noise ++ tickTimer roomCode ref g d :: post)
                     nid clk rg log false)
            = mkServer hp rm pr
                (dueAfter m noise ++ tickTimer roomCode ref g d' :: post)
                nid clk' rg log' false
            /\ m < d' /\ d' <= Z.max d (m + tickPeriod)
            /\ clk' <= d' /\ (clk <= m -> clk' <= m)
            /\ milestones log' = milestones log) as Htick.
  { intros Hnoise Hdm.
    destruct (IH noise (d + tickPeriod) d (log ++ [updateOf roomCode gs d]) Hq)
      as (k & d' & clk' & log' & Hrun & Hd' & Hub & Hc1 & Hc2 & Hm); [lia|lia|].
    exists (S k), d', clk', log'. cbn [run]. rewrite step_tick; [|done| |].
    - rewrite Hrun. repeat split; [lia|lia|lia|lia|].
      rewrite Hm. apply milestones_snoc_update.
    - destruct Hq as (_ & _ & Hg). rewrite Forall_forall in Hnoise, Hg.
      rewrite Forall_forall. intros t Ht.
      specialize (Hnoise t Ht). specialize (Hg t Ht). cbn beta in *. lia.
    - eapply Forall_impl; [exact Hpost|]. cbn. intros t ?. lia. }
  destruct (earliest noise) as [L|] eqn:He.
  - apply earliest_split in He as (n1 & n2 & -> & Hn1 & Hn2).
    destruct (quietQueue_remove _ _ _ _ _ _ Hq)
      as (Hq' & HL & HLg & Hid1 & Hid2).
    destruct (Z_le_gt_dec (t_due L) d) as [HLd|HLd];
      [destruct (Z_le_gt_dec (t_due L) m) as [HLm|HLm]|].
    + destruct (IH (n1 ++ n2) d (Z.max clk (t_due L)) log Hq')
        as (k & d' & clk' & log' & Hrun & Hd' & Hub & Hc1 & Hc2 & Hm);
        [rewrite length_app in *; cbn [length] in *; lia | lia |].
      exists (S k), d', clk', log'. cbn [run].
      rewrite <- app_assoc. cbn [app].
      rewrite (step_lobby n1 L (n2 ++ tickTimer roomCode ref g d :: post));
        [|done| |].
      * rewrite app_assoc, Hrun.
        unfold dueAfter. rewrite !filter_app, filter_cons_False by lia.
        repeat split; [lia|lia|lia|lia|done].
      * rewrite Forall_forall in Hn1, Hid1. rewrite Forall_forall.
        intros t Ht. split; [by apply Hn1 | by apply Hid1].
      * apply Forall_app. split.
        -- rewrite Forall_forall in Hn2, Hid2. rewrite Forall_forall.
           intros t Ht. split; [by apply Hn2 | by apply Hid2].
        -- apply Forall_cons. split; [cbn; lia|].
           eapply Forall_impl; [exact Hpost|]. cbn. intros t ?. lia.
    + apply Hstop; [lia| |done]. apply Forall_app. split.
      * eapply Forall_impl; [exact Hn1|]. cbn. intros. lia.
      * apply Forall_cons. split; [lia|].
        eapply Forall_impl; [exact Hn2|]. cbn. intros. lia.
    + assert (Forall (fun t => t_due L <= t_due t) (n1 ++ L :: n2)) as Hall.
      { apply Forall_app. split.
        - eapply Forall_impl; [exact Hn1|]. cbn. intros. lia.
        - apply Forall_cons. split; [lia|done]. }
      destruct (Z_le_gt_dec d m) as [Hdm|Hdm].
      * apply Htick; [|done].
        eapply Forall_impl; [exact Hall|]. cbn. intros. lia.
      * apply Hstop; [lia| |done].
        eapply Forall_impl; [exact Hall|]. cbn. intros. lia.
  - apply earliest_None in He as ->.
    destruct (Z_le_gt_dec d m) as [Hdm|Hdm].
    + by apply Htick.
    + apply Hstop; [lia|done|done].
Qed.

(** The end of a round: the sorted scores go out and the next round is
    announced three seconds later. *)
Lemma step_roundEnd pre i m next duration post nid clk log :
  clk <= m ->
  Forall (fun t => m < t_due t /\ t_id t ≠ i) pre ->
  Forall (fun t => m <= t_due t /\ t_id t ≠ i) post ->
  step (mkServer hp rm pr
          (pre ++ mkTimer i m None (CbRoundEnd roomCode ref next duration) :: post)
          nid clk rg log false)
  = Some (mkServer hp rm pr
            ((pre ++ post)
             ++ [mkTimer nid (m + 3000) None (CbRoundStart roomCode next duration)])
            (S nid) m rg
            (log ++ [mkEmission m roomCode None (EvRoundEnd (getScores gs))])
            false).
Proof.
  intros Hclk Hpre Hpost. rewrite step_timeout by done.
  cbn [runCallback t_cb t_id t_due]. unfold roomState. cbn [heap].
  rewrite Href, Hgs. rewrite Z.max_r by lia. done.
Qed.

Lemma step_roundStart pre i m mode duration post nid clk log :
  clk <= m ->
  Forall (fun t => m < t_due t /\ t_id t ≠ i) pre ->
  Forall (fun t => m <= t_due t /\ t_id t ≠ i) post ->
  step (mkServer hp rm pr
          (pre ++ mkTimer i m None (CbRoundStart roomCode mode duration) :: post)
          nid clk rg log false)
  = Some (mkServer hp rm pr (pre ++ post) nid m rg
            (log ++ [mkEmission m roomCode None (EvRoundStart mode duration)])
            false).
Proof.
  intros Hclk Hpre Hpost. rewrite step_timeout by done.
  cbn [runCallback t_cb t_id t_due]. rewrite Z.max_r by lia. done.
Qed.

(** The end of the game: final scores, the interval is cleared, the room
    goes back to the lobby state. *)
Lemma step_gameEnd noise g d i m nid clk log :
  clk <= m -> m < d -> (g < i)%nat ->
  Forall (fun t => m < t_due t /\ (t_id t < g)%nat) noise ->
  step (mkServer hp rm pr
          (noise ++ [tickTimer roomCode ref g d;
                     mkTimer i m None (CbGameEnd roomCode ref g)])
          nid clk rg log false)
  = Some (mkServer (<[ref := endGame room]> hp) rm pr noise nid m rg
            (log ++ [mkEmission m roomCode None (EvGameEnd (getFinalScores gs))])
            false).
Proof.
  intros Hclk Hd Hne Hnoise.
  pose proof (step_timeout hp rm pr (noise ++ [tickTimer roomCode ref g d])
                (mkTimer i m None (CbGameEnd roomCode ref g)) [] nid clk rg log
                eq_refl) as Hstep.
  rewrite <- app_assoc in Hstep. cbn [app] in Hstep. rewrite Hstep.
  - cbn [runCallback t_cb t_id t_due app heap]. rewrite Href, Hgs.
    rewrite Z.max_r by lia. unfold clearInterval.
    cbn [timers set_timers emit heap].
    rewrite app_nil_r, filter_app, filter_cons_False
      by (cbn; intros H; by apply H).
    rewrite filter_nil, app_nil_r, filter_other_ids; [done|].
    eapply Forall_impl; [exact Hnoise|]. cbn. intros t ?. lia.
  - apply Forall_app. split.
    + eapply Forall_impl; [exact Hnoise|]. cbn. intros t ?. lia.
    + queue_ok.
  - apply Forall_nil_2.
Qed.

Lemma quiet_side g m i noise :
  quietQueue hp rm g noise -> (g <= i)%nat ->
  Forall (fun t => m < t_due t /\ t_id t ≠ i) (dueAfter m noise).
Proof.
  intros (_ & _ & Hg) Hi. rewrite Forall_forall in Hg. rewrite Forall_forall.
  intros t [Hd Ht]%dueAfter_elem. specialize (Hg t Ht). cbn beta in *. lia.
Qed.

(** From the start of the game to the moment the build round has been
    announced. *)
Lemma timeline_to_build noise g t0 log :
  quietQueue hp rm g noise ->
  exists n d log',
    run n (mkServer hp rm pr
             (noise ++
              [tickTimer roomCode ref g (t0 + tickPeriod);
               mkTimer (S g) (t0 + 120000) None (CbRoundEnd roomCode ref build 180);
               mkTimer (S (S g)) (t0 + 303000) None
                 (CbRoundEnd roomCode ref battle 150);
               mkTimer (S (S (S g))) (t0 + 456000) None (CbGameEnd roomCode ref g)])
             (S (S (S (S g)))) t0 rg log false)
    = mkServer hp rm pr
        (dueAfter (t0 + 123000) noise ++
         [tickTimer roomCode ref g d;
          mkTimer (S (S g)) (t0 + 303000) None (CbRoundEnd roomCode ref battle 150);
          mkTimer (S (S (S g))) (t0 + 456000) None (CbGameEnd roomCode ref g)])
        (S (S (S (S (S g))))) (t0 + 123000) rg
        (log' ++ [mkEmission (t0 + 123000) roomCode None (EvRoundStart build 180)])
        false
    /\ t0 + 123000 < d <= t0 + 123000 + tickPeriod
    /\ milestones log'
       = milestones log
         ++ [mkEmission (t0 + 120000) roomCode None (EvRoundEnd (getScores gs))].
Proof.
  intros Hq. pose proof tickPeriod_pos as Hp.
  set (roundEnd1 := mkTimer (S g) (t0 + 120000) None
                      (CbRoundEnd roomCode ref build 180)).
  set (roundEnd2 := mkTimer (S (S g)) (t0 + 303000) None
                      (CbRoundEnd roomCode ref battle 150)).
  set (finish := mkTimer (S (S (S g))) (t0 + 456000) None
                   (CbGameEnd roomCode ref g)).
  set (announce := mkTimer (S (S (S (S g)))) (t0 + 120000 + 3000) None
                     (CbRoundStart roomCode build 180)).
  destruct (run_ticks_until (t0 + 120000) g [roundEnd1; roundEnd2; finish]
              (S (S (S (S g)))) ltac:(queue_ok) _ noise (t0 + tickPeriod) t0 log
              Hq (le_n _) ltac:(lia))
    as (k1 & d1 & clk1 & log1 & Hrun1 & Hd1 & Hub1 & Hc1 & Hc1' & Hm1).
  pose proof (quietQueue_dueAfter _ _ _ (t0 + 120000) _ Hq) as Hq1.
  destruct (run_ticks_until (t0 + 123000) g [roundEnd2; finish; announce]
              (S (S (S (S (S g))))) ltac:(queue_ok) _
              (dueAfter (t0 + 120000) noise) d1 (t0 + 120000)
              (log1 ++ [mkEmission (t0 + 120000) roomCode None
                          (EvRoundEnd (getScores gs))])
              Hq1 (le_n _) ltac:(lia))
    as (k2 & d2 & clk2 & log2 & Hrun2 & Hd2 & Hub2 & Hc2 & Hc2' & Hm2).
  rewrite dueAfter_later in Hrun2 by lia.
  exists (k1 + (1 + (k2 + 1)))%nat, d2, log2.
  rewrite !run_add, Hrun1.
  pose proof (step_roundEnd
                (dueAfter (t0 + 120000) noise ++ [tickTimer roomCode ref g d1])
                (S g) (t0 + 120000) build 180
                [roundEnd2; finish] (S (S (S (S g)))) clk1 log1 ltac:(lia)) as Hs1.
  rewrite <- !app_assoc in Hs1. cbn [app] in Hs1.
  fold roundEnd1 in Hs1. fold announce in Hs1.
  rewrite (run_1 _ _ (Hs1 ltac:(apply Forall_app; split;
                                  [apply (quiet_side g); [done|lia] | queue_ok])
                          ltac:(queue_ok))).
  rewrite Hrun2.
  pose proof (step_roundStart
                (dueAfter (t0 + 123000) noise
                 ++ [tickTimer roomCode ref g d2; roundEnd2; finish])
                (S (S (S (S g)))) (t0 + 120000 + 3000) build 180 []
                (S (S (S (S (S g))))) clk2 log2 ltac:(lia)) as Hs2.
  rewrite <- !app_assoc in Hs2. cbn [app] in Hs2. fold announce in Hs2.
  replace (t0 + 120000 + 3000) with (t0 + 123000) in * by lia.
  rewrite (run_1 _ _ (Hs2 ltac:(apply Forall_app; split;
                                  [apply (quiet_side g); [done|lia] | queue_ok])
                          ltac:(queue_ok))).
  split; [reflexivity|]. split; [lia|].
  rewrite Hm2, milestones_app. by rewrite Hm1.
Qed.

(** From there to the end of the game. *)
Lemma timeline_from_build noise g t0 d nid log :
  quietQueue hp rm g noise ->
  t0 + 123000 < d -> (S (S (S g)) < nid)%nat ->
  exists n log',
    run n (mkServer hp rm pr
             (noise ++
              [tickTimer roomCode ref g d;
               mkTimer (S (S g)) (t0 + 303000) None
                 (CbRoundEnd roomCode ref battle 150);
               mkTimer (S (S (S g))) (t0 + 456000) None (CbGameEnd roomCode ref g)])
             nid (t0 + 123000) rg log false)
    = mkServer (<[ref := endGame room]> hp) rm pr (dueAfter (t0 + 456000) noise)
        (S nid) (t0 + 456000) rg log' false
    /\ milestones log'
       = milestones log
         ++ [mkEmission (t0 + 303000) roomCode None (EvRoundEnd (getScores gs));
             mkEmission (t0 + 306000) roomCode None (EvRoundStart battle 150);
             mkEmission (t0 + 456000) roomCode None
               (EvGameEnd (getFinalScores gs))].
Proof.
  intros Hq Hd Hnid. pose proof tickPeriod_pos as Hp.
  set (roundEnd2 := mkTimer (S (S g)) (t0 + 303000) None
                      (CbRoundEnd roomCode ref battle 150)).
  set (finish := mkTimer (S (S (S g))) (t0 + 456000) None
                   (CbGameEnd roomCode ref g)).
  set (announce := mkTimer nid (t0 + 303000 + 3000) None
                     (CbRoundStart roomCode battle 150)).
  destruct (run_ticks_until (t0 + 303000) g [roundEnd2; finish] nid
              ltac:(queue_ok) _ noise d (t0 + 123000) log Hq (le_n _) ltac:(lia))
    as (k1 & d1 & clk1 & log1 & Hrun1 & Hd1 & Hub1 & Hc1 & Hc1' & Hm1).
  pose proof (quietQueue_dueAfter _ _ _ (t0 + 303000) _ Hq) as Hq1.
  destruct (run_ticks_until (t0 + 306000) g [finish; announce] (S nid)
              ltac:(queue_ok) _ (dueAfter (t0 + 303000) noise) d1 (t0 + 303000)
              (log1 ++ [mkEmission (t0 + 303000) roomCode None
                          (EvRoundEnd (getScores gs))])
              Hq1 (le_n _) ltac:(lia))
    as (k2 & d2 & clk2 & log2 & Hrun2 & Hd2 & Hub2 & Hc2 & Hc2' & Hm2).
  rewrite dueAfter_later in Hrun2 by lia.
  pose proof (quietQueue_dueAfter _ _ _ (t0 + 306000) _ Hq) as Hq2.
  destruct (run_ticks_until (t0 + 456000) g [finish] (S nid)
              ltac:(queue_ok) _ (dueAfter (t0 + 306000) noise) d2
              (t0 + 303000 + 3000)
              (log2 ++ [mkEmission (t0 + 303000 + 3000) roomCode None
                          (EvRoundStart battle 150)])
              Hq2 (le_n _) ltac:(lia))
    as (k3 & d3 & clk3 & log3 & Hrun3 & Hd3 & Hub3 & Hc3 & Hc3' & Hm3).
  rewrite dueAfter_later in Hrun3 by lia.
  exists (k1 + (1 + (k2 + (1 + (k3 + 1)))))%nat.
  exists (log3 ++ [mkEmission (t0 + 456000) roomCode None
                     (EvGameEnd (getFinalScores gs))]).
  rewrite !run_add, Hrun1.
  pose proof (step_roundEnd
                (dueAfter (t0 + 303000) noise ++ [tickTimer roomCode ref g d1])
                (S (S g)) (t0 + 303000) battle 150
                [finish] nid clk1 log1 ltac:(lia)) as Hs1.
  rewrite <- !app_assoc in Hs1. cbn [app] in Hs1.
  fold roundEnd2 in Hs1. fold announce in Hs1.
  rewrite (run_1 _ _ (Hs1 ltac:(apply Forall_app; split;
                                  [apply (quiet_side g); [done|lia] | queue_ok])
                          ltac:(queue_ok))).
  rewrite Hrun2.
  pose proof (step_roundStart
                (dueAfter (t0 + 306000) noise
                 ++ [tickTimer roomCode ref g d2; finish])
                nid (t0 + 303000 + 3000) battle 150 [] (S nid) clk2 log2
                ltac:(lia)) as Hs2.
  rewrite <- !app_assoc in Hs2. cbn [app] in Hs2. fold announce in Hs2.
  replace (t0 + 303000 + 3000) with (t0 + 306000) in * by lia.
  rewrite (run_1 _ _ (Hs2 ltac:(apply Forall_app; split;
                                  [apply (quiet_side g); [done|lia] | queue_ok])
                          ltac:(queue_ok))).
  rewrite Hrun3.
  pose proof (step_gameEnd (dueAfter (t0 + 456000) noise) g d3 (S (S (S g)))
                (t0 + 456000) (S nid) clk3 log3
                ltac:(lia) ltac:(lia) ltac:(lia)) as Hs3.
  fold finish in Hs3.
  rewrite (run_1 _ _ (Hs3 ltac:(destruct Hq as (_ & _ & Hg);
                                rewrite Forall_forall in Hg;
                                rewrite Forall_forall;
                                intros t [? Ht]%dueAfter_elem;
                                specialize (Hg t Ht); cbn beta in *; lia))).
  split; [reflexivity|].
  rewrite milestones_app, Hm3, milestones_app, Hm2, milestones_app, Hm1.
  cbn. rewrite <- !app_assoc. reflexivity.
Qed.

End Timeline.

(** The state right after [startGame]. *)
Lemma startGame_fresh roomCode ref room s :
  crashed s = false ->
  JsMap.get roomCode (rooms s) = Some ref ->
  heap s !! ref = Some room ->
  gameStarted room = false ->
  let gs := (newGameState (roster room) (rng s)).1 in
  let g := nextTimerId s in
  let t0 := clock s in
  startGame roomCode s
  = mkServer
      (<[ref := mkGameRoom (code room) (isPrivate room) (roster room) (Some gs)
                  true 1 (maxPlayers room)]> (heap s))
      (rooms s) (playerRooms s)
      (timers s ++
       [tickTimer roomCode ref g (t0 + tickPeriod);
        mkTimer (S g) (t0 + 120000) None (CbRoundEnd roomCode ref build 180);
        mkTimer (S (S g)) (t0 + 303000) None (CbRoundEnd roomCode ref battle 150);
        mkTimer (S (S (S g))) (t0 + 456000) None (CbGameEnd roomCode ref g)])
      (S (S (S (S g)))) t0 (newGameState (roster room) (rng s)).2
      (outbox s ++ [mkEmission t0 roomCode None (EvRoundStart race 120)])
      false.
Proof.
  intros Hc Hget Href Hstarted gs g t0. subst gs g t0.
  unfold startGame. rewrite Hget, Href, Hstarted.
  unfold room_startGame. rewrite Hstarted.
  destruct (newGameState (roster room) (rng s)) as [gs r'].
  destruct s. cbn in *. subst. rewrite <- !app_assoc. reflexivity.
Qed.

Lemma currentMode_newGameState ps r : currentMode (newGameState ps r).1 = race.
Proof.
  unfold newGameState. by destruct (generateCoins r).
Qed.

(** Once the room is started, the lobby timeouts that were pending have
    nothing left to do. *)
Lemma onlyLobbies_quiet roomCode ref room1 s :
  onlyLobbies roomCode s ->
  JsMap.get roomCode (rooms s) = Some ref ->
  (ref < length (heap s))%nat ->
  gameStarted room1 = true ->
  quietQueue (<[ref := room1]> (heap s)) (rooms s) (nextTimerId s) (timers s).
Proof.
  intros (Hl & Hn & Hg) Hget Hlen Hstarted. split; [|done].
  eapply Forall_impl; [exact Hl|]. cbn beta.
  intros t (Hp & c & Hcb & Hc). split; [done|]. exists c. split; [done|].
  intros r room' Hr Hroom'.
  destruct (decide (r = ref)) as [->|Hne].
  - rewrite list_lookup_insert_eq in Hroom' by done. by injection Hroom' as <-.
  - rewrite list_lookup_insert_ne in Hroom' by done.
    destruct Hc as [->|Hc]; [congruence|]. by eapply Hc.
Qed.

(** X1. The timeline of a room left to itself.  For every room that is started
    at time [t0], when nothing else is
    pending than lobby timeouts left by further joins into it (or into rooms
    that have started or gone since), the timers run their course and the
    round events sent to the room are, in this order and at these instants:
    the race round at [t0], the end of the race at [t0 + 120000], the build
    round at [t0 + 123000], the end of the build at [t0 + 303000], the
    battle round at [t0 + 306000] and the end of the game at
    [t0 + 456000]; by then the room's own timers have all left the queue.
    No other round event is sent in between. *)
Theorem round_timeline_undisturbed roomCode ref room s :
  crashed s = false ->
  onlyLobbies roomCode s ->
  JsMap.get roomCode (rooms s) = Some ref ->
  heap s !! ref = Some room ->
  gameStarted room = false ->
  let t0 := clock s in
  let gs := (newGameState (roster room) (rng s)).1 in
  exists n,
    milestones (outbox (run n (startGame roomCode s)))
    = milestones (outbox s)
      ++ [mkEmission t0 roomCode None (EvRoundStart race 120);
          mkEmission (t0 + 120000) roomCode None (EvRoundEnd (getScores gs));
          mkEmission (t0 + 123000) roomCode None (EvRoundStart build 180);
          mkEmission (t0 + 303000) roomCode None (EvRoundEnd (getScores gs));
          mkEmission (t0 + 306000) roomCode None (EvRoundStart battle 150);
          mkEmission (t0 + 456000) roomCode None (EvGameEnd (getFinalScores gs))]
    /\ timers (run n (startGame roomCode s)) = dueAfter (t0 + 456000) (timers s)
    /\ clock (run n (startGame roomCode s)) = t0 + 456000.
Proof.
  intros Hc Hl Hget Href Hstarted t0 gs.
  rewrite (startGame_fresh _ _ _ _ Hc Hget Href Hstarted). fold t0. fold gs.
  set (room1 := mkGameRoom (code room) (isPrivate room) (roster room) (Some gs)
                  true 1 (maxPlayers room)).
  assert (ref < length (heap s))%nat as Hlen by (by eapply lookup_lt_Some).
  assert (<[ref := room1]> (heap s) !! ref = Some room1) as Href1
    by (by apply list_lookup_insert_eq).
  pose proof (onlyLobbies_quiet roomCode ref room1 s Hl Hget Hlen eq_refl) as Hq.
  destruct (timeline_to_build _ (rooms s) (playerRooms s)
              (newGameState (roster room) (rng s)).2 roomCode ref room1 gs
              Hget Href1 eq_refl (timers s) (nextTimerId s) t0
              (outbox s ++ [mkEmission t0 roomCode None (EvRoundStart race 120)])
              Hq)
    as (n1 & d & log1 & Hrun1 & Hd & Hm1).
  destruct (timeline_from_build _ (rooms s) (playerRooms s)
              (newGameState (roster room) (rng s)).2 roomCode ref room1 gs
              Hget Href1 eq_refl (dueAfter (t0 + 123000) (timers s))
              (nextTimerId s) t0 d
              (S (S (S (S (S (nextTimerId s))))))
              (log1 ++ [mkEmission (t0 + 123000) roomCode None
                          (EvRoundStart build 180)])
              ltac:(by apply quietQueue_dueAfter) ltac:(lia) ltac:(lia))
    as (n2 & log2 & Hrun2 & Hm2).
  rewrite dueAfter_later in Hrun2 by lia.
  exists (n1 + n2)%nat. rewrite run_add, Hrun1, Hrun2.
  cbn [outbox timers clock]. split; [|done].
  rewrite Hm2, milestones_app, Hm1, milestones_app. cbn.
  rewrite <- !app_assoc. reflexivity.
Qed.

Lemma round_timeline_undisturbed_witness :
  step demoTrio = Some (startGame "AAAAAA" demoTrioDue)
  /\ exists n,
       milestones (outbox (run n (startGame "AAAAAA" demoTrioDue)))
       = milestones (outbox demoTrioDue)
         ++ [mkEmission 3000 "AAAAAA" None (EvRoundStart race 120);
             mkEmission 123000 "AAAAAA" None
               (EvRoundEnd [mkScoreEntry "a" "ann" 0; mkScoreEntry "b" "bob" 0;
                            mkScoreEntry "c" "cat" 0]);
             mkEmission 126000 "AAAAAA" None (EvRoundStart build 180);
             mkEmission 306000 "AAAAAA" None
               (EvRoundEnd [mkScoreEntry "a" "ann" 0; mkScoreEntry "b" "bob" 0;
                            mkScoreEntry "c" "cat" 0]);
             mkEmission 309000 "AAAAAA" None (EvRoundStart battle 150);
             mkEmission 459000 "AAAAAA" None
               (EvGameEnd
                  (mkFinalScores (Some (mkScoreEntry "a" "ann" 0))
                     [mkScoreEntry "a" "ann" 0; mkScoreEntry "b" "bob" 0;
                      mkScoreEntry "c" "cat" 0] (mkTeamScores 0 0)))]
       /\ timers (run n (startGame "AAAAAA" demoTrioDue)) = [].
Proof.
  split; [vm_compute; reflexivity|].
  assert (timers demoTrioDue = [mkTimer 1 3000 None (CbLobby "AAAAAA")]) as Htm
    by (vm_compute; reflexivity).
  assert (nextTimerId demoTrioDue = 2%nat) as Hnext by (vm_compute; reflexivity).
  assert (onlyLobbies "AAAAAA" demoTrioDue) as Hl.
  { unfold onlyLobbies. rewrite Htm, Hnext. split; [|split].
    - apply Forall_cons. split; [|apply Forall_nil_2].
      split; [reflexivity|]. exists "AAAAAA". split; [reflexivity|]. left.
      reflexivity.
    - apply NoDup_singleton.
    - apply Forall_cons. split; [|apply Forall_nil_2]. cbn. lia. }
  destruct (round_timeline_undisturbed "AAAAAA" 0%nat
              (default (newGameRoom "" false) (heap demoTrioDue !! 0%nat))
              demoTrioDue)
    as (n & Hm & Ht & _); [vm_compute; reflexivity | exact Hl
                          | vm_compute; reflexivity ..|].
  exists n. split.
  - rewrite Hm. vm_compute. reflexivity.
  - rewrite Ht, Htm. vm_compute. reflexivity.
Defined.

(** ** The round timeline in a busy server *)

Lemma earliest_min ts t :
  earliest ts = Some t -> Forall (fun x => t_due t <= t_due x) ts.
Proof.
  intros (pre & post & -> & Hpre & Hpost)%earliest_split.
  apply Forall_app. split.
  - eapply Forall_impl; [exact Hpre|]. cbn. intros. lia.
  - apply Forall_cons. split; [lia|done].
Qed.

Lemma NoDup_ids_eq ts (x y : Timer) :
  NoDup (t_id <$> ts) -> x ∈ ts -> y ∈ ts -> t_id x = t_id y -> x = y.
Proof.
  induction ts as [|a ts IH]; [by intros _ ?%elem_of_nil|].
  rewrite fmap_cons, NoDup_cons. intros [Ha Hnd] Hx Hy Hid.
  apply elem_of_cons in Hx as [->|Hx]; apply elem_of_cons in Hy as [->|Hy].
  - done.
  - destruct Ha. rewrite Hid. by apply list_elem_of_fmap_2.
  - destruct Ha. rewrite <- Hid. by apply list_elem_of_fmap_2.
  - by apply IH.
Qed.

Lemma NoDup_ids_middle pre (t : Timer) post :
  NoDup (t_id <$> (pre ++ t :: post)) ->
  Forall (fun t' => t_id t' ≠ t_id t) pre
  /\ Forall (fun t' => t_id t' ≠ t_id t) post
  /\ NoDup (t_id <$> (pre ++ post)).
Proof.
  rewrite !fmap_app, fmap_cons. intros Hnd.
  apply NoDup_app in Hnd as (Hpre & Hdisj & Hpost').
  apply NoDup_cons in Hpost' as [Ht Hpost].
  split; [|split].
  - rewrite Forall_forall. intros x Hx Hid. apply (Hdisj (t_id x)).
    + by apply list_elem_of_fmap_2.
    + rewrite Hid. apply list_elem_of_here.
  - rewrite Forall_forall. intros x Hx Hid. apply Ht. rewrite <- Hid.
    by apply list_elem_of_fmap_2.
  - apply NoDup_app. split; [done|]. split; [|done].
    intros i Hi Hi'. apply (Hdisj i Hi). by apply list_elem_of_further.
Qed.

(** One turn of the event loop, by the timer that fires. *)
Lemma step_Some s s' :
  step s = Some s' ->
  NoDup (t_id <$> timers s) ->
  crashed s = false
  /\ exists t pre post,
       earliest (timers s) = Some t
       /\ timers s = pre ++ t :: post
       /\ Forall (fun x => t_due t <= t_due x) (timers s)
       /\ NoDup (t_id <$> (pre ++ post))
       /\ Forall (fun t' => t_id t' ≠ t_id t) (pre ++ post)
       /\ s' = runCallback (t_id t) (t_cb t)
                 (set_timers
                    (match t_period t with
                     | Some period =>
                         pre ++ mkTimer (t_id t)
                                  (Z.max (clock s) (t_due t) + period)
                                  (Some period) (t_cb t) :: post
                     | None => pre ++ post
                     end)
                    (set_clock (Z.max (clock s) (t_due t)) s)).
Proof.
  unfold step. destruct (crashed s); [done|].
  destruct (earliest (timers s)) as [t|] eqn:He; [|done].
  intros [= <-] Hnd. split; [done|].
  pose proof (earliest_min _ _ He) as Hmin.
  pose proof He as He'.
  apply earliest_split in He as (pre & post & Hts & _ & _).
  exists t, pre, post. split; [done|]. split; [done|]. split; [done|].
  rewrite Hts in Hnd. apply NoDup_ids_middle in Hnd as (Hpre & Hpost & Hnd).
  split; [done|]. split; [by apply Forall_app|].
  f_equal. f_equal. rewrite Hts.
  destruct (t_period t) as [period|] eqn:Hp.
  - by apply rearm_interval_middle.
  - unfold rearm. rewrite Hp. by apply filter_middle.
Qed.

Lemma timerRef_cb (x y : Timer) : t_cb x = t_cb y -> timerRef x = timerRef y.
Proof. unfold timerRef. by intros ->. Qed.

Lemma timer_eq (x y : Timer) :
  t_id x = t_id y -> t_due x = t_due y -> t_period x = t_period y ->
  t_cb x = t_cb y -> x = y.
Proof. destruct x, y. cbn. by intros -> -> -> ->. Qed.

Lemma carried_same old x : x ∈ old -> carried old x.
Proof. intros Hx. exists x. repeat split; try done. by left. Qed.

Lemma carried_end old x c r g :
  carried old x -> t_cb x = CbGameEnd c r g -> x ∈ old.
Proof.
  intros (x0 & Hx0 & Hid & Hcb & Hp & Hd) Hx.
  destruct Hd as [Hd|(c' & r' & Hd)]; [|congruence].
  by rewrite (timer_eq x x0).
Qed.

(** Changes that leave the queue in shape: timers that hold no room object
    come and go, broadcast loops are put off. *)
Lemma orderly_quiet s s' kept added :
  orderly s ->
  crashed s' = false ->
  timers s' = kept ++ added ->
  t_id <$> added = seq (nextTimerId s) (length added) ->
  nextTimerId s' = (nextTimerId s + length added)%nat ->
  Forall (fun t => timerRef t = None /\ wellTimed t) added ->
  NoDup (t_id <$> kept) ->
  Forall (carried (timers s)) kept ->
  (forall e c r g, e ∈ timers s -> t_cb e = CbGameEnd c r g -> e ∈ kept) ->
  (forall r room,
     heap s !! r = Some room -> running room ->
     exists room', heap s' !! r = Some room' /\ running room') ->
  orderly s'.
Proof.
  intros Hs Hc Hts Hids Hnext Hadd Hnd Hkept Hends Hheap.
  rewrite Forall_forall in Hkept, Hadd.
  pose proof (ord_next s Hs) as Hlt. rewrite Forall_forall in Hlt.
  assert (forall x, x ∈ kept -> (t_id x < nextTimerId s)%nat) as Hkid.
  { intros x (x0 & Hx0 & Hid & _)%Hkept. rewrite Hid. by apply Hlt. }
  assert (forall x, x ∈ added ->
            (nextTimerId s <= t_id x < nextTimerId s')%nat) as Haid.
  { intros x Hx. assert (t_id x ∈ t_id <$> added) as Hin
      by (by apply list_elem_of_fmap_2).
    rewrite Hids in Hin. apply elem_of_seq in Hin. lia. }
  assert (forall x r, x ∈ timers s' -> timerRef x = Some r -> x ∈ kept)
    as Hrefk.
  { intros x r Hx Hr. rewrite Hts in Hx. apply elem_of_app in Hx as [Hx|Hx]; [done|].
    destruct (Hadd x Hx) as [Hn _]. congruence. }
  split.
  - done.
  - rewrite Hts, fmap_app. apply NoDup_app. split; [done|]. split.
    + intros i (x & -> & Hx)%list_elem_of_fmap Hi.
      rewrite Hids in Hi. apply elem_of_seq in Hi.
      specialize (Hkid x Hx). lia.
    + rewrite Hids. apply NoDup_seq.
  - rewrite Hts. apply Forall_app. split; rewrite Forall_forall.
    + intros x Hx. specialize (Hkid x Hx). lia.
    + intros x Hx. specialize (Haid x Hx). lia.
  - rewrite Hts. apply Forall_app. split; rewrite Forall_forall.
    + intros x Hx. destruct (Hkept x Hx) as (x0 & Hx0 & _ & Hcb & Hp & _).
      pose proof (ord_timed s Hs) as Ht. rewrite Forall_forall in Ht.
      specialize (Ht x0 Hx0). unfold wellTimed in *. by rewrite Hp, Hcb.
    + intros x Hx. by destruct (Hadd x Hx).
  - intros x r Hx Hr. pose proof (Hrefk x r Hx Hr) as Hk.
    destruct (Hkept x Hk) as (x0 & Hx0 & _ & Hcb & _).
    rewrite (timerRef_cb _ _ Hcb) in Hr.
    destruct (ord_running s Hs x0 r Hx0 Hr) as (room & Hroom & Hrun).
    by apply (Hheap r room).
  - intros x r Hx Hr. pose proof (Hrefk x r Hx Hr) as Hk.
    destruct (Hkept x Hk) as (x0 & Hx0 & Hid & Hcb & Hp & Hd).
    rewrite (timerRef_cb _ _ Hcb) in Hr.
    destruct (ord_governed s Hs x0 r Hx0 Hr)
      as (e & He & c & r' & g & Hecb & Hr' & Hgov).
    exists e. split.
    { rewrite Hts. apply elem_of_app. left. by eapply Hends. }
    exists c, r', g. split; [done|]. split.
    { by rewrite (timerRef_cb _ _ Hcb). }
    destruct Hgov as [->|[(c' & m & d & Hx0cb & Hdue)|(c' & Hx0cb & Hx0id)]].
    + left. destruct Hd as [Hd|(c' & r'' & Hd)]; [|congruence].
      by apply timer_eq.
    + right. left. exists c', m, d. split; [congruence|].
      destruct Hd as [Hd|(c'' & r'' & Hd)]; [lia|congruence].
    + right. right. exists c'. split; congruence.
  - intros e1 e2 c1 c2 r g1 g2 H1 H2 Hcb1 Hcb2.
    assert (e1 ∈ timers s) as H1'.
    { eapply carried_end; [|exact Hcb1]. apply Hkept.
      apply (Hrefk e1 r H1). unfold timerRef. by rewrite Hcb1. }
    assert (e2 ∈ timers s) as H2'.
    { eapply carried_end; [|exact Hcb2]. apply Hkept.
      apply (Hrefk e2 r H2). unfold timerRef. by rewrite Hcb2. }
    by eapply (ord_one_end s Hs e1 e2).
  - intros e c r g He Hcb.
    assert (e ∈ timers s) as He'.
    { eapply carried_end; [|exact Hcb]. apply Hkept.
      apply (Hrefk e r He). unfold timerRef. by rewrite Hcb. }
    destruct (ord_loop s Hs e c r g He' Hcb) as [Hg Hloop].
    split; [lia|]. intros x Hx Hxid.
    rewrite Hts in Hx. apply elem_of_app in Hx as [Hx|Hx].
    + destruct (Hkept x Hx) as (x0 & Hx0 & Hid & Hxcb & _).
      destruct (Hloop x0 Hx0) as (c' & Hc'); [congruence|].
      exists c'. congruence.
    + specialize (Haid x Hx). lia.
Qed.

Lemma startGame_cases c s :
  crashed s = false ->
  startGame c s = s
  \/ exists r room,
       JsMap.get c (rooms s) = Some r /\ heap s !! r = Some room
       /\ gameStarted room = false
       /\ startGame c s
          = mkServer
              (<[r := mkGameRoom (code room) (isPrivate room) (roster room)
                        (Some (newGameState (roster room) (rng s)).1)
                        true 1 (maxPlayers room)]> (heap s))
              (rooms s) (playerRooms s)
              (timers s ++ gameTimers c r (nextTimerId s) (clock s))
              (S (S (S (S (nextTimerId s))))) (clock s)
              (newGameState (roster room) (rng s)).2
              (outbox s ++ [mkEmission (clock s) c None (EvRoundStart race 120)])
              false.
Proof.
  intros Hc.
  destruct (JsMap.get c (rooms s)) as [r|] eqn:Hget;
    [|left; unfold startGame; by rewrite Hget].
  destruct (heap s !! r) as [room|] eqn:Hr;
    [|left; unfold startGame; by rewrite Hget, Hr].
  destruct (gameStarted room) eqn:Hst;
    [left; unfold startGame; by rewrite Hget, Hr, Hst|].
  right. exists r, room. split; [done|]. split; [done|]. split; [done|].
  by apply startGame_fresh.
Qed.

Lemma orderly_startGame c s : orderly s -> orderly (startGame c s).
Proof.
  intros Hs. destruct (startGame_cases c s (ord_alive s Hs))
    as [->|(r & room & Hget & Hr & Hst & ->)]; [done|].
  set (g := nextTimerId s). set (t0 := clock s).
  pose proof (ord_next s Hs) as Hlt. rewrite Forall_forall in Hlt.
  assert (r < length (heap s))%nat as Hlen by (by eapply lookup_lt_Some).
  assert (forall x r0, x ∈ timers s -> timerRef x = Some r0 -> r0 ≠ r) as Hother.
  { intros x r0 Hx Hr0 ->.
    destruct (ord_running s Hs x r Hx Hr0) as (room0 & Hroom0 & Hrun & _).
    congruence. }
  assert (forall x, x ∈ gameTimers c r g t0 ->
            (g <= t_id x < S (S (S (S g))))%nat /\ timerRef x = Some r
            /\ wellTimed x
            /\ governs (mkTimer (S (S (S g))) (t0 + 456000) None
                          (CbGameEnd c r g)) x
            /\ (t_id x = g -> t_cb x = CbTick c r)
            /\ (forall c' r' g', t_cb x = CbGameEnd c' r' g' ->
                  x = mkTimer (S (S (S g))) (t0 + 456000) None (CbGameEnd c r g)))
    as Hnew.
  { intros x Hx. unfold gameTimers, tickTimer in Hx.
    repeat (apply elem_of_cons in Hx as [->|Hx]); [..|by apply elem_of_nil in Hx];
      cbn; (split; [lia|]); (split; [done|]); (split; [done|]);
      (split; [|split; [intros; try done; lia | intros; try done]]);
      exists c, r, g; (split; [done|]); (split; [done|]).
    - right. right. exists c. done.
    - right. left. exists c, build, 180. cbn. split; [done|lia].
    - right. left. exists c, battle, 150. cbn. split; [done|lia].
    - by left. }
  assert (forall x, x ∈ timers s ++ gameTimers c r g t0 ->
            x ∈ timers s \/ x ∈ gameTimers c r g t0) as Hsplit
    by (by intros x ?%elem_of_app).
  split; cbn [crashed timers nextTimerId heap].
  - done.
  - rewrite fmap_app. apply NoDup_app. split; [apply (ord_ids s Hs)|]. split.
    + intros i (x & -> & Hx)%list_elem_of_fmap Hi. specialize (Hlt x Hx).
      cbn in Hi. fold g in Hlt.
      rewrite !elem_of_cons, elem_of_nil in Hi. lia.
    + apply (NoDup_seq g 4).
  - apply Forall_app. split; rewrite Forall_forall.
    + intros x Hx. specialize (Hlt x Hx). fold g in Hlt. lia.
    + intros x Hx. destruct (Hnew x Hx) as (Hid & _). fold g. lia.
  - apply Forall_app. split; [apply (ord_timed s Hs)|].
    rewrite Forall_forall. intros x Hx. by destruct (Hnew x Hx) as (_ & _ & Ht & _).
  - intros x r0 [Hx|Hx]%Hsplit Hr0.
    + destruct (ord_running s Hs x r0 Hx Hr0) as (room0 & Hroom0 & Hrun).
      exists room0. split; [|done].
      rewrite list_lookup_insert_ne; [done|]. intros <-. by apply (Hother x r).
    + destruct (Hnew x Hx) as (_ & Hr' & _). assert (r0 = r) as -> by congruence.
      eexists. split; [by apply list_lookup_insert_eq|]. done.
  - intros x r0 [Hx|Hx]%Hsplit Hr0.
    + destruct (ord_governed s Hs x r0 Hx Hr0) as (e & He & Hgov).
      exists e. split; [|done]. apply elem_of_app. by left.
    + destruct (Hnew x Hx) as (_ & _ & _ & Hgov & _).
      eexists. split; [|exact Hgov]. apply elem_of_app. right.
      unfold gameTimers. rewrite !elem_of_cons. tauto.
  - intros e1 e2 c1 c2 r0 g1 g2 [H1|H1]%Hsplit [H2|H2]%Hsplit Hcb1 Hcb2.
    + by eapply (ord_one_end s Hs e1 e2).
    + exfalso. destruct (Hnew e2 H2) as (_ & Hr' & _).
      unfold timerRef in Hr'. rewrite Hcb2 in Hr'. injection Hr' as ->.
      apply (Hother e1 r H1); [|done]. unfold timerRef. by rewrite Hcb1.
    + exfalso. destruct (Hnew e1 H1) as (_ & Hr' & _).
      unfold timerRef in Hr'. rewrite Hcb1 in Hr'. injection Hr' as ->.
      apply (Hother e2 r H2); [|done]. unfold timerRef. by rewrite Hcb2.
    + destruct (Hnew e1 H1) as (_ & _ & _ & _ & _ & He1).
      destruct (Hnew e2 H2) as (_ & _ & _ & _ & _ & He2).
      rewrite (He1 _ _ _ Hcb1), (He2 _ _ _ Hcb2). done.
  - intros e c0 r0 g0 [He|He]%Hsplit Hcb.
    + destruct (ord_loop s Hs e c0 r0 g0 He Hcb) as [Hg Hloop]. fold g in Hg.
      split; [lia|]. intros x [Hx|Hx]%Hsplit Hid; [by apply Hloop|].
      destruct (Hnew x Hx) as (Hxid & _). lia.
    + destruct (Hnew e He) as (_ & _ & _ & _ & _ & Heq).
      rewrite (Heq _ _ _ Hcb) in Hcb. cbn in Hcb. injection Hcb as <- <- <-.
      split; [lia|]. intros x [Hx|Hx]%Hsplit Hid.
      * specialize (Hlt x Hx). fold g in Hlt. lia.
      * destruct (Hnew x Hx) as (_ & _ & _ & _ & Htick & _).
        exists c. by apply Htick.
Qed.

(** The end of a game takes the last timers of the game out of the queue. *)
Lemma orderly_end s s' pre e post c r g :
  orderly s ->
  timers s = pre ++ e :: post ->
  t_cb e = CbGameEnd c r g ->
  Forall (fun x => t_due e <= t_due x) (timers s) ->
  crashed s' = false ->
  timers s' = filter (fun t => t_id t ≠ g) (pre ++ post) ->
  nextTimerId s' = nextTimerId s ->
  (forall r0, r0 ≠ r -> heap s' !! r0 = heap s !! r0) ->
  orderly s'.
Proof.
  intros Hs Hts Hcb Hmin Hc Hts' Hnext Hheap.
  pose proof (ord_ids s Hs) as Hnd. rewrite Hts in Hnd.
  apply NoDup_ids_middle in Hnd as (Hpre & Hpost & Hnd).
  assert (e ∈ timers s) as He
    by (rewrite Hts; apply elem_of_app; right; apply list_elem_of_here).
  assert (forall x, x ∈ timers s' -> x ∈ timers s /\ x ≠ e /\ t_id x ≠ g) as Hsub.
  { intros x Hx. rewrite Hts' in Hx.
    apply list_elem_of_filter in Hx as [Hg Hx]. split; [|split; [|done]].
    - rewrite Hts. apply elem_of_app in Hx as [Hx|Hx]; apply elem_of_app;
        [by left | right; by apply list_elem_of_further].
    - intros ->. apply elem_of_app in Hx as [Hx|Hx].
      + rewrite Forall_forall in Hpre. by apply (Hpre e Hx).
      + rewrite Forall_forall in Hpost. by apply (Hpost e Hx). }
  assert (forall x, x ∈ timers s -> x ≠ e -> t_id x ≠ g -> x ∈ timers s') as Hback.
  { intros x Hx Hne Hg. rewrite Hts'. apply list_elem_of_filter. split; [done|].
    rewrite Hts in Hx. apply elem_of_app in Hx as [Hx|Hx]; apply elem_of_app;
      [by left|]. apply elem_of_cons in Hx as [->|Hx]; [done|by right]. }
  assert (forall x r0, x ∈ timers s' -> timerRef x = Some r0 -> r0 ≠ r) as Hother.
  { intros x r0 Hx Hr0 ->. destruct (Hsub x Hx) as (Hx' & Hne & Hg).
    destruct (ord_governed s Hs x r Hx' Hr0)
      as (e' & He' & c' & r' & g' & Hecb & Hr' & Hgov).
    assert (r' = r) as -> by congruence.
    assert (e' = e) as -> by (by eapply (ord_one_end s Hs e' e)).
    assert (g' = g) as -> by congruence.
    destruct Hgov as [->|[(c'' & m & d & _ & Hdue)|(c'' & _ & Hid)]].
    - done.
    - rewrite Forall_forall in Hmin. specialize (Hmin x Hx'). lia.
    - done. }
  pose proof (ord_next s Hs) as Hlt. rewrite Forall_forall in Hlt.
  pose proof (ord_timed s Hs) as Htm. rewrite Forall_forall in Htm.
  split.
  - done.
  - rewrite Hts'. apply (sublist_NoDup _ _ Hnd).
    apply fmap_sublist, sublist_filter.
  - rewrite Forall_forall, Hnext. intros x (Hx & _)%Hsub. by apply Hlt.
  - rewrite Forall_forall. intros x (Hx & _)%Hsub. by apply Htm.
  - intros x r0 Hx Hr0. pose proof (Hother x r0 Hx Hr0) as Hne.
    destruct (Hsub x Hx) as (Hx' & _).
    destruct (ord_running s Hs x r0 Hx' Hr0) as (room & Hroom & Hrun).
    exists room. split; [|done]. by rewrite Hheap.
  - intros x r0 Hx Hr0. pose proof (Hother x r0 Hx Hr0) as Hne.
    destruct (Hsub x Hx) as (Hx' & _).
    destruct (ord_governed s Hs x r0 Hx' Hr0) as (e' & He' & Hgov).
    exists e'. split; [|done].
    destruct Hgov as (c' & r' & g' & Hecb & Hr' & _).
    assert (r' = r0) as -> by congruence.
    apply Hback; [done|congruence|].
    intros Hid. destruct (ord_loop s Hs e c r g He Hcb) as [_ Hloop].
    destruct (Hloop e' He' Hid) as (c'' & Hc''). congruence.
  - intros e1 e2 c1 c2 r0 g1 g2 (H1 & _)%Hsub (H2 & _)%Hsub.
    by apply (ord_one_end s Hs e1 e2).
  - intros e' c' r' g' (He' & _)%Hsub Hecb.
    destruct (ord_loop s Hs e' c' r' g' He' Hecb) as [Hg Hloop].
    split; [lia|]. intros x (Hx & _)%Hsub. by apply Hloop.
Qed.

Lemma extends_refl s : extends s s.
Proof.
  split; try done.
  - exists []. by rewrite app_nil_r.
  - exists []. rewrite app_nil_r, Nat.add_0_r. split; [done|]. split; [done|].
    split; [done|apply Forall_nil_2].
  - intros r room Hr. by exists room.
Qed.

Lemma extends_trans s1 s2 s3 : extends s1 s2 -> extends s2 s3 -> extends s1 s3.
Proof.
  intros [Hc1 Hk1 (m1 & Ho1) (a1 & Ht1 & Hi1 & Hn1 & Hl1) Hh1]
         [Hc2 Hk2 (m2 & Ho2) (a2 & Ht2 & Hi2 & Hn2 & Hl2) Hh2].
  split.
  - congruence.
  - congruence.
  - exists (m1 ++ m2). by rewrite Ho2, Ho1, app_assoc.
  - exists (a1 ++ a2). rewrite Ht2, Ht1, app_assoc. split; [done|].
    rewrite fmap_app, Hi1, Hi2, Hn1, length_app, seq_app. split; [done|].
    split; [lia|]. apply Forall_app. split; [done|]. by rewrite <- Hk1.
  - intros r room Hr. destruct (Hh1 r room Hr) as (room' & Hr' & Hs' & Hg').
    destruct (Hh2 r room' Hr') as (room'' & Hr'' & Hs'' & Hg'').
    exists room''. split; [done|]. split; [congruence|]. by rewrite Hg'', Hg'.
Qed.

Lemma extends_heap_insert s r room room' :
  heap s !! r = Some room ->
  gameStarted room' = gameStarted room ->
  (gameState room' = None <-> gameState room = None) ->
  forall r0 room0,
    heap s !! r0 = Some room0 ->
    exists room1, <[r := room']> (heap s) !! r0 = Some room1
                  /\ gameStarted room1 = gameStarted room0
                  /\ (gameState room1 = None <-> gameState room0 = None).
Proof.
  intros Hr Hst Hgs r0 room0 Hr0. destruct (decide (r0 = r)) as [->|Hne].
  - exists room'. rewrite list_lookup_insert_eq by (by eapply lookup_lt_Some).
    assert (room0 = room) as -> by congruence. done.
  - exists room0. by rewrite list_lookup_insert_ne.
Qed.

Lemma extends_heap_app s more :
  forall r0 room0,
    heap s !! r0 = Some room0 ->
    exists room1, (heap s ++ more) !! r0 = Some room1
                  /\ gameStarted room1 = gameStarted room0
                  /\ (gameState room1 = None <-> gameState room0 = None).
Proof.
  intros r0 room0 Hr0. exists room0. split; [|done].
  by apply lookup_app_l_Some.
Qed.

Lemma findAvailableRoom_extends s : extends s (findAvailableRoom s).2.
Proof.
  unfold findAvailableRoom.
  destruct (firstAvailable (heap s) (rooms s)); [apply extends_refl|].
  destruct (generateRoomCode (rng s)) as [c r']. cbn [snd].
  split; cbn; try done.
  - exists []. by rewrite app_nil_r.
  - exists []. rewrite app_nil_r, Nat.add_0_r. split; [done|]. split; [done|].
    split; [done|apply Forall_nil_2].
  - apply extends_heap_app.
Qed.

Lemma enterRoom_extends socketId roomCode username ref room s :
  heap s !! ref = Some room ->
  extends s (enterRoom socketId roomCode username ref room s).2.
Proof.
  intros Href. unfold enterRoom.
  destruct (addPlayer socketId username room (rng s))
    as [msg|[[player room'] r']] eqn:Hadd; [apply extends_refl|].
  apply addPlayer_inr in Hadd
    as (_ & _ & _ & _ & _ & _ & _ & Hgs & Hst & _).
  assert (gameState room' = None <-> gameState room = None) as Hgs'
    by (by rewrite Hgs).
  destruct (_ && _); cbn [snd]; split; cbn; try done.
  - by eexists.
  - eexists [_]. split; [done|]. split; [done|]. split; [cbn; lia|].
    apply Forall_singleton. by eexists.
  - by apply (extends_heap_insert s ref room room').
  - by eexists.
  - exists []. rewrite app_nil_r, Nat.add_0_r. split; [done|]. split; [done|].
    split; [done|apply Forall_nil_2].
  - by apply (extends_heap_insert s ref room room').
Qed.

Lemma deliver_extends i s : extends s (deliver i s).
Proof.
  unfold deliver. destruct (crashed s); [apply extends_refl|].
  destruct i as [sid u|sid u|sid rc u|sid inp|sid act|sid]; cbn [handle].
  - unfold quickMatch. pose proof (findAvailableRoom_extends s) as Hf.
    destruct (findAvailableRoom s) as [rc s1]. cbn [snd] in Hf.
    destruct (JsMap.get rc (rooms s1)) as [ref|]; [|done].
    destruct (heap s1 !! ref) as [room|] eqn:Href; [|done].
    eapply extends_trans; [exact Hf|]. by apply enterRoom_extends.
  - unfold createRoom. destruct (generateRoomCode (rng s)) as [rc r1].
    destruct (addPlayer sid u (newGameRoom rc true) r1)
      as [msg|[[player room'] r2]]; cbn [snd]; split; cbn; try done.
    + exists []. by rewrite app_nil_r.
    + exists []. rewrite app_nil_r, Nat.add_0_r. split; [done|]. split; [done|].
      split; [done|apply Forall_nil_2].
    + intros r room Hr. by exists room.
    + exists []. by rewrite app_nil_r.
    + exists []. rewrite app_nil_r, Nat.add_0_r. split; [done|]. split; [done|].
      split; [done|apply Forall_nil_2].
    + apply extends_heap_app.
  - unfold joinRoom.
    destruct (JsMap.get (toUpperCase rc) (rooms s)) as [ref|]; [|apply extends_refl].
    destruct (heap s !! ref) as [room|] eqn:Href; [|apply extends_refl].
    destruct (16 <=? playerCount room); [apply extends_refl|].
    destruct (gameStarted room); [apply extends_refl|].
    by apply enterRoom_extends.
  - unfold playerInput. destruct (roomOf sid s) as [rc|]; [|apply extends_refl].
    destruct (liveGame rc s) as [[[ref room] gs]|] eqn:Hlive; [|apply extends_refl].
    apply liveGame_Some in Hlive as (_ & Href & Hgs).
    split; cbn; try done.
    + exists []. by rewrite app_nil_r.
    + exists []. rewrite app_nil_r, Nat.add_0_r. split; [done|]. split; [done|].
      split; [done|apply Forall_nil_2].
    + apply (extends_heap_insert s ref room); [done|done|]. cbn. by rewrite Hgs.
  - unfold playerAction. destruct (roomOf sid s) as [rc|]; [|apply extends_refl].
    destruct (liveGame rc s) as [[[ref room] gs]|] eqn:Hlive; [|apply extends_refl].
    apply liveGame_Some in Hlive as (_ & Href & Hgs).
    destruct (handleAction (clock s) sid act gs) as [[res|] gs'];
      split; cbn; try done.
    + by eexists.
    + exists []. rewrite app_nil_r, Nat.add_0_r. split; [done|]. split; [done|].
      split; [done|apply Forall_nil_2].
    + apply (extends_heap_insert s ref room); [done|done|]. cbn. by rewrite Hgs.
    + exists []. by rewrite app_nil_r.
    + exists []. rewrite app_nil_r, Nat.add_0_r. split; [done|]. split; [done|].
      split; [done|apply Forall_nil_2].
    + apply (extends_heap_insert s ref room); [done|done|]. cbn. by rewrite Hgs.
  - unfold disconnect. destruct (roomOf sid s) as [rc|]; [|apply extends_refl].
    destruct (JsMap.get rc (rooms s)) as [ref|];
      [|split; cbn; try done;
        [exists []; by rewrite app_nil_r
        |exists []; rewrite app_nil_r, Nat.add_0_r; split; [done|]; split; [done|];
         split; [done|apply Forall_nil_2]
        |intros r room Hr; by exists room]].
    destruct (heap s !! ref) as [room|] eqn:Href;
      [|split; cbn; try done;
        [exists []; by rewrite app_nil_r
        |exists []; rewrite app_nil_r, Nat.add_0_r; split; [done|]; split; [done|];
         split; [done|apply Forall_nil_2]
        |intros r room Hr; by exists room]].
    assert (gameState (room_removePlayer sid room) = None <-> gameState room = None)
      as Hgs by (cbn; by destruct (gameState room)).
    destruct (_ =? 0); split; cbn; try done.
    + by eexists.
    + exists []. rewrite app_nil_r, Nat.add_0_r. split; [done|]. split; [done|].
      split; [done|apply Forall_nil_2].
    + by apply (extends_heap_insert s ref room).
    + by eexists.
    + exists []. rewrite app_nil_r, Nat.add_0_r. split; [done|]. split; [done|].
      split; [done|apply Forall_nil_2].
    + by apply (extends_heap_insert s ref room).
Qed.

Lemma orderly_extends s s' : orderly s -> extends s s' -> orderly s'.
Proof.
  intros Hs [Hc _ _ (added & Hts & Hids & Hnext & Hadd) Hheap].
  apply (orderly_quiet s s' (timers s) added); try done.
  - rewrite Hc. apply (ord_alive s Hs).
  - eapply Forall_impl; [exact Hadd|]. cbn. intros t (c & ->). done.
  - apply (ord_ids s Hs).
  - rewrite Forall_forall. intros x Hx. by apply carried_same.
  - intros r room Hr [Hst Hgs]. destruct (Hheap r room Hr) as (room' & Hr' & Hst' & Hgs').
    exists room'. split; [done|]. split; [congruence|]. by rewrite Hgs'.
Qed.

(** One turn of the event loop in an orderly state, by the callback that
    runs: no callback finds its game state missing. *)
Lemma step_cases s s' :
  orderly s -> step s = Some s' ->
  exists t pre post,
    earliest (timers s) = Some t
    /\ timers s = pre ++ t :: post
    /\ Forall (fun x => t_due t <= t_due x) (timers s)
    /\ let at_time := Z.max (clock s) (t_due t) in
       let s1 := set_timers (pre ++ post) (set_clock at_time s) in
       match t_cb t with
       | CbLobby c => s' = startGame c s1
       | CbTick c r =>
           (JsMap.has c (rooms s) = false /\ s' = s1)
           \/ (JsMap.has c (rooms s) = true
               /\ exists gs,
                    roomState r s = Some gs
                    /\ s' = emit c None (EvGameStateUpdate (getState gs))
                              (set_timers
                                 (pre ++ tickTimer c r (t_id t)
                                           (at_time + tickPeriod) :: post)
                                 (set_clock at_time s)))
       | CbRoundEnd c r m d =>
           exists gs,
             roomState r s = Some gs
             /\ s' = (setTimeout (CbRoundStart c m d) 3000
                        (emit c None (EvRoundEnd (getScores gs)) s1)).2
       | CbRoundStart c m d => s' = emit c None (EvRoundStart m d) s1
       | CbGameEnd c r g =>
           exists room gs,
             heap s !! r = Some room /\ gameState room = Some gs
             /\ s' = set_heap (<[r := endGame room]> (heap s))
                       (set_timers
                          (filter (fun x => t_id x ≠ g) (pre ++ post))
                          (emit c None (EvGameEnd (getFinalScores gs)) s1))
       end.
Proof.
  intros Hs Hstep.
  destruct (step_Some s s' Hstep (ord_ids s Hs))
    as (_ & t & pre & post & He & Hts & Hmin & Hnd & Hids & ->).
  exists t, pre, post. split; [done|]. split; [done|]. split; [done|]. cbv zeta.
  assert (t ∈ timers s) as Ht
    by (rewrite Hts; apply elem_of_app; right; apply list_elem_of_here).
  pose proof (ord_timed s Hs) as Htm. rewrite Forall_forall in Htm.
  specialize (Htm t Ht). unfold wellTimed in Htm.
  assert (forall r, timerRef t = Some r ->
            exists room gs, heap s !! r = Some room /\ gameState room = Some gs)
    as Hroom.
  { intros r Hr. destruct (ord_running s Hs t r Ht Hr) as (room & Hroom & _ & Hgs).
    exists room. destruct (gameState room) as [gs|]; [|done]. by exists gs. }
  unfold timerRef in Hroom.
  destruct (t_cb t) as [c|c r|c r m d|c m d|c r g] eqn:Hcb; rewrite Htm;
    cbn [runCallback].
  - done.
  - destruct (Hroom r eq_refl) as (room & gs & Hr & Hgs).
    cbn [rooms set_timers set_clock].
    destruct (JsMap.has c (rooms s)); cbn [negb].
    + right. split; [done|]. exists gs. split; [by unfold roomState; rewrite Hr|].
      unfold roomState. cbn [heap set_timers set_clock]. rewrite Hr, Hgs. done.
    + left. split; [done|]. unfold clearInterval. cbn [timers set_timers].
      rewrite Forall_app in Hids. destruct Hids as [Hpre Hpost].
      rewrite (filter_middle (mkTimer (t_id t) _ _ _) pre post Hpre Hpost).
      done.
  - destruct (Hroom r eq_refl) as (room & gs & Hr & Hgs).
    exists gs. unfold roomState. cbn [heap set_timers set_clock].
    rewrite Hr, Hgs. done.
  - done.
  - destruct (Hroom r eq_refl) as (room & gs & Hr & Hgs).
    exists room, gs. cbn [heap set_timers set_clock]. rewrite Hr, Hgs.
    split; [done|]. split; [done|]. done.
Qed.

Lemma elem_of_middle {A} (x t : A) pre post :
  x ∈ pre ++ post -> x ∈ pre ++ t :: post.
Proof.
  intros [H|H]%elem_of_app; apply elem_of_app; [by left|right].
  by apply list_elem_of_further.
Qed.

Lemma elem_of_middle_inv {A} (x t : A) pre post :
  x ∈ pre ++ t :: post -> x = t \/ x ∈ pre ++ post.
Proof.
  intros [H|H]%elem_of_app.
  - right. apply elem_of_app. by left.
  - apply elem_of_cons in H as [->|H]; [by left|].
    right. apply elem_of_app. by right.
Qed.

(** The state after a timeout that holds no game end has left the queue. *)
Lemma orderly_remove s pre t post at_time :
  orderly s ->
  timers s = pre ++ t :: post ->
  (forall c r g, t_cb t ≠ CbGameEnd c r g) ->
  orderly (set_timers (pre ++ post) (set_clock at_time s)).
Proof.
  intros Hs Hts Hcb.
  pose proof (ord_ids s Hs) as Hnd. rewrite Hts in Hnd.
  apply NoDup_ids_middle in Hnd as (_ & _ & Hnd).
  apply (orderly_quiet s _ (pre ++ post) []); cbn; try done.
  - apply (ord_alive s Hs).
  - by rewrite app_nil_r.
  - rewrite Forall_forall. intros x Hx. apply carried_same. rewrite Hts.
    by apply elem_of_middle.
  - intros e c r g He Hecb. rewrite Hts in He.
    apply elem_of_middle_inv in He as [->|He]; [|done]. by destruct (Hcb c r g).
  - intros r room Hr Hrun. by exists room.
Qed.

Lemma orderly_step s s' : orderly s -> step s = Some s' -> orderly s'.
Proof.
  intros Hs Hstep.
  destruct (step_cases s s' Hs Hstep)
    as (t & pre & post & _ & Hts & Hmin & Hcase).
  cbv zeta in Hcase.
  pose proof (ord_ids s Hs) as Hnd. rewrite Hts in Hnd.
  destruct (t_cb t) as [c|c r|c r m d|c m d|c r g] eqn:Hcb.
  - subst s'. apply orderly_startGame.
    apply (orderly_remove s pre t post); [done|done|]. intros. congruence.
  - destruct Hcase as [[_ ->]|(_ & gs & _ & ->)].
    + apply (orderly_remove s pre t post); [done|done|]. intros. congruence.
    + apply (orderly_quiet s _
               (pre ++ tickTimer c r (t_id t)
                         (Z.max (clock s) (t_due t) + tickPeriod) :: post) []);
        cbn; try done.
      * apply (ord_alive s Hs).
      * by rewrite app_nil_r.
      * by rewrite !fmap_app, fmap_cons in *.
      * rewrite Forall_forall. intros x [->|Hx]%elem_of_middle_inv.
        -- exists t. split; [rewrite Hts; apply elem_of_app; right;
                             apply list_elem_of_here|].
           cbn. split; [done|]. split; [done|]. split.
           ++ pose proof (ord_timed s Hs) as Htm. rewrite Forall_forall in Htm.
              assert (t ∈ timers s) as Ht
                by (rewrite Hts; apply elem_of_app; right; apply list_elem_of_here).
              specialize (Htm t Ht). unfold wellTimed in Htm.
              by rewrite Hcb in Htm.
           ++ right. by exists c, r.
        -- apply carried_same. rewrite Hts. by apply elem_of_middle.
      * intros e c0 r0 g0 He Hecb. rewrite Hts in He.
        apply elem_of_middle_inv in He as [->|He]; [congruence|].
        by apply elem_of_middle.
      * intros r0 room Hr Hrun. by exists room.
  - destruct Hcase as (gs & _ & ->).
    pose proof (orderly_remove s pre t post (Z.max (clock s) (t_due t)) Hs Hts)
      as Hs1.
    eapply (orderly_quiet _ _ (pre ++ post) [_]); [apply Hs1; intros; congruence|..];
      cbn; try done.
    + apply (ord_alive s Hs).
    + lia.
    + apply Forall_singleton. done.
    + apply NoDup_ids_middle in Hnd as (_ & _ & Hnd). done.
    + rewrite Forall_forall. intros x Hx. by apply carried_same.
    + intros r0 room Hr Hrun. by exists room.
  - subst s'.
    pose proof (orderly_remove s pre t post (Z.max (clock s) (t_due t)) Hs Hts)
      as Hs1.
    eapply (orderly_quiet _ _ (pre ++ post) []); [apply Hs1; intros; congruence|..];
      cbn; try done.
    + apply (ord_alive s Hs).
    + by rewrite app_nil_r.
    + apply NoDup_ids_middle in Hnd as (_ & _ & Hnd). done.
    + rewrite Forall_forall. intros x Hx. by apply carried_same.
    + intros r0 room Hr Hrun. by exists room.
  - destruct Hcase as (room & gs & Hr & Hgs & ->).
    apply (orderly_end s _ pre t post c r g); cbn; try done.
    + apply (ord_alive s Hs).
    + intros r0 Hne. by rewrite list_lookup_insert_ne.
Qed.

Lemma reachable_orderly s : reachable s -> orderly s.
Proof.
  induction 1 as [r|s i _ IH|s t _ IH|s s' _ IH Hstep].
  - split; cbn; try done.
    + apply NoDup_nil_2.
    + intros t r0 Ht. by apply elem_of_nil in Ht.
    + intros t r0 Ht. by apply elem_of_nil in Ht.
    + intros e1 e2 c1 c2 r0 g1 g2 H1. by apply elem_of_nil in H1.
    + intros e c r0 g He. by apply elem_of_nil in He.
  - eapply orderly_extends; [exact IH|apply deliver_extends].
  - destruct IH as [H1 H2 H3 H4 H5 H6 H7 H8]. by split.
  - by eapply orderly_step.
Qed.

Lemma sentAt_more t c e s s' more :
  outbox s' = outbox s ++ more -> sentAt t c e s -> sentAt t c e s'.
Proof. unfold sentAt. intros ->. intros H. apply elem_of_app. by left. Qed.

Lemma sentAt_emit c e s : sentAt (clock s) c e (emit c None e s).
Proof. unfold sentAt, emit. cbn. apply elem_of_app. right. apply list_elem_of_here. Qed.

Lemma step_outbox s s' :
  orderly s -> step s = Some s' -> exists more, outbox s' = outbox s ++ more.
Proof.
  intros Hs Hstep.
  destruct (step_cases s s' Hs Hstep)
    as (t & pre & post & _ & Hts & Hmin & Hcase).
  cbv zeta in Hcase.
  destruct (t_cb t) as [c|c r|c r m d|c m d|c r g] eqn:Hcb.
  - subst s'.
    destruct (startGame_cases c
                (set_timers (pre ++ post)
                   (set_clock (Z.max (clock s) (t_due t)) s)))
      as [->|(r & room & _ & _ & _ & ->)]; cbn.
    + apply (ord_alive s Hs).
    + exists []. by rewrite app_nil_r.
    + by eexists.
  - destruct Hcase as [[_ ->]|(_ & gs & _ & ->)]; cbn.
    + exists []. by rewrite app_nil_r.
    + by eexists.
  - destruct Hcase as (gs & _ & ->). cbn. by eexists.
  - subst s'. cbn. by eexists.
  - destruct Hcase as (room & gs & _ & _ & ->). cbn. by eexists.
Qed.

Lemma punctual_rest s pre t post :
  punctual s -> timers s = pre ++ t :: post ->
  Forall (fun x => t_due t <= t_due x) (timers s) ->
  Z.max (clock s) (t_due t) = t_due t
  /\ Forall (fun x => Z.max (clock s) (t_due t) <= t_due x) (pre ++ post).
Proof.
  unfold punctual. intros Hp Hts Hmin. rewrite Hts in Hp, Hmin.
  rewrite Forall_forall in Hp, Hmin.
  assert (clock s <= t_due t) as Ht
    by (apply Hp, elem_of_app; right; apply list_elem_of_here).
  split; [lia|]. rewrite Forall_forall. intros x Hx.
  pose proof (Hp x (elem_of_middle _ _ _ _ Hx)).
  pose proof (Hmin x (elem_of_middle _ _ _ _ Hx)). lia.
Qed.

Lemma punctual_step s s' :
  orderly s -> punctual s -> step s = Some s' -> punctual s'.
Proof.
  intros Hs Hp Hstep.
  destruct (step_cases s s' Hs Hstep)
    as (t & pre & post & _ & Hts & Hmin & Hcase).
  cbv zeta in Hcase.
  destruct (punctual_rest s pre t post Hp Hts Hmin) as [Hat Hrest].
  pose proof tickPeriod_pos as Htick.
  unfold punctual.
  destruct (t_cb t) as [c|c r|c r m d|c m d|c r g] eqn:Hcb.
  - subst s'.
    destruct (startGame_cases c
                (set_timers (pre ++ post)
                   (set_clock (Z.max (clock s) (t_due t)) s)))
      as [->|(r & room & _ & _ & _ & ->)]; cbn.
    + apply (ord_alive s Hs).
    + done.
    + apply Forall_app. split; [done|].
      unfold gameTimers, tickTimer.
      repeat (apply Forall_cons; split; [cbn; lia|]). apply Forall_nil_2.
  - destruct Hcase as [[_ ->]|(_ & gs & _ & ->)]; cbn; [done|].
    apply Forall_app in Hrest as [Hpre Hpost].
    apply Forall_app. split; [done|]. apply Forall_cons. split; [cbn; lia|done].
  - destruct Hcase as (gs & _ & ->). cbn.
    apply Forall_app. split; [done|]. apply Forall_singleton. cbn. lia.
  - subst s'. cbn. done.
  - destruct Hcase as (room & gs & _ & _ & ->). cbn.
    rewrite Forall_forall in Hrest |- *. intros y Hy.
    apply list_elem_of_filter in Hy as [_ Hy]. by apply Hrest.
Qed.

Lemma punctual_deliver s t i :
  punctual s -> Forall (fun tm => t <= t_due tm) (timers s) ->
  punctual (deliver i (elapse t s)).
Proof.
  intros Hp Ht. destruct (deliver_extends i (elapse t s))
    as [_ Hk _ (added & Hts & _ & _ & Hadd) _].
  unfold punctual. rewrite Hts, Hk. cbn [clock timers elapse set_clock] in *.
  apply Forall_app. split.
  - unfold punctual in Hp. rewrite Forall_forall in Hp, Ht |- *.
    intros x Hx. specialize (Hp x Hx). specialize (Ht x Hx). lia.
  - eapply Forall_impl; [exact Hadd|]. cbn. intros x (c & ->). cbn. lia.
Qed.

(** A timeout that is not the one to fire stays in the queue. *)
Lemma step_keeps s s' x :
  orderly s -> step s = Some s' -> x ∈ timers s ->
  (forall c r, t_cb x ≠ CbTick c r) ->
  earliest (timers s) ≠ Some x ->
  x ∈ timers s'.
Proof.
  intros Hs Hstep Hx Hnt Hne.
  destruct (step_cases s s' Hs Hstep)
    as (t & pre & post & He & Hts & Hmin & Hcase).
  cbv zeta in Hcase.
  assert (x ∈ pre ++ post) as Hx'.
  { rewrite Hts in Hx. apply elem_of_middle_inv in Hx as [->|Hx]; [|done].
    by destruct Hne. }
  destruct (t_cb t) as [c|c r|c r m d|c m d|c r g] eqn:Hcb.
  - subst s'.
    destruct (startGame_cases c
                (set_timers (pre ++ post)
                   (set_clock (Z.max (clock s) (t_due t)) s)))
      as [->|(r & room & _ & _ & _ & ->)]; cbn.
    + apply (ord_alive s Hs).
    + done.
    + apply elem_of_app. by left.
  - destruct Hcase as [[_ ->]|(_ & gs & _ & ->)]; cbn; [done|].
    by apply elem_of_middle.
  - destruct Hcase as (gs & _ & ->). cbn. apply elem_of_app. by left.
  - subst s'. cbn. done.
  - destruct Hcase as (room & gs & _ & _ & ->). cbn.
    apply list_elem_of_filter. split; [|done]. intros Hid.
    assert (t ∈ timers s) as Ht
      by (rewrite Hts; apply elem_of_app; right; apply list_elem_of_here).
    destruct (ord_loop s Hs t c r g Ht Hcb) as [_ Hloop].
    destruct (Hloop x Hx Hid) as (c' & Hc'). by destruct (Hnt c' r).
Qed.

(** What the timer that fires brings about. *)
Lemma step_fires s s' x :
  orderly s -> punctual s -> step s = Some s' ->
  earliest (timers s) = Some x ->
  clock s' = t_due x
  /\ match t_cb x with
     | CbLobby c =>
         forall r room,
           JsMap.get c (rooms s) = Some r -> heap s !! r = Some room ->
           gameStarted room = false ->
           sentAt (t_due x) c (EvRoundStart race 120) s'
           /\ forall y, y ∈ gameTimers c r (nextTimerId s) (t_due x) ->
                        y ∈ timers s'
     | CbTick _ _ => True
     | CbRoundEnd c r m d =>
         (exists scores, sentAt (t_due x) c (EvRoundEnd scores) s')
         /\ mkTimer (nextTimerId s) (t_due x + 3000) None (CbRoundStart c m d)
            ∈ timers s'
     | CbRoundStart c m d => sentAt (t_due x) c (EvRoundStart m d) s'
     | CbGameEnd c r g => exists final, sentAt (t_due x) c (EvGameEnd final) s'
     end.
Proof.
  intros Hs Hp Hstep He.
  destruct (step_cases s s' Hs Hstep)
    as (t & pre & post & He' & Hts & Hmin & Hcase).
  cbv zeta in Hcase. assert (t = x) as -> by congruence.
  destruct (punctual_rest s pre x post Hp Hts Hmin) as [Hat _].
  rewrite Hat in Hcase.
  destruct (t_cb x) as [c|c r|c r m d|c m d|c r g] eqn:Hcb.
  - subst s'.
    set (s1 := set_timers (pre ++ post) (set_clock (t_due x) s)).
    destruct (startGame_cases c s1 (ord_alive s Hs))
      as [Heq|(r & room & Hget & Hr & Hst & Heq)]; rewrite Heq.
    + split; [done|]. intros r room Hget Hr Hst. exfalso.
      unfold startGame in Heq. cbn [rooms heap s1 set_timers set_clock] in Heq.
      rewrite Hget, Hr, Hst in Heq.
      destruct (room_startGame room (rng s1)) as [room' r'] eqn:Hrs.
      apply (f_equal outbox) in Heq. cbn in Heq.
      apply (f_equal length) in Heq. rewrite length_app in Heq. cbn in Heq. lia.
    + cbn [clock]. split; [done|]. intros r0 room0 Hget0 Hr0 Hst0.
      cbn [rooms heap s1 set_timers set_clock] in Hget, Hr.
      assert (r0 = r) as -> by congruence.
      unfold sentAt. cbn [outbox timers s1 set_timers set_clock nextTimerId clock].
      split.
      * apply elem_of_app. right. apply list_elem_of_here.
      * intros y Hy. apply elem_of_app. by right.
  - destruct Hcase as [[_ ->]|(_ & gs & _ & ->)]; cbn; done.
  - destruct Hcase as (gs & _ & ->). cbn. split; [done|]. split.
    + exists (getScores gs). unfold sentAt. cbn. apply elem_of_app. right.
      apply list_elem_of_here.
    + apply elem_of_app. right. apply list_elem_of_here.
  - subst s'. cbn. split; [done|]. unfold sentAt. cbn. apply elem_of_app. right.
    apply list_elem_of_here.
  - destruct Hcase as (room & gs & _ & _ & ->). cbn. split; [done|].
    exists (getFinalScores gs). unfold sentAt. cbn. apply elem_of_app. right.
    apply list_elem_of_here.
Qed.

(** *** The fate of a pending timeout *)
Lemma step_fate s s' x :
  orderly s -> step s = Some s' -> x ∈ timers s ->
  (forall c r, t_cb x ≠ CbTick c r) ->
  earliest (timers s) = Some x \/ x ∈ timers s'.
Proof.
  intros Hs Hstep Hx Hnt.
  destruct (step_cases s s' Hs Hstep)
    as (t & pre & post & He & Hts & _).
  rewrite Hts in Hx. apply elem_of_middle_inv in Hx as [->|Hx]; [by left|].
  right. apply (step_keeps s s' x Hs Hstep); [|done|].
  - rewrite Hts. by apply elem_of_middle.
  - rewrite He. intros [= ->].
    pose proof (ord_ids s Hs) as Hnd. rewrite Hts in Hnd.
    apply NoDup_ids_middle in Hnd as (Hpre & Hpost & _).
    rewrite Forall_forall in Hpre, Hpost.
    apply elem_of_app in Hx as [Hx|Hx]; [by destruct (Hpre x Hx)|].
    by destruct (Hpost x Hx).
Qed.

Lemma step_clock s s' : orderly s -> step s = Some s' -> clock s <= clock s'.
Proof.
  intros Hs Hstep.
  destruct (step_cases s s' Hs Hstep)
    as (t & pre & post & _ & Hts & Hmin & Hcase).
  cbv zeta in Hcase.
  destruct (t_cb t) as [c|c r|c r m d|c m d|c r g] eqn:Hcb.
  - subst s'.
    destruct (startGame_cases c
                (set_timers (pre ++ post)
                   (set_clock (Z.max (clock s) (t_due t)) s)))
      as [->|(r & room & _ & _ & _ & ->)]; cbn; try lia.
    apply (ord_alive s Hs).
  - destruct Hcase as [[_ ->]|(_ & gs & _ & ->)]; cbn; lia.
  - destruct Hcase as (gs & _ & ->). cbn. lia.
  - subst s'. cbn. lia.
  - destruct Hcase as (room & gs & _ & _ & ->). cbn. lia.
Qed.

Lemma nextRound_step c r id due m d s s' :
  orderly s -> punctual s -> step s = Some s' ->
  nextRound c r id due m d s -> nextRound c r id due m d s'.
Proof.
  intros Hs Hp Hstep. destruct (step_outbox s s' Hs Hstep) as (more & Hout).
  intros [Hx|[(sc & Hsc) [(id' & Hy)|Hrs]]].
  - destruct (step_fate s s' _ Hs Hstep Hx) as [He|Hx']; [done| |by left].
    destruct (step_fires s s' _ Hs Hp Hstep He) as [_ Hf]. cbn in Hf.
    destruct Hf as [Hsent Hnew]. right. split; [done|]. left. by eexists.
  - right. split; [exists sc; by eapply sentAt_more|].
    destruct (step_fate s s' _ Hs Hstep Hy) as [He|Hy']; [done| |].
    + destruct (step_fires s s' _ Hs Hp Hstep He) as [_ Hf]. cbn in Hf.
      by right.
    + left. by eexists.
  - right. split; [exists sc; by eapply sentAt_more|].
    right. by eapply sentAt_more.
Qed.

Lemma onCourse_step c r g t0 s s' :
  orderly s -> punctual s -> step s = Some s' ->
  onCourse c r g t0 s -> onCourse c r g t0 s'.
Proof.
  intros Hs Hp Hstep [H0 H1 H2 H3].
  destruct (step_outbox s s' Hs Hstep) as (more & Hout).
  pose proof (step_clock s s' Hs Hstep) as Hk.
  split.
  - by eapply sentAt_more.
  - by eapply nextRound_step.
  - by eapply nextRound_step.
  - destruct H3 as [Hx|[Hle (final & Hsent)]].
    + destruct (step_fate s s' _ Hs Hstep Hx) as [He|Hx']; [done| |by left].
      destruct (step_fires s s' _ Hs Hp Hstep He) as [Hc Hf]. cbn in Hc, Hf.
      right. split; [lia|done].
    + right. split; [lia|]. exists final. by eapply sentAt_more.
Qed.

Lemma nextRound_more c r id due m d s s' more added :
  outbox s' = outbox s ++ more -> timers s' = timers s ++ added ->
  nextRound c r id due m d s -> nextRound c r id due m d s'.
Proof.
  intros Hout Hts [Hx|[(sc & Hsc) [(id' & Hy)|Hrs]]].
  - left. rewrite Hts. apply elem_of_app. by left.
  - right. split; [exists sc; by eapply sentAt_more|]. left. exists id'.
    rewrite Hts. apply elem_of_app. by left.
  - right. split; [exists sc; by eapply sentAt_more|].
    right. by eapply sentAt_more.
Qed.

Lemma onCourse_extends c r g t0 s s' :
  extends s s' -> onCourse c r g t0 s -> onCourse c r g t0 s'.
Proof.
  intros [_ Hk (more & Hout) (added & Hts & _) _] [H0 H1 H2 H3]. split.
  - by eapply sentAt_more.
  - by eapply nextRound_more.
  - by eapply nextRound_more.
  - destruct H3 as [Hx|[Hle (final & Hsent)]].
    + left. rewrite Hts. apply elem_of_app. by left.
    + right. split; [lia|]. exists final. by eapply sentAt_more.
Qed.

Lemma onCourse_elapse c r g t0 t s :
  onCourse c r g t0 s -> onCourse c r g t0 (elapse t s).
Proof.
  intros [H0 H1 H2 H3]. split; try done.
  destruct H3 as [Hx|[Hle Hsent]]; [by left|right].
  split; [cbn; lia|done].
Qed.

Lemma orderly_elapse t s : orderly s -> orderly (elapse t s).
Proof. intros [H1 H2 H3 H4 H5 H6 H7 H8]. by split. Qed.

(** *** A game on course along a run *)
Lemma timelyRun_course c r g t0 s s' :
  timelyRun s s' ->
  orderly s -> punctual s -> onCourse c r g t0 s ->
  orderly s' /\ punctual s' /\ onCourse c r g t0 s'.
Proof.
  induction 1 as [s|s s1 s2 Hstep _ IH|s t i s2 Ht _ IH]; intros Hs Hp Hoc.
  - done.
  - apply IH.
    + by eapply orderly_step.
    + by eapply punctual_step.
    + by eapply onCourse_step.
  - apply IH.
    + eapply orderly_extends; [apply orderly_elapse, Hs|apply deliver_extends].
    + by apply punctual_deliver.
    + eapply onCourse_extends; [apply deliver_extends|].
      by apply onCourse_elapse.
Qed.

Lemma pending_early s x : punctual s -> x ∈ timers s -> clock s <= t_due x.
Proof. unfold punctual. rewrite Forall_forall. intros Hp Hx. by apply Hp. Qed.

Lemma nextRound_past c r id due m d s :
  punctual s -> nextRound c r id due m d s ->
  (due < clock s -> exists scores, sentAt due c (EvRoundEnd scores) s)
  /\ (due + 3000 < clock s -> sentAt (due + 3000) c (EvRoundStart m d) s).
Proof.
  intros Hp [Hx|[Hsc [(id' & Hy)|Hrs]]].
  - apply (pending_early s _ Hp) in Hx. cbn in Hx. split; intros; lia.
  - apply (pending_early s _ Hp) in Hy. cbn in Hy. split; [done|]. intros; lia.
  - done.
Qed.

Lemma onCourse_end_past c r g t0 s :
  punctual s -> onCourse c r g t0 s ->
  t0 + 456000 < clock s ->
  exists final, sentAt (t0 + 456000) c (EvGameEnd final) s.
Proof.
  intros Hp [_ _ _ [Hx|[_ Hsent]]] Hlt; [|done].
  apply (pending_early s _ Hp) in Hx. cbn in Hx. lia.
Qed.

(** *** The timers run their course *)
Lemma cost_nonneg T t : 0 <= cost T t.
Proof.
  unfold cost. pose proof tickPeriod_pos.
  destruct (Z.ltb_spec T (t_due t)); [lia|].
  assert (0 <= (T - t_due t) / tickPeriod) by (apply Z.div_pos; lia).
  destruct (t_cb t); lia.
Qed.

Lemma backlog_nonneg T ts : 0 <= backlog T ts.
Proof. induction ts as [|t ts IH]; cbn; [lia|]. pose proof (cost_nonneg T t). lia. Qed.

Lemma backlog_app T xs ys : backlog T (xs ++ ys) = backlog T xs + backlog T ys.
Proof. induction xs as [|x xs IH]; cbn; [done|]. rewrite IH. lia. Qed.

Lemma backlog_filter T (P : Timer -> Prop) `{!forall x, Decision (P x)} ts :
  backlog T (filter P ts) <= backlog T ts.
Proof.
  induction ts as [|t ts IH]; [done|]. rewrite filter_cons.
  pose proof (cost_nonneg T t). destruct (decide (P t)); cbn; lia.
Qed.

Lemma backlog_elem T x ts : x ∈ ts -> cost T x <= backlog T ts.
Proof.
  induction 1 as [x ts|x y ts _ IH]; cbn.
  - pose proof (backlog_nonneg T ts). lia.
  - pose proof (cost_nonneg T y). lia.
Qed.

Lemma cost_rearmed T c r g d :
  d <= T -> cost T (tickTimer c r g (d + tickPeriod)) <= (T - d) / tickPeriod.
Proof.
  intros Hd. unfold cost, tickTimer. cbn. pose proof tickPeriod_pos as Hp.
  destruct (Z.ltb_spec T (d + tickPeriod)).
  - apply Z.div_pos; lia.
  - replace (T - d) with ((T - (d + tickPeriod)) + 1 * tickPeriod) by lia.
    rewrite Z.div_add by lia. lia.
Qed.

Lemma cost_timeout T id due cb :
  cost T (mkTimer id due None cb)
  <= match cb with
     | CbRoundEnd _ _ _ _ => 2
     | CbRoundStart _ _ _ | CbGameEnd _ _ _ => 1
     | _ => cost T (mkTimer id due None cb)
     end.
Proof. unfold cost. cbn. destruct (T <? due), cb; lia. Qed.

Lemma cost_due T t :
  t_due t <= T ->
  cost T t = match t_cb t with
             | CbLobby _ => 8 + (T - t_due t) / tickPeriod
             | CbTick _ _ => 1 + (T - t_due t) / tickPeriod
             | CbRoundEnd _ _ _ _ => 2
             | CbRoundStart _ _ _ => 1
             | CbGameEnd _ _ _ => 1
             end.
Proof. intros H. unfold cost. destruct (Z.ltb_spec T (t_due t)); [lia|done]. Qed.

(** A turn of the event loop whose timer is due by [T] takes from the
    backlog. *)
Lemma step_backlog T s s' t :
  orderly s -> punctual s -> step s = Some s' ->
  earliest (timers s) = Some t -> t_due t <= T ->
  backlog T (timers s') < backlog T (timers s).
Proof.
  intros Hs Hp Hstep He HT.
  destruct (step_cases s s' Hs Hstep)
    as (t' & pre & post & He' & Hts & Hmin & Hcase).
  cbv zeta in Hcase. assert (t' = t) as -> by congruence.
  destruct (punctual_rest s pre t post Hp Hts Hmin) as [Hat _].
  rewrite Hat in Hcase. rewrite Hts, backlog_app. cbn [backlog].
  pose proof tickPeriod_pos as Htick.
  assert (0 <= (T - t_due t) / tickPeriod) as Hdiv by (apply Z.div_pos; lia).
  rewrite (cost_due T t HT).
  destruct (t_cb t) as [c|c r|c r m d|c m d|c r g] eqn:Hcb.
  - subst s'.
    destruct (startGame_cases c
                (set_timers (pre ++ post) (set_clock (t_due t) s)))
      as [->|(r & room & _ & _ & _ & ->)]; cbn [timers set_timers set_clock clock nextTimerId].
    + apply (ord_alive s Hs).
    + rewrite backlog_app. lia.
    + rewrite !backlog_app. unfold gameTimers. cbn [backlog].
      pose proof (cost_rearmed T c r (nextTimerId s) (t_due t) HT).
      pose proof (cost_timeout T (S (nextTimerId s)) (t_due t + 120000)
                    (CbRoundEnd c r build 180)).
      pose proof (cost_timeout T (S (S (nextTimerId s))) (t_due t + 303000)
                    (CbRoundEnd c r battle 150)).
      pose proof (cost_timeout T (S (S (S (nextTimerId s)))) (t_due t + 456000)
                    (CbGameEnd c r (nextTimerId s))).
      cbn beta iota in *. lia.
  - destruct Hcase as [[_ ->]|(_ & gs & _ & ->)];
      cbn [timers set_timers set_clock emit].
    + rewrite backlog_app. lia.
    + rewrite backlog_app. cbn [backlog].
      pose proof (cost_rearmed T c r (t_id t) (t_due t) HT). lia.
  - destruct Hcase as (gs & _ & ->). cbn. rewrite !backlog_app. cbn [backlog].
    pose proof (cost_timeout T (nextTimerId s) (t_due t + 3000)
                  (CbRoundStart c m d)). cbn beta iota in *. lia.
  - subst s'. cbn. rewrite backlog_app. lia.
  - destruct Hcase as (room & gs & _ & _ & ->). cbn.
    pose proof (backlog_filter T (fun x => t_id x ≠ g) (pre ++ post)) as Hf.
    rewrite backlog_app in Hf. lia.
Qed.

(** Left to itself, the event loop brings a game on course to its end. *)
Lemma game_ends c r g t0 (n : nat) :
  forall s,
    orderly s -> punctual s -> onCourse c r g t0 s ->
    backlog (t0 + 456000) (timers s) <= Z.of_nat n ->
    exists k,
      orderly (run k s) /\ punctual (run k s) /\ onCourse c r g t0 (run k s)
      /\ t0 + 456000 <= clock (run k s)
      /\ exists final, sentAt (t0 + 456000) c (EvGameEnd final) (run k s).
Proof.
  induction n as [|n IH]; intros s Hs Hp Hoc Hn.
  - destruct (oc_end _ _ _ _ _ Hoc) as [Hx|[Hle Hsent]].
    + apply (backlog_elem (t0 + 456000)) in Hx. unfold cost in Hx at 1.
      cbn in Hx. rewrite Z.ltb_irrefl in Hx. lia.
    + by exists 0%nat.
  - destruct (oc_end _ _ _ _ _ Hoc) as [Hx|[Hle Hsent]]; [|by exists 0%nat].
    destruct (earliest (timers s)) as [t|] eqn:He.
    2: { apply earliest_None in He. rewrite He in Hx.
         destruct (proj1 (elem_of_nil _) Hx). }
    assert (t_due t <= t0 + 456000) as HT.
    { pose proof (earliest_min _ _ He) as Hmin. rewrite Forall_forall in Hmin.
      apply (Hmin _ Hx). }
    assert (exists s1, step s = Some s1) as (s1 & Hstep).
    { unfold step. rewrite (ord_alive s Hs), He. by eexists. }
    pose proof (step_backlog _ s s1 t Hs Hp Hstep He HT) as Hlt.
    destruct (IH s1) as (k & Hk).
    + by eapply orderly_step.
    + by eapply punctual_step.
    + by eapply onCourse_step.
    + lia.
    + exists (S k). cbn [run]. by rewrite Hstep.
Qed.

Lemma timelyRun_run n : forall s, timelyRun s (run n s).
Proof.
  induction n as [|n IH]; intros s; cbn [run]; [apply timely_here|].
  destruct (step s) as [s1|] eqn:Hstep; [|apply timely_here].
  eapply timely_step; [exact Hstep|apply IH].
Qed.

Lemma timelyRun_trans s1 s2 s3 :
  timelyRun s1 s2 -> timelyRun s2 s3 -> timelyRun s1 s3.
Proof.
  induction 1 as [s|s sa sb Hstep _ IH|s t i sb Ht _ IH]; intros H23.
  - done.
  - eapply timely_step; [exact Hstep|by apply IH].
  - eapply timely_deliver; [exact Ht|by apply IH].
Qed.

(** The turn of a lobby timeout that finds its room waiting starts the
    game of the room. *)
Lemma step_starts s s0 lobby c r room :
  orderly s -> punctual s -> step s = Some s0 ->
  earliest (timers s) = Some lobby -> t_cb lobby = CbLobby c ->
  JsMap.get c (rooms s) = Some r -> heap s !! r = Some room ->
  gameStarted room = false ->
  clock s0 = t_due lobby
  /\ (exists room0, heap s0 !! r = Some room0 /\ gameStarted room0 = true)
  /\ onCourse c r (nextTimerId s) (t_due lobby) s0.
Proof.
  intros Hs Hp Hstep He Hcb Hget Hr Hst.
  destruct (step_fires s s0 lobby Hs Hp Hstep He) as [Hk Hf].
  rewrite Hcb in Hf. destruct (Hf r room Hget Hr Hst) as [Hsent Hts].
  split; [done|]. split.
  - destruct (step_cases s s0 Hs Hstep)
      as (t & pre & post & He' & _ & _ & Hcase).
    cbv zeta in Hcase. assert (t = lobby) as -> by congruence.
    rewrite Hcb in Hcase. subst s0.
    rewrite (startGame_fresh c r room
               (set_timers (pre ++ post)
                  (set_clock (Z.max (clock s) (t_due lobby)) s))
               (ord_alive s Hs) Hget Hr Hst).
    cbn [heap]. eexists. split.
    + apply list_lookup_insert_eq. by eapply lookup_lt_Some.
    + reflexivity.
  - split; [done|left|left|left]; apply Hts; unfold gameTimers;
      rewrite !elem_of_cons; tauto.
Qed.

(** C8. A room is started by the turn of a lobby timeout that finds it
    waiting; say the timeout is due at [t0], and the event loop has kept up
    with its timers so far.  Whatever happens from then on (other rooms
    starting, running or ending their games, players joining, moving,
    acting or leaving, as long as the event loop keeps up with the timers)
    the round events of the room go out at fixed offsets from [t0]: the
    race round at [t0]; once the clock has passed them, the end of the race
    at [t0 + 120000], the build round at [t0 + 123000], the end of the
    build at [t0 + 303000], the battle round at [t0 + 306000] and the end
    of the game at [t0 + 456000].  And they do go out: left to itself, the
    event loop sends every one of them.  With [t0 = 0] these are the offsets
    of the claim. *)
Theorem round_timeline roomCode ref room lobby s s0 s' :
  reachable s -> punctual s ->
  earliest (timers s) = Some lobby -> t_cb lobby = CbLobby roomCode ->
  JsMap.get roomCode (rooms s) = Some ref -> heap s !! ref = Some room ->
  gameStarted room = false ->
  step s = Some s0 -> timelyRun s0 s' ->
  let t0 := t_due lobby in
  let timeline z :=
    (t0 + 120000 < clock z ->
     exists scores, sentAt (t0 + 120000) roomCode (EvRoundEnd scores) z)
    /\ (t0 + 123000 < clock z ->
        sentAt (t0 + 123000) roomCode (EvRoundStart build 180) z)
    /\ (t0 + 303000 < clock z ->
        exists scores, sentAt (t0 + 303000) roomCode (EvRoundEnd scores) z)
    /\ (t0 + 306000 < clock z ->
        sentAt (t0 + 306000) roomCode (EvRoundStart battle 150) z)
    /\ (t0 + 456000 < clock z ->
        exists final, sentAt (t0 + 456000) roomCode (EvGameEnd final) z) in
  clock s0 = t0
  /\ (exists room0, heap s0 !! ref = Some room0 /\ gameStarted room0 = true)
  /\ sentAt t0 roomCode (EvRoundStart race 120) s'
  /\ timeline s'
  /\ exists n,
       t0 + 456000 <= clock (run n s')
       /\ (exists scores,
             sentAt (t0 + 120000) roomCode (EvRoundEnd scores) (run n s'))
       /\ sentAt (t0 + 123000) roomCode (EvRoundStart build 180) (run n s')
       /\ (exists scores,
             sentAt (t0 + 303000) roomCode (EvRoundEnd scores) (run n s'))
       /\ sentAt (t0 + 306000) roomCode (EvRoundStart battle 150) (run n s')
       /\ (exists final,
             sentAt (t0 + 456000) roomCode (EvGameEnd final) (run n s')).
Proof.
  intros Hreach Hp He Hcb Hget Href Hst Hstep Hrun t0 timeline.
  pose proof (reachable_orderly s Hreach) as Hs.
  destruct (step_starts s s0 lobby roomCode ref room Hs Hp Hstep He Hcb Hget
              Href Hst) as (Hk & Hroom & Hoc0).
  fold t0 in Hk, Hoc0.
  destruct (timelyRun_course roomCode ref (nextTimerId s) t0 s0 s' Hrun)
    as (Hs' & Hp' & Hoc); [by eapply orderly_step|by eapply punctual_step|done|].
  split; [done|]. split; [done|]. split; [apply (oc_start _ _ _ _ _ Hoc)|].
  split.
  - destruct (nextRound_past _ _ _ _ _ _ _ Hp' (oc_build _ _ _ _ _ Hoc))
      as [H1 H2].
    destruct (nextRound_past _ _ _ _ _ _ _ Hp' (oc_battle _ _ _ _ _ Hoc))
      as [H3 H4].
    unfold timeline. split; [done|]. split.
    { intros Hlt. replace (t0 + 123000) with (t0 + 120000 + 3000) by lia.
      apply H2. lia. }
    split; [done|]. split.
    { intros Hlt. replace (t0 + 306000) with (t0 + 303000 + 3000) by lia.
      apply H4. lia. }
    by apply onCourse_end_past with ref (nextTimerId s).
  - destruct (game_ends roomCode ref (nextTimerId s) t0
                (Z.to_nat (backlog (t0 + 456000) (timers s'))) s' Hs' Hp' Hoc)
      as (k & Hsk & Hpk & Hock & Hclock & Hend).
    { pose proof (backlog_nonneg (t0 + 456000) (timers s')). lia. }
    exists k.
    destruct (nextRound_past _ _ _ _ _ _ _ Hpk (oc_build _ _ _ _ _ Hock))
      as [H1 H2].
    destruct (nextRound_past _ _ _ _ _ _ _ Hpk (oc_battle _ _ _ _ _ Hock))
      as [H3 H4].
    split; [done|]. split; [apply H1; lia|]. split.
    { replace (t0 + 123000) with (t0 + 120000 + 3000) by lia. apply H2. lia. }
    split; [apply H3; lia|]. split; [|done].
    replace (t0 + 306000) with (t0 + 303000 + 3000) by lia. apply H4. lia.
Qed.

Lemma round_timeline_witness :
  step demoTrio = Some (run 1 demoTrio)
  /\ clock (run 1 demoTrio) = 3000
  /\ sentAt 3000 "AAAAAA" (EvRoundStart race 120) demoBusy
  /\ exists n,
       sentAt 126000 "AAAAAA" (EvRoundStart build 180) (run n demoBusy)
       /\ sentAt 309000 "AAAAAA" (EvRoundStart battle 150) (run n demoBusy)
       /\ exists final,
            sentAt 459000 "AAAAAA" (EvGameEnd final) (run n demoBusy).
Proof.
  assert (step demoTrio = Some (run 1 demoTrio)) as Hstep
    by (vm_compute; reflexivity).
  assert (reachable demoTrio) as Hreach.
  { assert (demoTrio
            = deliver (InQuickMatch "c" "cat")
                (deliver (InQuickMatch "b" "bob")
                   (deliver (InQuickMatch "a" "ann") (initialServer zeroDraws))))
      as -> by (vm_compute; reflexivity).
    do 3 apply reach_deliver. apply reach_boot. }
  assert (punctual demoTrio) as Hp.
  { unfold punctual. apply (bool_decide_unpack _). vm_compute. exact I. }
  assert (timelyRun (run 1 demoTrio) demoBusy) as Hrun.
  { unfold demoBusy.
    apply (timely_deliver (run 1 demoTrio) 3000
             (InPlayerInput "a"
                (mkInput (Some (5 # 1)%Q) (Some (7 # 1)%Q) None None))).
    { apply (bool_decide_unpack _). vm_compute. exact I. }
    apply (timely_deliver _ 3000 (InDisconnect "c")).
    { apply (bool_decide_unpack _). vm_compute. exact I. }
    apply timely_here. }
  destruct (round_timeline "AAAAAA" 0%nat
              (default (newGameRoom "" false) (heap demoTrio !! 0%nat))
              (mkTimer 0 3000 None (CbLobby "AAAAAA"))
              demoTrio (run 1 demoTrio) demoBusy Hreach Hp)
    as (Hk & _ & Hstart & _ & n & _ & _ & Hbuild & _ & Hbattle & Hend);
    [vm_compute; reflexivity ..|exact Hstep|exact Hrun|].
  split; [exact Hstep|]. split; [exact Hk|]. split; [exact Hstart|].
  exists n. split; [exact Hbuild|]. split; [exact Hbattle|exact Hend].
Defined.

(** ** The mode of the simulation state *)

Lemma currentMode_updatePlayerInput id input gs :
  currentMode (updatePlayerInput id input gs) = currentMode gs.
Proof.
  unfold updatePlayerInput. destruct (JsMap.get id (players gs)); [|done].
  destruct (decide (currentMode gs = race)); [|done].
  by destruct (checkCoinCollisions _ _).
Qed.

Lemma currentMode_handleAction now id action gs :
  currentMode (handleAction now id action gs).2 = currentMode gs.
Proof.
  unfold handleAction. destruct (JsMap.get id (players gs)); [|done].
  destruct action; try done. unfold collectCoin.
  destruct (coinAt coinId (coins gs)) as [c|]; [|done].
  by destruct (c_collected c).
Qed.

Lemma reachable_allInRace s : reachable s -> allInRace s.
Proof.
  apply reachable_rooms.
  - done.
  - intros id u room r player room' r' Hadd.
    apply addPlayer_inr in Hadd as (_ & _ & _ & _ & _ & _ & _ & Hgs & _).
    by rewrite Hgs.
  - intros id room. cbn. by destruct (gameState room).
  - intros room r. unfold room_startGame.
    destruct (gameStarted room); [done|].
    pose proof (currentMode_newGameState (roster room) r) as Hm.
    by destruct (newGameState (roster room) r).
  - done.
  - intros id input room gs Hgs. rewrite Hgs. cbn.
    by rewrite currentMode_updatePlayerInput.
  - intros now id action room gs Hgs. rewrite Hgs. cbn.
    by rewrite currentMode_handleAction.
Qed.

Lemma tickPeriod_small : tickPeriod < 1000.
Proof. by vm_compute. Qed.

(** C1. What the code does instead.  Nothing ever calls [setMode]: in every
    state the process can reach, every simulation state is in race mode and
    so is every snapshot taken from it.  In particular, for a room started
    at [t0] with no other timer pending, there is a moment at which the
    build round has been announced ([roundStart] with mode build and
    duration 180, at [t0 + 123000]), the latest broadcast is a snapshot
    sent after that announcement, and both that snapshot and the room's
    simulation state still carry mode race. *)
Theorem mode_stays_race :
  (forall s, reachable s ->
     forall room gs, room ∈ heap s -> gameState room = Some gs ->
       currentMode gs = race /\ sn_mode (getState gs) = race)
  /\ (forall roomCode ref room s,
        crashed s = false ->
        timers s = [] ->
        JsMap.get roomCode (rooms s) = Some ref ->
        heap s !! ref = Some room ->
        gameStarted room = false ->
        exists n t snap gs',
          last (milestones (outbox (run n (startGame roomCode s))))
          = Some (mkEmission (clock s + 123000) roomCode None
                    (EvRoundStart build 180))
          /\ last (outbox (run n (startGame roomCode s)))
             = Some (mkEmission t roomCode None (EvGameStateUpdate snap))
          /\ clock s + 123000 < t
          /\ sn_mode snap = race
          /\ roomState ref (run n (startGame roomCode s)) = Some gs'
          /\ currentMode gs' = race).
Proof.
  split.
  - intros s Hs room gs Hin Hgs. apply reachable_allInRace in Hs.
    unfold allInRace in Hs. rewrite Forall_forall in Hs.
    specialize (Hs room Hin). rewrite Hgs in Hs. done.
  - intros roomCode ref room s Hc Ht Hget Href Hstarted.
    rewrite (startGame_fresh _ _ _ _ Hc Hget Href Hstarted). rewrite Ht.
    cbn [app].
    set (gs := (newGameState (roster room) (rng s)).1).
    set (t0 := clock s).
    set (room1 := mkGameRoom (code room) (isPrivate room) (roster room)
                    (Some gs) true 1 (maxPlayers room)).
    assert (<[ref := room1]> (heap s) !! ref = Some room1) as Href1.
    { apply list_lookup_insert_eq. by eapply lookup_lt_Some. }
    assert (quietQueue (<[ref := room1]> (heap s)) (rooms s) (nextTimerId s) [])
      as Hq.
    { split; [apply Forall_nil_2|]. split; [apply NoDup_nil_2 | apply Forall_nil_2]. }
    destruct (timeline_to_build _ (rooms s) (playerRooms s)
                (newGameState (roster room) (rng s)).2 roomCode ref room1 gs
                Hget Href1 eq_refl [] (nextTimerId s) t0
                (outbox s ++ [mkEmission t0 roomCode None (EvRoundStart race 120)])
                Hq)
      as (n1 & d & log1 & Hrun1 & Hd & Hm1).
    cbn [app] in Hrun1. change (dueAfter (t0 + 123000) []) with (@nil Timer) in Hrun1.
    cbn [app] in Hrun1.
    pose proof tickPeriod_small as Hsmall.
    exists (n1 + 1)%nat, d, (getState gs), gs.
    rewrite run_add, Hrun1.
    pose proof (step_tick _ (rooms s) (playerRooms s)
                  (newGameState (roster room) (rng s)).2 roomCode ref
                  room1 gs Hget Href1 eq_refl [] (nextTimerId s) d
                  [mkTimer (S (S (nextTimerId s))) (t0 + 303000) None
                     (CbRoundEnd roomCode ref battle 150);
                   mkTimer (S (S (S (nextTimerId s)))) (t0 + 456000) None
                     (CbGameEnd roomCode ref (nextTimerId s))]
                  (S (S (S (S (S (nextTimerId s)))))) (t0 + 123000)
                  (log1 ++ [mkEmission (t0 + 123000) roomCode None
                              (EvRoundStart build 180)])
                  ltac:(lia) ltac:(apply Forall_nil_2) ltac:(queue_ok)) as Hstep.
    cbn [app] in Hstep. rewrite (run_1 _ _ Hstep).
    cbn [outbox]. unfold updateOf.
    rewrite milestones_snoc_update, milestones_app.
    cbn [milestones List.filter em_event isUpdate negb].
    rewrite !last_snoc. unfold roomState. cbn [heap]. rewrite Href1.
    pose proof (currentMode_newGameState (roster room) (rng s)) as Hrace.
    fold gs in Hrace.
    split; [reflexivity|]. split; [reflexivity|].
    split; [clear -Hd; lia|]. split; [exact Hrace|].
    split; [reflexivity | exact Hrace].
Qed.

Lemma mode_stays_race_witness :
  step demoLobby = Some (startGame "AAAAAA" demoLobbyDue)
  /\ exists n t snap,
       last (milestones (outbox (run n (startGame "AAAAAA" demoLobbyDue))))
       = Some (mkEmission 126000 "AAAAAA" None (EvRoundStart build 180))
       /\ last (outbox (run n (startGame "AAAAAA" demoLobbyDue)))
          = Some (mkEmission t "AAAAAA" None (EvGameStateUpdate snap))
       /\ 126000 < t
       /\ sn_mode snap = race.
Proof.
  split; [vm_compute; reflexivity|].
  destruct (proj2 mode_stays_race "AAAAAA" 0%nat
              (default (newGameRoom "" false) (heap demoLobbyDue !! 0%nat))
              demoLobbyDue)
    as (n & t & snap & gs' & Hm & Hl & Ht & Hs & _);
    [vm_compute; reflexivity ..|].
  exists n, t, snap. split; [exact Hm|]. split; [exact Hl|].
  split; [exact Ht | exact Hs].
Defined.

(** ** The layout of a new game *)

Lemma initializePositions_from_lookup index ps (i : nat) :
  initializePositions_from index ps !! i
  = (fun kp : string * Player =>
       (kp.1, set_position (inject_Z (100 + ((index + Z.of_nat i) mod 4) * 150))
                (inject_Z (100 + ((index + Z.of_nat i) / 4) * 100))
                (Some 0%Q) (Some 0%Q) kp.2)) <$> ps !! i.
Proof.
  revert index i. induction ps as [|[k p] ps IH]; intros index i; [done|].
  cbn [initializePositions_from]. destruct i as [|i].
  - cbn. by rewrite Z.add_0_r.
  - rewrite !lookup_cons. rewrite IH.
    by replace (index + 1 + Z.of_nat i) with (index + Z.of_nat (S i)) by lia.
Qed.

Lemma keys_initializePositions_from index ps :
  JsMap.keys (initializePositions_from index ps) = JsMap.keys ps.
Proof.
  revert index. induction ps as [|[k p] ps IH]; intros index; [done|].
  cbn [initializePositions_from]. unfold JsMap.keys in *. cbn. by rewrite IH.
Qed.

(** X4. [initializePositions] puts the players on a grid, four to a row, in
    the order of the map, 150 apart in x and 100 in y from (100, 100), at
    rest; it keeps the keys and their order.  No two players share a
    position, and the first sixteen (a full room) lie within
    100 <= x <= 550 and 100 <= y <= 400. *)
Theorem initializePositions_grid ps :
  JsMap.keys (initializePositions ps) = JsMap.keys ps
  /\ (forall (i : nat) k p, ps !! i = Some (k, p) ->
        initializePositions ps !! i
        = Some (k, set_position (inject_Z (100 + (Z.of_nat i mod 4) * 150))
                     (inject_Z (100 + (Z.of_nat i / 4) * 100))
                     (Some 0%Q) (Some 0%Q) p))
  /\ (forall (i j : nat) ki pi kj pj,
        initializePositions ps !! i = Some (ki, pi) ->
        initializePositions ps !! j = Some (kj, pj) ->
        (pl_x pi == pl_x pj)%Q -> (pl_y pi == pl_y pj)%Q -> i = j)
  /\ (forall (i : nat) k p,
        (i < 16)%nat -> initializePositions ps !! i = Some (k, p) ->
        (inject_Z 100 <= pl_x p)%Q /\ (pl_x p <= inject_Z 550)%Q
        /\ (inject_Z 100 <= pl_y p)%Q /\ (pl_y p <= inject_Z 400)%Q).
Proof.
  unfold initializePositions. split; [apply keys_initializePositions_from|].
  split; [|split].
  - intros i k p Hi. by rewrite initializePositions_from_lookup, Hi.
  - intros i j ki pi kj pj Hi Hj Hx Hy.
    rewrite initializePositions_from_lookup in Hi, Hj.
    destruct (ps !! i) as [[k1 p1]|]; [|done].
    destruct (ps !! j) as [[k2 p2]|]; [|done].
    cbn in Hi, Hj. injection Hi as _ <-. injection Hj as _ <-.
    cbn [pl_x pl_y set_position] in Hx, Hy.
    apply (proj1 (inject_Z_injective _ _)) in Hx.
    apply (proj1 (inject_Z_injective _ _)) in Hy.
    rewrite !Z.add_0_l in *.
    pose proof (Z.div_mod (Z.of_nat i) 4 ltac:(lia)).
    pose proof (Z.div_mod (Z.of_nat j) 4 ltac:(lia)).
    lia.
  - intros i k p Hlt Hi. rewrite initializePositions_from_lookup in Hi.
    destruct (ps !! i) as [[k1 p1]|]; [|done].
    cbn in Hi. injection Hi as _ <-. cbn [pl_x pl_y set_position].
    rewrite <- !Zle_Qle. rewrite !Z.add_0_l.
    pose proof (Z.mod_pos_bound (Z.of_nat i) 4 ltac:(lia)).
    assert (0 <= Z.of_nat i / 4 <= 3).
    { split; [apply Z.div_pos; lia|]. apply Z.lt_succ_r, Z.div_lt_upper_bound; lia. }
    lia.
Qed.

Lemma generateCoins_from_spec n i r :
  (generateCoins_from n i r).2 = mkRand (draws r) (cursor r + 2 * n)
  /\ length (generateCoins_from n i r).1 = n
  /\ forall k : nat, (k < n)%nat ->
       (generateCoins_from n i r).1 !! k
       = Some (mkCoin (i + Z.of_nat k)
                 (draws r (cursor r + 2 * k) * (800 # 1))
                 (draws r (cursor r + 2 * k + 1) * (600 # 1)) false).
Proof.
  revert i r. induction n as [|n IH]; intros i r.
  - cbn [generateCoins_from fst snd length]. split.
    + destruct r as [d c]. cbn [draws cursor]. f_equal. lia.
    + split; [reflexivity|]. intros k Hk. lia.
  - cbn [generateCoins_from]. unfold random. cbn [fst snd draws cursor].
    destruct (IH (i + 1) (mkRand (draws r) (S (S (cursor r))))) as (Hr & Hl & Hk).
    destruct (generateCoins_from n (i + 1) (mkRand (draws r) (S (S (cursor r)))))
      as [cs r3].
    cbn [fst snd draws cursor] in *. split; [|split].
    + rewrite Hr. f_equal. lia.
    + cbn [length]. by rewrite Hl.
    + intros [|k] Hlt.
      * cbn [lookup list_lookup]. f_equal. f_equal.
        -- lia.
        -- f_equal. f_equal. lia.
        -- f_equal. f_equal. lia.
      * rewrite lookup_cons. rewrite Hk by lia. f_equal. f_equal.
        -- lia.
        -- f_equal. f_equal. lia.
        -- f_equal. f_equal. lia.
Qed.

Lemma Qmult_unit_bound d (w : Z) :
  0 < w -> (0 <= d)%Q -> (d < 1)%Q ->
  (0 <= d * inject_Z w)%Q /\ (d * inject_Z w < inject_Z w)%Q.
Proof.
  intros Hw H0 H1.
  assert (0 < inject_Z w)%Q as Hq by (rewrite (Zlt_Qlt 0 w) in Hw; exact Hw).
  split.
  - apply Qmult_le_0_compat; [exact H0|]. by apply Qlt_le_weak.
  - rewrite <- (Qmult_1_l (inject_Z w)) at 2.
    apply Qmult_lt_compat_r; [exact Hq|exact H1].
Qed.

(** X5. [generateCoins] lays out twenty coins, none of them collected, whose
    ids are their indices in the list, 0 to 19: the coin that [collectCoin]
    finds under an id is the coin with that id.  It takes forty draws, and
    when the draws are in the unit interval every coin lies in the field:
    0 <= x < 800 and 0 <= y < 600. *)
Theorem generateCoins_layout r :
  let cs := (generateCoins r).1 in
  length cs = 20%nat
  /\ (forall i, 0 <= i < 20 ->
        exists c, coinAt i cs = Some c /\ c_id c = i /\ c_collected c = false)
  /\ (forall i, ~ 0 <= i < 20 -> coinAt i cs = None)
  /\ (generateCoins r).2 = mkRand (draws r) (cursor r + 40)
  /\ (unit_draws r ->
        Forall (fun c => (0 <= c_x c)%Q /\ (c_x c < inject_Z 800)%Q
                         /\ (0 <= c_y c)%Q /\ (c_y c < inject_Z 600)%Q) cs).
Proof.
  intros cs. subst cs. unfold generateCoins.
  destruct (generateCoins_from_spec 20 0 r) as (Hr & Hl & Hk).
  split; [exact Hl|]. split; [|split; [|split; [exact Hr|]]].
  - intros i Hi. unfold coinAt.
    destruct (Z.leb_spec 0 i); [|lia].
    rewrite Hk by lia. eexists. split; [reflexivity|].
    cbn [c_id c_collected]. split; [lia|reflexivity].
  - intros i Hi. unfold coinAt.
    destruct (Z.leb_spec 0 i); [|reflexivity].
    apply lookup_ge_None. rewrite Hl. lia.
  - intros Hu. apply Forall_lookup. intros k c Hc.
    assert (k < 20)%nat as Hlt by (apply lookup_lt_Some in Hc; lia).
    rewrite Hk in Hc by exact Hlt. injection Hc as <-. cbn [c_x c_y].
    destruct (Hu (cursor r + 2 * k)%nat) as [Ha Hb].
    destruct (Hu (cursor r + 2 * k + 1)%nat) as [Hc Hd].
    destruct (Qmult_unit_bound _ 800 ltac:(lia) Ha Hb) as [H1 H2].
    destruct (Qmult_unit_bound _ 600 ltac:(lia) Hc Hd) as [H3 H4].
    split; [exact H1|]. split; [exact H2|]. split; [exact H3|exact H4].
Qed.

(** ** The score table *)

Lemma insertByScore_perm e l : insertByScore e l ≡ₚ e :: l.
Proof.
  induction l as [|e' l IH]; cbn [insertByScore]; [done|].
  destruct (se_score e' <=? se_score e); [done|].
  rewrite IH. apply Permutation_swap.
Qed.

Lemma sortByScore_perm l : sortByScore l ≡ₚ l.
Proof.
  unfold sortByScore. induction l as [|e l IH]; cbn [foldr]; [done|].
  rewrite insertByScore_perm. by rewrite IH.
Qed.

Lemma insertByScore_sorted e l :
  StronglySorted (fun a b => se_score b <= se_score a) l ->
  StronglySorted (fun a b => se_score b <= se_score a) (insertByScore e l).
Proof.
  induction 1 as [|e' l Hs IH Hall]; cbn [insertByScore].
  - apply SSorted_cons; [apply SSorted_nil|apply Forall_nil_2].
  - destruct (Z.leb_spec (se_score e') (se_score e)) as [Hle|Hlt].
    + apply SSorted_cons; [by apply SSorted_cons|].
      apply Forall_cons. split; [exact Hle|].
      eapply Forall_impl; [exact Hall|]. cbn. intros. lia.
    + apply SSorted_cons; [exact IH|].
      rewrite (insertByScore_perm e l). apply Forall_cons. split; [lia|done].
Qed.

Lemma sortByScore_sorted l :
  StronglySorted (fun a b => se_score b <= se_score a) (sortByScore l).
Proof.
  unfold sortByScore. induction l as [|e l IH]; cbn [foldr].
  - apply SSorted_nil.
  - by apply insertByScore_sorted.
Qed.

Lemma head_insertByScore e l :
  head (insertByScore e l)
  = match head l with
    | Some e' => if se_score e' <=? se_score e then Some e else Some e'
    | None => Some e
    end.
Proof.
  destruct l as [|e' l]; cbn [insertByScore head]; [done|].
  by destruct (se_score e' <=? se_score e).
Qed.

(** The first of the entries with the highest score leads the sorted list. *)
Lemma head_sortByScore l w :
  head (sortByScore l) = Some w ->
  exists pre post,
    l = pre ++ w :: post
    /\ Forall (fun e => se_score e < se_score w) pre
    /\ Forall (fun e => se_score e <= se_score w) post.
Proof.
  revert w. induction l as [|e l IH]; intros w; [done|].
  change (sortByScore (e :: l)) with (insertByScore e (sortByScore l)).
  rewrite head_insertByScore.
  destruct (head (sortByScore l)) as [e'|] eqn:Hh.
  - destruct (IH e' eq_refl) as (pre & post & -> & Hpre & Hpost).
    destruct (Z.leb_spec (se_score e') (se_score e)) as [Hle|Hlt];
      intros [= <-].
    + exists [], (pre ++ e' :: post). split; [done|]. split; [apply Forall_nil_2|].
      apply Forall_app. split.
      * eapply Forall_impl; [exact Hpre|]. cbn. intros. lia.
      * apply Forall_cons. split; [exact Hle|].
        eapply Forall_impl; [exact Hpost|]. cbn. intros. lia.
    + exists (e :: pre), post. split; [done|]. split; [|done].
      apply Forall_cons. by split.
  - intros [= <-]. exists [], l. split; [done|]. split; [apply Forall_nil_2|].
    assert (sortByScore l = []) as Hnil by (by destruct (sortByScore l)).
    pose proof (sortByScore_perm l) as Hp. rewrite Hnil in Hp.
    apply Permutation_nil_l in Hp. subst l. apply Forall_nil_2.
Qed.

(** X3. The score table [getScores] lists every player of the game once, by
    descending score; [getFinalScores] hands out the same table, and names
    as the winner its first entry: the first player, in the order the
    players joined, among those with the highest score.  Only a game
    without players has no winner. *)
Theorem getScores_ranking gs :
  let entry p := mkScoreEntry (pl_id p) (pl_username p) (pl_score p) in
  let entries := map entry (JsMap.values (players gs)) in
  getScores gs ≡ₚ entries
  /\ StronglySorted (fun a b => se_score b <= se_score a) (getScores gs)
  /\ fs_scores (getFinalScores gs) = getScores gs
  /\ fs_teamScores (getFinalScores gs) = teamScores gs
  /\ match fs_winner (getFinalScores gs) with
     | Some w =>
         exists before after,
           entries = before ++ w :: after
           /\ Forall (fun e => se_score e < se_score w) before
           /\ Forall (fun e => se_score e <= se_score w) after
     | None => players gs = []
     end.
Proof.
  intros entry entries. unfold getFinalScores, getScores. fold entry entries.
  cbn [fs_scores fs_teamScores fs_winner].
  split; [apply sortByScore_perm|]. split; [apply sortByScore_sorted|].
  split; [done|]. split; [done|].
  destruct (head (sortByScore entries)) as [w|] eqn:Hh.
  - by apply head_sortByScore.
  - assert (sortByScore entries = []) as Hnil
      by (by destruct (sortByScore entries)).
    pose proof (sortByScore_perm entries) as Hp. rewrite Hnil in Hp.
    apply Permutation_nil_l in Hp. subst entries.
    unfold JsMap.values in Hp. destruct (players gs); [done|discriminate].
Qed.

(** ** What the simulation step leaves alone *)

Section Simulation_frame.
Variables cosf sinf : Q -> Q.

Lemma damagedBy_shape q kp :
  damagedBy q kp = (kp.1, set_health (pl_health (damagedBy q kp).2) kp.2).
Proof.
  unfold damagedBy. destruct kp as [k p]. cbn [fst snd].
  destruct (isTarget q p); [done|]. by destruct p.
Qed.

Lemma afterAll_shape projs kp :
  afterAll projs kp = (kp.1, set_health (pl_health (afterAll projs kp).2) kp.2).
Proof.
  revert kp. induction projs as [|q rest IH]; intros kp.
  - destruct kp as [k p]. cbn. by destruct p.
  - rewrite afterAll_cons. rewrite (IH (damagedBy q kp)) at 1.
    rewrite (damagedBy_shape q kp) at 1 3. done.
Qed.

Lemma health_afterAll_le projs kp :
  Forall (fun q => 0 <= pr_damage q) projs ->
  0 <= pl_health kp.2 ->
  pl_health (afterAll projs kp).2 <= pl_health kp.2.
Proof.
  revert kp. induction projs as [|q rest IH]; intros kp Hd Hh; [done|].
  apply Forall_cons in Hd as [Hq Hd]. rewrite afterAll_cons.
  assert (0 <= pl_health (damagedBy q kp).2 <= pl_health kp.2) as Hstep.
  { unfold damagedBy. cbn [snd]. destruct (isTarget q kp.2); cbn; lia. }
  specialize (IH (damagedBy q kp) Hd ltac:(lia)). lia.
Qed.

Lemma get_map_entries (f : string * Player -> string * Player) k ps :
  (forall kp, (f kp).1 = kp.1) ->
  JsMap.get k (map f ps) = (fun p => (f (k, p)).2) <$> JsMap.get k ps.
Proof.
  intros Hf. induction ps as [|[k' p'] ps IH]; [done|].
  cbn [map JsMap.get]. pose proof (Hf (k', p')) as Hk. cbn in Hk.
  destruct (f (k', p')) as [k'' p''] eqn:Hfe. cbn in Hk. subst k''.
  destruct (decide (k = k')) as [->|Hne]; [|exact IH].
  cbn. by rewrite Hfe.
Qed.

Lemma update_eq now gs :
  let projs := map (advance cosf sinf) (projectiles gs) in
  update cosf sinf now gs
  = mkGameState
      (JsMap.forEach (expirePowerUps now) (map (afterAll projs) (players gs)))
      (currentMode gs) (credited projs (players gs) (teamScores gs))
      (coins gs) (blocks gs) (List.filter (stays (players gs)) projs).
Proof. intros projs. unfold update. by rewrite filterProjectiles_spec. Qed.

(** The roster after [update]. *)
Lemma update_players now gs :
  players (update cosf sinf now gs)
  = map (fun kp =>
           (kp.1,
            expirePowerUps now
              (set_health
                 (pl_health
                    (afterAll (map (advance cosf sinf) (projectiles gs)) kp).2)
                 kp.2)))
      (players gs).
Proof.
  rewrite update_eq. cbn [players].
  unfold JsMap.forEach. rewrite map_map. apply map_ext. intros kp.
  by rewrite (afterAll_shape _ kp) at 1 2.
Qed.

(** X6. [update] changes the projectiles, the health and the power-ups of
    players and the team scores, and nothing else: the mode, the coins and
    the blocks stay, the same players are there in the same order, and each
    keeps its name, team, score and position.  The health of a player does
    not become negative, and does not grow when no projectile has a negative
    damage; of the power-ups exactly those stay that end later than now. *)
Theorem update_touches_health_and_powerUps now gs :
  let gs' := update cosf sinf now gs in
  currentMode gs' = currentMode gs
  /\ coins gs' = coins gs
  /\ blocks gs' = blocks gs
  /\ JsMap.keys (players gs') = JsMap.keys (players gs)
  /\ forall k p,
       JsMap.get k (players gs) = Some p ->
       exists h,
         JsMap.get k (players gs')
         = Some (set_powerUps
                   (filter (fun u => now < pu_endTime u) (pl_powerUps p))
                   (set_health h p))
         /\ (0 <= pl_health p -> 0 <= h)
         /\ (0 <= pl_health p ->
             Forall (fun q => 0 <= pr_damage q) (projectiles gs) ->
             h <= pl_health p).
Proof.
  intros gs'. subst gs'.
  split; [by rewrite update_eq|]. split; [by rewrite update_eq|].
  split; [by rewrite update_eq|].
  rewrite update_players. split.
  - unfold JsMap.keys. rewrite <- list_fmap_compose. done.
  - intros k p Hget.
    rewrite (get_map_entries _ k (players gs)) by done. rewrite Hget.
    cbn [fmap option_fmap option_map fst snd].
    unfold expirePowerUps. cbn [pl_powerUps set_health set_powerUps].
    exists (pl_health
              (afterAll (map (advance cosf sinf) (projectiles gs)) (k, p)).2).
    split; [reflexivity|]. split.
    + intros Hh. by apply (health_afterAll_nonneg _ (k, p)).
    + intros Hh Hd. apply (health_afterAll_le _ (k, p)); [|done].
      apply Forall_forall. intros q (q0 & -> & Hq0)%list_elem_of_fmap.
      rewrite Forall_forall in Hd. unfold advance. cbn [pr_damage].
      by apply Hd.
Qed.

(** X7. A boost lasts three seconds: the power-up that [useBoost] gives at
    [now] is still there after every [update] that runs before
    [now + 3000], and the first [update] at or after that instant removes
    it.  Nothing keeps a player from taking another one meanwhile. *)
Theorem boost_lasts_three_seconds now t playerId player gs :
  JsMap.get playerId (players gs) = Some player ->
  let res := handleAction now playerId ActUseBoost gs in
  let boost := mkPowerUp "speed_boost" (now + 3000) in
  res.1 = Some (BoostActivated (pl_id player) "speed_boost")
  /\ (pl_powerUps <$> JsMap.get playerId (players res.2)
      = Some (pl_powerUps player ++ [boost]))
  /\ (pl_powerUps <$> JsMap.get playerId (players (update cosf sinf t res.2))
      = Some (filter (fun u => t < pu_endTime u) (pl_powerUps player)
              ++ (if t <? now + 3000 then [boost] else []))).
Proof.
  intros Hget res boost. subst res. unfold handleAction. rewrite Hget.
  unfold activateBoost. cbn [fst snd]. split; [done|].
  rewrite update_players. cbn [players set_players].
  rewrite (get_map_entries _ playerId) by done. rewrite get_set_eq.
  split; [done|]. cbn [fmap option_fmap option_map fst snd].
  cbn [expirePowerUps pl_powerUps set_powerUps set_health]. f_equal.
  unfold expirePowerUps. cbn [pl_powerUps set_powerUps set_health].
  rewrite filter_app. f_equal. rewrite filter_cons, filter_nil.
  cbn [pu_endTime]. fold boost.
  destruct (Z.ltb_spec t (now + 3000)).
  - by rewrite decide_True.
  - rewrite decide_False; [done|lia].
Qed.

End Simulation_frame.

Lemma boost_lasts_three_seconds_witness :
  let res := handleAction 1000 "a" ActUseBoost demoRace in
  let boost := mkPowerUp "speed_boost" 4000 in
  (pl_powerUps <$> JsMap.get "a" (players res.2) = Some [boost])
  /\ (pl_powerUps
        <$> JsMap.get "a"
              (players (update (fun _ => 1%Q) (fun _ => 0%Q) 3999 res.2))
      = Some [boost])
  /\ (pl_powerUps
        <$> JsMap.get "a"
              (players (update (fun _ => 1%Q) (fun _ => 0%Q) 4000 res.2))
      = Some []).
Proof.
  assert (JsMap.get "a" (players demoRace)
          = Some (demoPlayer "a" red (300 # 1) (300 # 1) 100)) as Hget
    by (vm_compute; reflexivity).
  intros res boost. split; [|split].
  - exact (proj1 (proj2 (boost_lasts_three_seconds
                           (fun _ => 1%Q) (fun _ => 0%Q) 1000 0 "a" _ demoRace
                           Hget))).
  - exact (proj2 (proj2 (boost_lasts_three_seconds
                           (fun _ => 1%Q) (fun _ => 0%Q) 1000 3999 "a" _
                           demoRace Hget))).
  - exact (proj2 (proj2 (boost_lasts_three_seconds
                           (fun _ => 1%Q) (fun _ => 0%Q) 1000 4000 "a" _
                           demoRace Hget))).
Defined.

(** ** Sockets that have gone, and timers that stay *)

Lemma roomOf_disconnect socketId s : roomOf socketId (disconnect socketId s) = None.
Proof.
  unfold disconnect. destruct (roomOf socketId s) as [roomCode|] eqn:Hroom;
    [|exact Hroom].
  unfold roomOf. cbn [playerRooms set_playerRooms]. by rewrite lookup_delete_eq.
Qed.

(** X8. A socket that has disconnected is out of the game: [playerRooms]
    names no room for it any more, so a second [disconnect], and every
    [playerInput] and [playerAction] that still arrives from it, changes
    nothing (no event is sent, no score moves). *)
Theorem disconnect_is_final socketId s :
  let s' := disconnect socketId s in
  roomOf socketId s' = None
  /\ disconnect socketId s' = s'
  /\ (forall input, playerInput socketId input s' = s')
  /\ (forall action, playerAction socketId action s' = s').
Proof.
  intros s'. subst s'. pose proof (roomOf_disconnect socketId s) as Hroom.
  split; [exact Hroom|]. split; [|split].
  - unfold disconnect at 1. by rewrite Hroom.
  - intros input. unfold playerInput. by rewrite Hroom.
  - intros action. unfold playerAction. by rewrite Hroom.
Qed.

Lemma reachable_run n : forall s, reachable s -> reachable (run n s).
Proof.
  induction n as [|n IH]; intros s Hs; cbn [run]; [exact Hs|].
  destruct (step s) as [s1|] eqn:Hstep; [|exact Hs].
  apply IH. by apply (reach_step s).
Qed.

(** X2. No timer callback ever finds the game state of its room missing:
    the broadcast loop and the round timeouts of a game read
    [room.gameState], which only the end of that game clears, after the
    last of them has run.  In every state the process reaches, it has not
    died of such a read. *)
Theorem timers_never_throw s : reachable s -> crashed s = false.
Proof. intros Hs. apply (ord_alive s), reachable_orderly, Hs. Qed.

Lemma timers_never_throw_witness :
  crashed (run 4000 demoLobby) = false.
Proof.
  apply timers_never_throw. apply reachable_run.
  assert (demoLobby
          = deliver (InQuickMatch "b" "bob")
              (deliver (InQuickMatch "a" "ann") (initialServer zeroDraws)))
    as -> by (vm_compute; reflexivity).
  do 2 apply reach_deliver. apply reach_boot.
Defined.
